(** * M-Hike: the persistence layer and the import/export codec

    A shallow embedding of [lib/database.ts] (schema, CRUD, search,
    duplicate lookup) and [lib/storage.ts] (export text, import parser,
    import flow) of the React Native M-Hike application, together with
    the properties of the written specification that concern them.

    The two files talk to platform services: the SQLite driver
    ([expo-sqlite]) and the JavaScript built-ins [JSON.parse],
    [JSON.stringify] and [String.prototype.match].  Those are modelled
    here as executable functions, each in a section of its own, so that
    the functions of the repository can be transcribed statement by
    statement on top of them. *)

From Stdlib Require Import List ZArith NArith Lia Bool Zify.
From Stdlib Require String Ascii.
From Stdlib Require Import Sorting.Sorted Sorting.Permutation.
Import ListNotations String.StringSyntax.

Set Implicit Arguments.
Delimit Scope string_scope with string.
Local Open Scope N_scope.

(* ================================================================== *)
(** * Text *)
(* ================================================================== *)

(** A JavaScript string is a sequence of 16-bit code units.  A code unit
    is kept as its number, which makes the range tests of the JSON
    grammar and of SQLite's [LIKE] plain comparisons. *)
Abbreviation char := N (only parsing).
Abbreviation str := (list N) (only parsing).

(** [lit "abc"] is the text [abc]. *)
Definition lit (s : String.string) : str :=
  map Ascii.N_of_ascii (String.list_ascii_of_string s).

(** [qlit] is [lit] with the apostrophe standing for the double quote, to
    write JSON texts legibly: [qlit "{'a':1}"] is the text [{"a":1}]. *)
Definition qlit (s : String.string) : str :=
  map (fun c => if c =? 39 then 34 else c) (lit s).
Arguments lit s%_string.
Arguments qlit s%_string.

Fixpoint str_eqb (a b : str) : bool :=
  match a, b with
  | [], [] => true
  | x :: a', y :: b' => (x =? y) && str_eqb a' b'
  | _, _ => false
  end.

(** Comparison of two sequences of numbers, element by element and then
    by length: the order of [memcmp], which SQLite's BINARY collation
    applies to the UTF-8 bytes of two texts (see [SQL.binary_compare]). *)
Fixpoint str_compare (a b : str) : comparison :=
  match a, b with
  | [], [] => Eq
  | [], _ :: _ => Lt
  | _ :: _, [] => Gt
  | x :: a', y :: b' =>
      match x ?= y with
      | Eq => str_compare a' b'
      | c => c
      end
  end.

Definition str_leb (a b : str) : bool :=
  match str_compare a b with Gt => false | _ => true end.

(** [includes s sub]: [String.prototype.includes]. *)
Fixpoint starts_with (p s : str) : bool :=
  match p, s with
  | [], _ => true
  | x :: p', y :: s' => (x =? y) && starts_with p' s'
  | _ :: _, [] => false
  end.

Fixpoint includes (s sub : str) : bool :=
  starts_with sub s ||
  match s with
  | [] => false
  | _ :: s' => includes s' sub
  end.

(* ================================================================== *)
(** * Numbers *)
(* ================================================================== *)

(** The numbers of the application (lengths in km, ratings, coordinates,
    elevation gains, millisecond timestamps) are finite decimals.  A
    number is kept as [mantissa / 10 ^ scale]; the same value may be
    written with several scales, so numbers are compared by value.  NaN,
    the infinities and the rounding of IEEE doubles are outside the
    model. *)
Record number : Type := Num { mantissa : Z; scale : nat }.

Definition pow10 (k : nat) : Z := (10 ^ Z.of_nat k)%Z.

Definition num_compare (a b : number) : comparison :=
  (mantissa a * pow10 (scale b) ?= mantissa b * pow10 (scale a))%Z.

Definition num_eqb (a b : number) : bool :=
  match num_compare a b with Eq => true | _ => false end.
Definition num_leb (a b : number) : bool :=
  match num_compare a b with Gt => false | _ => true end.

Definition num_of_Z (z : Z) : number := Num z 0.
Definition num_is_zero (a : number) : bool := (mantissa a =? 0)%Z.

(** The representative without trailing zeros in the fraction. *)
Fixpoint num_norm_aux (m : Z) (k : nat) : number :=
  match k with
  | O => Num m 0
  | S k' => if (m mod 10 =? 0)%Z then num_norm_aux (m / 10) k' else Num m k
  end.
Definition num_norm (a : number) : number := num_norm_aux (mantissa a) (scale a).

(** ** Decimal digits *)

Definition is_digit (c : char) : bool := (48 <=? c) && (c <=? 57).

Fixpoint digits_fuel (fuel : nat) (n : N) (acc : str) : str :=
  match fuel with
  | O => acc
  | S f =>
      let acc' := (48 + n mod 10) :: acc in
      if n / 10 =? 0 then acc' else digits_fuel f (n / 10) acc'
  end.

(** The decimal digits of [n], most significant first; ["0"] for zero. *)
Definition digits_of_N (n : N) : str :=
  digits_fuel (S (N.to_nat (N.log2 n))) n [].

Definition digits_value (ds : str) : N :=
  fold_left (fun a c => 10 * a + (c - 48)) ds 0.

(** [Number.prototype.toString] on a finite decimal, which is also what
    [JSON.stringify] writes: the integer part, and the fraction when
    there is one.  (The exponent notation that JavaScript switches to
    beyond 1e21 and below 1e-6 is not modelled.) *)
Definition num_to_str (a : number) : str :=
  let n := num_norm a in
  let ds := digits_of_N (Z.abs_N (mantissa n)) in
  let ds := repeat 48 (S (scale n) - length ds) ++ ds in
  let ip := firstn (length ds - scale n) ds in
  let fp := skipn (length ds - scale n) ds in
  (if (mantissa n <? 0)%Z then [45] else []) ++ ip ++
  (match fp with [] => [] | _ => 46 :: fp end).

(* ================================================================== *)
(** * JavaScript values and failures *)
(* ================================================================== *)

(** An optional property [p?: T] of an interface holds [undefined] when it
    was never set, [null] when it was read from a NULL column or from a
    JSON [null], or a value. *)
Inductive opt (A : Type) : Type :=
| Undefined
| Null
| Val (a : A).
Arguments Undefined {A}.
Arguments Null {A}.

(** What a [throw] carries: an [Error] object of some class with its
    message, or a value that is not an [Error]. *)
Inductive errkind : Type := SyntaxError | TypeError | PlainError.
Inductive thrown : Type :=
| ErrorObj (kind : errkind) (message : str)
| NotAnError.

(** [new Error(msg)]. *)
Definition newError (msg : String.string) : thrown := ErrorObj PlainError (lit msg).
Arguments newError msg%_string.

Inductive result (A : Type) : Type :=
| Ok (a : A)
| Throw (e : thrown).
Arguments Throw {A}.

(* ================================================================== *)
(** * JSON *)
(* ================================================================== *)

(** The values [JSON.parse] builds.  An object keeps its members in the
    order of the text; reading a property takes the last member of that
    name, which is the one [JSON.parse] keeps for a repeated key. *)
#[local] Unset Elimination Schemes.
Inductive json : Type :=
| JNull
| JBool (b : bool)
| JNum (n : number)
| JStr (s : str)
| JArr (items : list json)
| JObj (members : list (str * json)).
#[local] Set Elimination Schemes.

Fixpoint assoc_last (k : str) (l : list (str * json)) : option json :=
  match l with
  | [] => None
  | (k', v) :: l' =>
      match assoc_last k l' with
      | Some w => Some w
      | None => if str_eqb k k' then Some v else None
      end
  end.

(** [data.k] on a value other than [null]: the member of an object,
    [undefined] (here [None]) on anything else, none of the names read by
    the application being a property of strings, numbers, booleans or
    arrays. *)
Definition get (data : json) (k : String.string) : option json :=
  match data with
  | JObj l => assoc_last (lit k) l
  | _ => None
  end.
Arguments get data k%_string.

(** Truthiness of a property that was read ([!x] is its negation). *)
Definition truthy (v : option json) : bool :=
  match v with
  | None | Some JNull => false
  | Some (JBool b) => b
  | Some (JNum n) => negb (num_is_zero n)
  | Some (JStr s) => match s with [] => false | _ => true end
  | Some (JArr _) | Some (JObj _) => true
  end.

(** ** [JSON.stringify(value, null, 2)] *)

Definition hex_digit (n : N) : char := if n <? 10 then 48 + n else 87 + n.

Definition hex4 (c : char) : str :=
  [hex_digit (c / 4096 mod 16); hex_digit (c / 256 mod 16);
   hex_digit (c / 16 mod 16); hex_digit (c mod 16)].

Definition uescape (c : char) : str := 92 :: 117 :: hex4 c.

Definition is_high_surrogate (c : char) : bool := (55296 <=? c) && (c <=? 56319).
Definition is_low_surrogate (c : char) : bool := (56320 <=? c) && (c <=? 57343).

(** One code unit that is not part of a surrogate pair. *)
Definition quote_unit (c : char) : str :=
  if c =? 8 then [92; 98]
  else if c =? 9 then [92; 116]
  else if c =? 10 then [92; 110]
  else if c =? 12 then [92; 102]
  else if c =? 13 then [92; 114]
  else if c =? 34 then [92; 34]
  else if c =? 92 then [92; 92]
  else if c <? 32 then uescape c
  else if is_high_surrogate c || is_low_surrogate c then uescape c
  else [c].

(** The body of a quoted string: a well-formed surrogate pair is copied,
    a lone surrogate is escaped. *)
Fixpoint quote_body (s : str) : str :=
  match s with
  | [] => []
  | c :: t =>
      if is_high_surrogate c then
        match t with
        | d :: t' =>
            if is_low_surrogate d then c :: d :: quote_body t'
            else quote_unit c ++ quote_body t
        | [] => quote_unit c
        end
      else quote_unit c ++ quote_body t
  end.

Definition quote (s : str) : str := 34 :: quote_body s ++ [34].

Definition spaces (n : nat) : str := repeat 32 n.

Fixpoint join (sep : str) (parts : list str) : str :=
  match parts with
  | [] => []
  | [p] => p
  | p :: ps => p ++ sep ++ join sep ps
  end.

(** [stringify ind v]: the text of [v] when the enclosing indentation is
    [ind] spaces and the gap is two spaces. *)
Fixpoint stringify (ind : nat) (v : json) : str :=
  match v with
  | JNull => lit "null"
  | JBool true => lit "true"
  | JBool false => lit "false"
  | JNum n => num_to_str n
  | JStr s => quote s
  | JArr [] => lit "[]"
  | JArr l =>
      [91; 10] ++ spaces (2 + ind) ++
      join (44 :: 10 :: spaces (2 + ind)) (map (stringify (2 + ind)) l) ++
      10 :: spaces ind ++ [93]
  | JObj [] => lit "{}"
  | JObj l =>
      [123; 10] ++ spaces (2 + ind) ++
      join (44 :: 10 :: spaces (2 + ind))
        (map (fun kv => quote (fst kv) ++ [58; 32] ++ stringify (2 + ind) (snd kv)) l) ++
      10 :: spaces ind ++ [125]
  end.

(** ** [JSON.parse] *)

Definition is_ws (c : char) : bool :=
  (c =? 32) || (c =? 9) || (c =? 10) || (c =? 13).

Fixpoint skip_ws (s : str) : str :=
  match s with
  | c :: t => if is_ws c then skip_ws t else s
  | [] => []
  end.

Fixpoint span_digits (s : str) : str * str :=
  match s with
  | c :: t =>
      if is_digit c then let (ds, r) := span_digits t in (c :: ds, r)
      else ([], s)
  | [] => ([], [])
  end.

(** The integer part of a number: a single [0], or a digit from 1 to 9
    followed by digits. *)
Definition parse_int_part (s : str) : option (str * str) :=
  match s with
  | c :: t =>
      if c =? 48 then Some ([48], t)
      else if is_digit c then Some (span_digits s)
      else None
  | [] => None
  end.

Definition parse_frac_part (s : str) : option (str * str) :=
  match s with
  | c :: t =>
      if c =? 46 then
        match span_digits t with
        | ([], _) => None
        | (ds, r) => Some (ds, r)
        end
      else Some ([], s)
  | [] => Some ([], s)
  end.

Definition parse_exp_digits (neg : bool) (t : str) : option (Z * str) :=
  match span_digits t with
  | ([], _) => None
  | (ds, r) =>
      let v := Z.of_N (digits_value ds) in
      Some (if neg then (- v)%Z else v, r)
  end.

(** The exponent, as a signed integer. *)
Definition parse_exp_part (s : str) : option (Z * str) :=
  match s with
  | c :: t =>
      if (c =? 101) || (c =? 69) then
        match t with
        | d :: t' =>
            if d =? 43 then parse_exp_digits false t'
            else if d =? 45 then parse_exp_digits true t'
            else parse_exp_digits false t
        | [] => None
        end
      else Some (0%Z, s)
  | [] => Some (0%Z, s)
  end.

Definition parse_sign (s : str) : bool * str :=
  match s with
  | c :: t => if c =? 45 then (true, t) else (false, s)
  | [] => (false, s)
  end.

Definition parse_number (s : str) : option (number * str) :=
  let (neg, s1) := parse_sign s in
  match parse_int_part s1 with
  | None => None
  | Some (ip, s2) =>
      match parse_frac_part s2 with
      | None => None
      | Some (fp, s3) =>
          match parse_exp_part s3 with
          | None => None
          | Some (e, s4) =>
              let m := Z.of_N (digits_value (ip ++ fp)) in
              let m := if neg then (- m)%Z else m in
              let sc := (Z.of_nat (length fp) - e)%Z in
              let n := if (sc <? 0)%Z then Num (m * 10 ^ (- sc)) 0
                       else Num m (Z.to_nat sc) in
              Some (num_norm n, s4)
          end
      end
  end.

Definition hex_value (c : char) : option N :=
  if is_digit c then Some (c - 48)
  else if (97 <=? c) && (c <=? 102) then Some (c - 87)
  else if (65 <=? c) && (c <=? 70) then Some (c - 55)
  else None.

Definition unhex4 (a b c d : char) : option char :=
  match hex_value a, hex_value b, hex_value c, hex_value d with
  | Some x, Some y, Some z, Some w => Some (4096 * x + 256 * y + 16 * z + w)
  | _, _, _, _ => None
  end.

Definition unescape (e : char) : option char :=
  if e =? 34 then Some 34
  else if e =? 92 then Some 92
  else if e =? 47 then Some 47
  else if e =? 98 then Some 8
  else if e =? 102 then Some 12
  else if e =? 110 then Some 10
  else if e =? 114 then Some 13
  else if e =? 116 then Some 9
  else None.

Definition cons_fst (c : char) (r : option (str * str)) : option (str * str) :=
  match r with
  | Some (s, rest) => Some (c :: s, rest)
  | None => None
  end.

(** The text after an opening quote, up to the closing one. *)
Fixpoint parse_string_body (s : str) : option (str * str) :=
  match s with
  | [] => None
  | c :: t =>
      if c =? 34 then Some ([], t)
      else if c =? 92 then
        match t with
        | [] => None
        | e :: t' =>
            if e =? 117 then
              match t' with
              | h1 :: h2 :: h3 :: h4 :: t'' =>
                  match unhex4 h1 h2 h3 h4 with
                  | Some u => cons_fst u (parse_string_body t'')
                  | None => None
                  end
              | _ => None
              end
            else
              match unescape e with
              | Some x => cons_fst x (parse_string_body t')
              | None => None
              end
        end
      else if c <? 32 then None
      else cons_fst c (parse_string_body t)
  end.

(** Outcome of a parsing function run with a bound on its recursion. *)
Inductive presult (A : Type) : Type :=
| Parsed (a : A) (rest : str)
| Malformed
| OutOfFuel.
Arguments Malformed {A}.
Arguments OutOfFuel {A}.

Definition strip_prefix (p s : str) : option str :=
  if starts_with p s then Some (skipn (length p) s) else None.

(** [expect c s]: [s] without its first character, which must be [c]. *)
Definition expect (c : char) (s : str) : option str :=
  match s with
  | x :: t => if x =? c then Some t else None
  | [] => None
  end.

Fixpoint parse_value (fuel : nat) (s : str) : presult json :=
  match fuel with
  | O => OutOfFuel
  | S f =>
      match skip_ws s with
      | [] => Malformed
      | c :: t =>
          if c =? 123 then
            match expect 125 (skip_ws t) with
            | Some r => Parsed (JObj []) r
            | None =>
                match parse_members f t with
                | Parsed l r => Parsed (JObj l) r
                | Malformed => Malformed
                | OutOfFuel => OutOfFuel
                end
            end
          else if c =? 91 then
            match expect 93 (skip_ws t) with
            | Some r => Parsed (JArr []) r
            | None =>
                match parse_elements f t with
                | Parsed l r => Parsed (JArr l) r
                | Malformed => Malformed
                | OutOfFuel => OutOfFuel
                end
            end
          else if c =? 34 then
            match parse_string_body t with
            | Some (x, r) => Parsed (JStr x) r
            | None => Malformed
            end
          else if c =? 116 then
            match strip_prefix (lit "rue") t with
            | Some r => Parsed (JBool true) r
            | None => Malformed
            end
          else if c =? 102 then
            match strip_prefix (lit "alse") t with
            | Some r => Parsed (JBool false) r
            | None => Malformed
            end
          else if c =? 110 then
            match strip_prefix (lit "ull") t with
            | Some r => Parsed JNull r
            | None => Malformed
            end
          else
            match parse_number (c :: t) with
            | Some (n, r) => Parsed (JNum n) r
            | None => Malformed
            end
      end
  end

(** The items of an array after its bracket, through the closing one. *)
with parse_elements (fuel : nat) (s : str) : presult (list json) :=
  match fuel with
  | O => OutOfFuel
  | S f =>
      match parse_value f s with
      | Parsed v r =>
          match skip_ws r with
          | [] => Malformed
          | c :: r' =>
              if c =? 44 then
                match parse_elements f r' with
                | Parsed vs r'' => Parsed (v :: vs) r''
                | Malformed => Malformed
                | OutOfFuel => OutOfFuel
                end
              else if c =? 93 then Parsed [v] r'
              else Malformed
          end
      | Malformed => Malformed
      | OutOfFuel => OutOfFuel
      end
  end

(** The members of an object after its brace, through the closing one. *)
with parse_members (fuel : nat) (s : str) : presult (list (str * json)) :=
  match fuel with
  | O => OutOfFuel
  | S f =>
      match expect 34 (skip_ws s) with
      | None => Malformed
      | Some t =>
          match parse_string_body t with
          | None => Malformed
          | Some (k, r) =>
              match expect 58 (skip_ws r) with
              | None => Malformed
              | Some r1 =>
                  match parse_value f r1 with
                  | Parsed v r2 =>
                      match skip_ws r2 with
                      | [] => Malformed
                      | c :: r3 =>
                          if c =? 44 then
                            match parse_members f r3 with
                            | Parsed kvs r4 => Parsed ((k, v) :: kvs) r4
                            | Malformed => Malformed
                            | OutOfFuel => OutOfFuel
                            end
                          else if c =? 125 then Parsed [(k, v)] r3
                          else Malformed
                      end
                  | Malformed => Malformed
                  | OutOfFuel => OutOfFuel
                  end
              end
          end
      end
  end.

(** [JSON.parse(text)]: one value, with nothing but white space around
    it; a [SyntaxError] otherwise.  The bound on the recursion is never
    reached (lemma [parse_value_fuel] below). *)
Definition JSON_parse (text : str) : result json :=
  match parse_value (S (2 * length text)) text with
  | Parsed v rest =>
      match skip_ws rest with
      | [] => Ok v
      | _ :: _ => Throw (ErrorObj SyntaxError (lit "JSON Parse error"))
      end
  | _ => Throw (ErrorObj SyntaxError (lit "JSON Parse error"))
  end.

(* ================================================================== *)
(** * The records of [types/index.ts] *)
(* ================================================================== *)

Module Hike.
Record t : Type := mk {
  id : option Z;                 (* id?: number, absent before insert *)
  name : str;
  location : str;
  date : str;
  parkingAvailable : bool;
  lengthKm : number;
  difficulty : str;
  description : opt str;
  elevationGainM : opt number;
  rating : opt number;
  photoUri : opt str;
  latitude : opt number;
  longitude : opt number;
  addedToCalendar : opt bool
}.
End Hike.

Module Observation.
Record t : Type := mk {
  id : option Z;
  hikeId : Z;
  observation : str;
  timestamp : number;
  comments : opt str;
  photoUri : opt str
}.
End Observation.

Module ObservationExportFormat.
Record t : Type := mk {
  observation : str;
  timestamp : number;
  comments : opt str
}.
End ObservationExportFormat.

Module HikeExportFormat.
Record t : Type := mk {
  name : str;
  location : str;
  date : str;
  parkingAvailable : bool;
  lengthKm : number;
  difficulty : str;
  description : opt str;
  elevationGainM : opt number;
  rating : opt number;
  latitude : opt number;
  longitude : opt number;
  observations : opt (list ObservationExportFormat.t)
}.
End HikeExportFormat.

(** [x || null] as a bound parameter: SQL NULL ([None]) for [undefined],
    [null], the empty string and zero. *)
Definition str_or_null (x : opt str) : option str :=
  match x with
  | Val (c :: s) => Some (c :: s)
  | _ => None
  end.

Definition num_or_null (x : opt number) : option number :=
  match x with
  | Val n => if num_is_zero n then None else Some n
  | _ => None
  end.

(** [b ? 1 : 0]. *)
Definition bool_to_int (b : bool) : Z := if b then 1%Z else 0%Z.
Definition flag_to_int (b : opt bool) : Z :=
  match b with Val true => 1%Z | _ => 0%Z end.

(** A nullable column as the driver hands it back: [null] or the value. *)
Definition of_column {A : Type} (c : option A) : opt A :=
  match c with
  | Some a => Val a
  | None => Null
  end.

(* ================================================================== *)
(** * The SQLite store *)
(* ================================================================== *)

(** ** Tables

    The two tables of [ensureSchema], a row per record, in rowid order. *)

Module HikeRow.
Record t : Type := mk {
  id : Z;                        (* INTEGER PRIMARY KEY AUTOINCREMENT *)
  name : str;                    (* TEXT NOT NULL *)
  location : str;                (* TEXT NOT NULL *)
  date : str;                    (* TEXT NOT NULL *)
  parkingAvailable : Z;          (* INTEGER NOT NULL DEFAULT 0 *)
  lengthKm : number;             (* REAL NOT NULL *)
  difficulty : str;              (* TEXT NOT NULL *)
  description : option str;      (* TEXT *)
  elevationGainM : option number;(* INTEGER *)
  rating : option number;        (* REAL *)
  photoUri : option str;         (* TEXT *)
  latitude : option number;      (* REAL *)
  longitude : option number;     (* REAL *)
  addedToCalendar : Z            (* INTEGER NOT NULL DEFAULT 0 *)
}.
End HikeRow.

Module ObservationRow.
Record t : Type := mk {
  id : Z;                        (* INTEGER PRIMARY KEY AUTOINCREMENT *)
  hikeId : Z;                    (* INTEGER NOT NULL, REFERENCES hikes(id)
                                    ON DELETE CASCADE *)
  observation : str;             (* TEXT NOT NULL *)
  timestamp : number;            (* INTEGER NOT NULL *)
  comments : option str;         (* TEXT *)
  photoUri : option str          (* TEXT *)
}.
End ObservationRow.

(** The contents of the database file.  [hikes_seq] and
    [observations_seq] are the entries of [sqlite_sequence]: the largest
    rowid each AUTOINCREMENT table has ever given out. *)
Record Store : Type := mkStore {
  hikes : list HikeRow.t;
  hikes_seq : Z;
  observations : list ObservationRow.t;
  observations_seq : Z
}.

Definition empty_store : Store := mkStore [] 0 [] 0.

(** A database connection.  SQLite enforces foreign keys, and with them
    the ON DELETE CASCADE action, only on a connection on which
    [PRAGMA foreign_keys = ON] has been run: the constraints are
    disabled by default and are enabled separately for each connection
    (SQLite documentation, Foreign Key Support, section 2; the
    documentation of expo-sqlite has the application run the pragma
    after [openDatabaseAsync]).  [database.ts] has no such statement. *)
Record Connection : Type := mkConnection { foreign_keys : bool }.

Definition SQLite_default_connection : Connection := mkConnection false.

(** ** ORDER BY *)

Section Sorting.
Variable A : Type.
Variable leb : A -> A -> bool.

Fixpoint insert_by (x : A) (l : list A) : list A :=
  match l with
  | [] => [x]
  | y :: l' => if leb x y then x :: l else y :: insert_by x l'
  end.

Definition sort_by (l : list A) : list A := fold_right insert_by [] l.
End Sorting.

(** ** Texts in the database

    The database holds a text in UTF-8, SQLite's default encoding: the
    driver binds a JavaScript string as its UTF-8 bytes.  A surrogate
    pair of the string is one character, of four bytes; so the order of
    the bytes is the order of the characters by code point, which is not
    the order of the UTF-16 code units.  An unpaired surrogate has no
    UTF-8 form, and what the driver makes of it is not in the
    repository: [code_points] leaves it as it is.  The character U+0000
    ends a text for SQLite's LIKE, which reads its operands as C
    strings.  The statements on matching and on order are about texts
    that have neither ([well_formed]). *)
Fixpoint code_points (s : str) : list N :=
  match s with
  | [] => []
  | c :: t =>
      match t with
      | d :: t' =>
          if is_high_surrogate c && is_low_surrogate d
          then (65536 + (c - 55296) * 1024 + (d - 56320)) :: code_points t'
          else c :: code_points t
      | [] => [c]
      end
  end.

Definition utf8_of_code_point (p : N) : list N :=
  if p <? 128 then [p]
  else if p <? 2048 then [192 + p / 64; 128 + p mod 64]
  else if p <? 65536
  then [224 + p / 4096; 128 + (p / 64) mod 64; 128 + p mod 64]
  else [240 + p / 262144; 128 + (p / 4096) mod 64; 128 + (p / 64) mod 64;
        128 + p mod 64].

Definition utf8 (s : str) : list N := flat_map utf8_of_code_point (code_points s).

Definition is_surrogate (c : N) : bool := (55296 <=? c) && (c <=? 57343).

(** No unpaired surrogate and no U+0000. *)
Definition well_formed (s : str) : bool :=
  forallb (fun p => negb (is_surrogate p) && negb (p =? 0)) (code_points s).

(** ** LIKE

    SQLite's [LIKE] without ESCAPE, on the characters of the pattern and
    of the text: [%] stands for any run of characters, [_] for any one
    character, and any other character for itself, upper and lower case
    of the 26 ASCII letters being the same.  [like] is the matching of
    two sequences of characters; [SQL.like_text] applies it to two
    texts. *)
Definition to_lower (c : char) : char :=
  if (65 <=? c) && (c <=? 90) then c + 32 else c.

Definition like_char (p c : char) : bool := to_lower p =? to_lower c.

Fixpoint like (pattern s : str) : bool :=
  match pattern with
  | [] => match s with [] => true | _ :: _ => false end
  | p :: pattern' =>
      if p =? 37 then
        (fix any (s : str) : bool :=
           like pattern' s ||
           match s with
           | [] => false
           | _ :: s' => any s'
           end) s
      else
        match s with
        | [] => false
        | c :: s' => ((p =? 95) || like_char p c) && like pattern' s'
        end
  end.

(** ** Statements *)

Definition max_rowid {R : Type} (rowid : R -> Z) (rows : list R) : Z :=
  fold_right (fun r m => Z.max (rowid r) m) 0%Z rows.

(** The rowid an AUTOINCREMENT table gives to a new row. *)
Definition next_rowid {R : Type} (rowid : R -> Z) (rows : list R) (seq : Z) : Z :=
  (Z.max seq (max_rowid rowid rows) + 1)%Z.

Definition constraint_failed : thrown :=
  ErrorObj PlainError (lit "FOREIGN KEY constraint failed").

Module SQL.

(** INSERT INTO hikes (name, ..., addedToCalendar) VALUES (?, ..., ?) *)
Definition insert_hike (name location date : str) (parkingAvailable : Z)
    (lengthKm : number) (difficulty : str) (description : option str)
    (elevationGainM rating : option number) (photoUri : option str)
    (latitude longitude : option number) (addedToCalendar : Z)
    (s : Store) : Z * Store :=
  let rowid := next_rowid HikeRow.id (hikes s) (hikes_seq s) in
  let row := HikeRow.mk rowid name location date parkingAvailable lengthKm
               difficulty description elevationGainM rating photoUri
               latitude longitude addedToCalendar in
  (rowid, mkStore (hikes s ++ [row]) rowid (observations s) (observations_seq s)).

(** UPDATE hikes SET name = ?, ..., addedToCalendar = ? WHERE id = ? *)
Definition update_hike (name location date : str) (parkingAvailable : Z)
    (lengthKm : number) (difficulty : str) (description : option str)
    (elevationGainM rating : option number) (photoUri : option str)
    (latitude longitude : option number) (addedToCalendar : Z) (id : Z)
    (s : Store) : Store :=
  mkStore
    (map (fun r =>
            if (HikeRow.id r =? id)%Z
            then HikeRow.mk (HikeRow.id r) name location date parkingAvailable
                   lengthKm difficulty description elevationGainM rating
                   photoUri latitude longitude addedToCalendar
            else r) (hikes s))
    (hikes_seq s) (observations s) (observations_seq s).

(** DELETE FROM hikes WHERE id = ?   -- with the cascade on the
    observations when the connection enforces foreign keys *)
Definition delete_hike (c : Connection) (id : Z) (s : Store) : Store :=
  mkStore
    (filter (fun r => negb (HikeRow.id r =? id)%Z) (hikes s))
    (hikes_seq s)
    (if foreign_keys c
     then filter (fun o => negb (ObservationRow.hikeId o =? id)%Z) (observations s)
     else observations s)
    (observations_seq s).

(** DELETE FROM hikes *)
Definition delete_all_hikes (c : Connection) (s : Store) : Store :=
  mkStore []
    (hikes_seq s)
    (if foreign_keys c
     then filter (fun o => negb (existsb (fun r => (HikeRow.id r =? ObservationRow.hikeId o)%Z)
                                   (hikes s))) (observations s)
     else observations s)
    (observations_seq s).

(** DELETE FROM observations *)
Definition delete_all_observations (s : Store) : Store :=
  mkStore (hikes s) (hikes_seq s) [] (observations_seq s).

(** BINARY, the collation of every column of the schema: the two texts
    are compared as their UTF-8 bytes. *)
Definition binary_compare (a b : str) : comparison :=
  str_compare (utf8 a) (utf8 b).

Definition binary_leb (a b : str) : bool :=
  match binary_compare a b with Gt => false | _ => true end.

(** [text LIKE pattern] *)
Definition like_text (pattern text : str) : bool :=
  like (code_points pattern) (code_points text).

(** SQLite refuses a LIKE pattern of more than
    SQLITE_MAX_LIKE_PATTERN_LENGTH bytes, 50000 as it is built: the
    LIKE fails when it is evaluated on a row, and the statement with
    it. *)
Definition too_complex (pattern : str) : bool :=
  50000 <? N.of_nat (length (utf8 pattern)).

Definition like_too_complex : thrown :=
  ErrorObj PlainError (lit "LIKE or GLOB pattern too complex").

(** SELECT * FROM hikes ORDER BY date DESC, name ASC *)
Definition by_date_desc_name_asc (a b : HikeRow.t) : bool :=
  match binary_compare (HikeRow.date a) (HikeRow.date b) with
  | Gt => true
  | Lt => false
  | Eq => binary_leb (HikeRow.name a) (HikeRow.name b)
  end.

Definition by_name_asc (a b : HikeRow.t) : bool :=
  binary_leb (HikeRow.name a) (HikeRow.name b).

Definition select_hikes (where_ : HikeRow.t -> bool)
    (order : HikeRow.t -> HikeRow.t -> bool) (s : Store) : list HikeRow.t :=
  sort_by order (filter where_ (hikes s)).

(** SELECT * FROM hikes WHERE name LIKE ? ORDER BY name ASC
    The LIKE is evaluated on every row of the table. *)
Definition search_hikes (pattern : str) (s : Store)
    : result (list HikeRow.t * Store) :=
  if too_complex pattern && match hikes s with [] => false | _ :: _ => true end
  then Throw like_too_complex
  else Ok (select_hikes (fun r => like_text pattern (HikeRow.name r)) by_name_asc s,
           s).

(** SELECT * FROM hikes WHERE ... : the first row, in rowid order *)
Definition first_hike (where_ : HikeRow.t -> bool) (s : Store) : option HikeRow.t :=
  find where_ (hikes s).

(** INSERT INTO observations (hikeId, observation, timestamp, comments,
    photoUri) VALUES (?, ?, ?, ?, ?) *)
Definition insert_observation (c : Connection) (hikeId : Z) (observation : str)
    (timestamp : number) (comments photoUri : option str)
    (s : Store) : result (Z * Store) :=
  if foreign_keys c &&
     negb (existsb (fun r => (HikeRow.id r =? hikeId)%Z) (hikes s))
  then Throw constraint_failed
  else
    let rowid := next_rowid ObservationRow.id (observations s) (observations_seq s) in
    let row := ObservationRow.mk rowid hikeId observation timestamp comments photoUri in
    Ok (rowid, mkStore (hikes s) (hikes_seq s) (observations s ++ [row]) rowid).

(** SELECT * FROM observations WHERE hikeId = ? ORDER BY timestamp DESC;
    a NULL parameter equals no row *)
Definition by_timestamp_desc (a b : ObservationRow.t) : bool :=
  num_leb (ObservationRow.timestamp b) (ObservationRow.timestamp a).

Definition select_observations (hikeId : option Z) (s : Store) : list ObservationRow.t :=
  sort_by by_timestamp_desc
    (filter (fun o => match hikeId with
                      | Some i => (ObservationRow.hikeId o =? i)%Z
                      | None => false
                      end) (observations s)).

(** SELECT * FROM observations WHERE id = ? *)
Definition first_observation (id : Z) (s : Store) : option ObservationRow.t :=
  find (fun o => (ObservationRow.id o =? id)%Z) (observations s).

(** UPDATE observations SET observation = ?, timestamp = ?, comments = ?,
    photoUri = ? WHERE id = ? *)
Definition update_observation (observation : str) (timestamp : number)
    (comments photoUri : option str) (id : Z) (s : Store) : Store :=
  mkStore (hikes s) (hikes_seq s)
    (map (fun o =>
            if (ObservationRow.id o =? id)%Z
            then ObservationRow.mk (ObservationRow.id o) (ObservationRow.hikeId o)
                   observation timestamp comments photoUri
            else o) (observations s))
    (observations_seq s).

(** DELETE FROM observations WHERE id = ? *)
Definition delete_observation (id : Z) (s : Store) : Store :=
  mkStore (hikes s) (hikes_seq s)
    (filter (fun o => negb (ObservationRow.id o =? id)%Z) (observations s))
    (observations_seq s).

End SQL.

(* ================================================================== *)
(** * The process: module state of [database.ts] and the driver *)
(* ================================================================== *)

(** [dbPromise] and [schemaEnsured] are the two module variables of
    [database.ts].  [pending] is what the driver will answer to the
    coming calls: [Some e] for a call that fails with [e] (storage
    full, file locked, ...), [None] for a call that runs; when the list
    is exhausted every call runs. *)
Record World : Type := mkWorld {
  store : Store;
  dbPromise : option (result Connection);
  schemaEnsured : bool;
  pending : list (option thrown)
}.

Definition with_store (s : Store) (w : World) : World :=
  mkWorld s (dbPromise w) (schemaEnsured w) (pending w).
Definition with_dbPromise (p : option (result Connection)) (w : World) : World :=
  mkWorld (store w) p (schemaEnsured w) (pending w).
Definition with_schemaEnsured (b : bool) (w : World) : World :=
  mkWorld (store w) (dbPromise w) b (pending w).
Definition with_pending (l : list (option thrown)) (w : World) : World :=
  mkWorld (store w) (dbPromise w) (schemaEnsured w) l.

(** The process at start-up, on a database file holding [s]. *)
Definition startup (s : Store) (answers : list (option thrown)) : World :=
  mkWorld s None false answers.

(** An asynchronous computation: it ends with a value or a thrown
    failure, and leaves a new state of the process. *)
Definition M (A : Type) : Type := World -> result A * World.

Definition ret {A : Type} (a : A) : M A := fun w => (Ok a, w).
Definition throw {A : Type} (e : thrown) : M A := fun w => (Throw e, w).
Definition bind {A B : Type} (m : M A) (k : A -> M B) : M B :=
  fun w =>
    match m w with
    | (Ok a, w') => k a w'
    | (Throw e, w') => (Throw e, w')
    end.

(** [try { body } catch (error) { handler(error) }] *)
Definition tryCatch {A : Type} (body : M A) (handler : thrown -> M A) : M A :=
  fun w =>
    match body w with
    | (Ok a, w') => (Ok a, w')
    | (Throw e, w') => handler e w'
    end.

Definition lift {A : Type} (r : result A) : M A := fun w => (r, w).

Declare Scope async_scope.
Delimit Scope async_scope with async.
Notation "x <- m ;; k" := (bind m (fun x => k))
  (at level 61, m at next level, right associativity) : async_scope.
Notation "m ;; k" := (bind m (fun _ => k))
  (at level 61, right associativity) : async_scope.
Local Open Scope async_scope.

(** One call to the driver. *)
Definition answered {A : Type} (call : World -> result A * World) : M A :=
  fun w =>
    match pending w with
    | Some e :: rest => (Throw e, with_pending rest w)
    | None :: rest => call (with_pending rest w)
    | [] => call w
    end.

(** [SQLite.openDatabaseAsync(DB_NAME)] *)
Definition openDatabaseAsync : M Connection :=
  answered (fun w => (Ok SQLite_default_connection, w)).

(** [db.runAsync(sql, params)] and [db.execAsync(sql)] for a statement
    that writes; it may violate a constraint. *)
Definition runAsync {A : Type} (stmt : Store -> result (A * Store)) : M A :=
  answered (fun w =>
    match stmt (store w) with
    | Ok (a, s') => (Ok a, with_store s' w)
    | Throw e => (Throw e, w)
    end).

Definition writes (stmt : Store -> Store) : M unit :=
  runAsync (fun s => Ok (tt, stmt s)).

(** [db.getAllAsync(sql, params)] and [db.getFirstAsync(sql, params)] *)
Definition reads {A : Type} (query : Store -> A) : M A :=
  runAsync (fun s => Ok (query s, s)).

(* ================================================================== *)
(** * [lib/database.ts] *)
(* ================================================================== *)

(** The [catch] blocks of this file log the error and throw it again:
    they leave the outcome as it is, and are not written out. *)

(** The four statements are CREATE ... IF NOT EXISTS on the two tables
    and the two indexes; a [Store] always has its two tables, empty in a
    new file, so a statement that runs changes nothing. *)
Definition ensureSchema (db : Connection) : M unit :=
  writes (fun s => s) ;;
  writes (fun s => s) ;;
  writes (fun s => s) ;;
  writes (fun s => s).

Definition openDatabase : M Connection :=
  fun w =>
    let (p, w1) :=
      match dbPromise w with
      | None =>
          let (r, w') := openDatabaseAsync w in
          (r, with_dbPromise (Some r) w')
      | Some r => (r, w)
      end in
    match p with
    | Throw e => (Throw e, w1)
    | Ok db =>
        if schemaEnsured w1 then (Ok db, w1)
        else
          match ensureSchema db w1 with
          | (Ok _, w2) => (Ok db, with_schemaEnsured true w2)
          | (Throw e, w2) => (Throw e, w2)
          end
    end.

Definition initializeDatabase : M unit :=
  openDatabase ;; ret tt.

(** ** Hikes *)

Definition insertHike (hike : Hike.t) : M Z :=
  db <- openDatabase ;;
  runAsync (fun s => Ok
    (SQL.insert_hike
       (Hike.name hike)
       (Hike.location hike)
       (Hike.date hike)
       (bool_to_int (Hike.parkingAvailable hike))
       (Hike.lengthKm hike)
       (Hike.difficulty hike)
       (str_or_null (Hike.description hike))
       (num_or_null (Hike.elevationGainM hike))
       (num_or_null (Hike.rating hike))
       (str_or_null (Hike.photoUri hike))
       (num_or_null (Hike.latitude hike))
       (num_or_null (Hike.longitude hike))
       (flag_to_int (Hike.addedToCalendar hike))
       s)).

(** The object built from a row by every query on [hikes]. *)
Definition hike_of_row (row : HikeRow.t) : Hike.t :=
  Hike.mk
    (Some (HikeRow.id row))
    (HikeRow.name row)
    (HikeRow.location row)
    (HikeRow.date row)
    (HikeRow.parkingAvailable row =? 1)%Z
    (HikeRow.lengthKm row)
    (HikeRow.difficulty row)
    (of_column (HikeRow.description row))
    (of_column (HikeRow.elevationGainM row))
    (of_column (HikeRow.rating row))
    (of_column (HikeRow.photoUri row))
    (of_column (HikeRow.latitude row))
    (of_column (HikeRow.longitude row))
    (Val (HikeRow.addedToCalendar row =? 1)%Z).

Definition getAllHikes : M (list Hike.t) :=
  db <- openDatabase ;;
  result <- reads (SQL.select_hikes (fun _ => true) SQL.by_date_desc_name_asc) ;;
  ret (map hike_of_row result).

Definition getHikeById (id : Z) : M (option Hike.t) :=
  db <- openDatabase ;;
  result <- reads (SQL.first_hike (fun r => (HikeRow.id r =? id)%Z)) ;;
  match result with
  | None => ret None
  | Some row => ret (Some (hike_of_row row))
  end.

(** [!hike.id]: the id is absent or zero. *)
Definition no_id (id : option Z) : bool :=
  match id with
  | None => true
  | Some i => (i =? 0)%Z
  end.

Definition the_id (id : option Z) : Z :=
  match id with Some i => i | None => 0%Z end.

Definition updateHike (hike : Hike.t) : M unit :=
  db <- openDatabase ;;
  if no_id (Hike.id hike)
  then throw (newError "Hike ID is required for update")
  else
    writes (SQL.update_hike
       (Hike.name hike)
       (Hike.location hike)
       (Hike.date hike)
       (bool_to_int (Hike.parkingAvailable hike))
       (Hike.lengthKm hike)
       (Hike.difficulty hike)
       (str_or_null (Hike.description hike))
       (num_or_null (Hike.elevationGainM hike))
       (num_or_null (Hike.rating hike))
       (str_or_null (Hike.photoUri hike))
       (num_or_null (Hike.latitude hike))
       (num_or_null (Hike.longitude hike))
       (flag_to_int (Hike.addedToCalendar hike))
       (the_id (Hike.id hike))).

Definition deleteHike (id : Z) : M unit :=
  db <- openDatabase ;;
  writes (SQL.delete_hike db id).

Definition deleteAllHikes : M unit :=
  db <- openDatabase ;;
  writes (SQL.delete_all_hikes db) ;;
  writes SQL.delete_all_observations.

Definition searchHikes (query : str) : M (list Hike.t) :=
  db <- openDatabase ;;
  result <- runAsync (SQL.search_hikes (37 :: query ++ [37])) ;;
  ret (map hike_of_row result).

(** [if (s)] on an optional string argument. *)
Definition given_str (s : option str) : option str :=
  match s with
  | Some (c :: t) => Some (c :: t)
  | _ => None
  end.

(** The WHERE clause that [advancedSearchHikes] assembles, one conjunct
    per argument that passes its test. *)
Definition advanced_where (name location : option str) (minLen maxLen : option number)
    (date difficulty : option str) (parking : option bool) (r : HikeRow.t) : bool :=
  true
  && match given_str name with
     | Some n => SQL.like_text (37 :: n ++ [37]) (HikeRow.name r)
     | None => true
     end
  && match given_str location with
     | Some l => SQL.like_text (37 :: l ++ [37]) (HikeRow.location r)
     | None => true
     end
  && match minLen with
     | Some m => num_leb m (HikeRow.lengthKm r)
     | None => true
     end
  && match maxLen with
     | Some m => num_leb (HikeRow.lengthKm r) m
     | None => true
     end
  && match given_str date with
     | Some d => str_eqb (HikeRow.date r) d
     | None => true
     end
  && match given_str difficulty with
     | Some d => str_eqb (HikeRow.difficulty r) d
     | None => true
     end
  && match parking with
     | Some p => (HikeRow.parkingAvailable r =? bool_to_int p)%Z
     | None => true
     end.

(** The conjuncts of the WHERE clause are evaluated on a row from left to
    right, and a row that fails one is not tested on the next: a LIKE
    whose pattern is refused fails the statement when a row reaches
    it. *)
Definition advanced_refused (name location : option str) (r : HikeRow.t) : bool :=
  match given_str name with
  | Some n =>
      SQL.too_complex (37 :: n ++ [37])
      || (SQL.like_text (37 :: n ++ [37]) (HikeRow.name r)
          && match given_str location with
             | Some l => SQL.too_complex (37 :: l ++ [37])
             | None => false
             end)
  | None =>
      match given_str location with
      | Some l => SQL.too_complex (37 :: l ++ [37])
      | None => false
      end
  end.

(** The statement that [advancedSearchHikes] assembles: it fails when a
    pattern over the limit is matched on a row. *)
Definition advanced_query (name location : option str)
    (minLen maxLen : option number) (date difficulty : option str)
    (parking : option bool) (s : Store) : result (list HikeRow.t * Store) :=
  if existsb (advanced_refused name location) (hikes s)
  then Throw SQL.like_too_complex
  else Ok (SQL.select_hikes
             (advanced_where name location minLen maxLen date difficulty parking)
             SQL.by_date_desc_name_asc s,
           s).

Definition advancedSearchHikes (name location : option str)
    (minLen maxLen : option number) (date difficulty : option str)
    (parking : option bool) : M (list Hike.t) :=
  db <- openDatabase ;;
  result <- runAsync (advanced_query name location minLen maxLen date difficulty
                        parking) ;;
  ret (map hike_of_row result).

Definition findDuplicateHike (hike : Hike.t) : M (option Hike.t) :=
  db <- openDatabase ;;
  result <- reads (SQL.first_hike (fun r =>
       str_eqb (HikeRow.name r) (Hike.name hike)
    && str_eqb (HikeRow.location r) (Hike.location hike)
    && str_eqb (HikeRow.date r) (Hike.date hike)
    && num_eqb (HikeRow.lengthKm r) (Hike.lengthKm hike)
    && str_eqb (HikeRow.difficulty r) (Hike.difficulty hike)
    && (HikeRow.parkingAvailable r =? bool_to_int (Hike.parkingAvailable hike))%Z)) ;;
  match result with
  | None => ret None
  | Some row => ret (Some (hike_of_row row))
  end.

(** ** Observations *)

Definition insertObservation (observation : Observation.t) : M Z :=
  db <- openDatabase ;;
  runAsync (SQL.insert_observation db
    (Observation.hikeId observation)
    (Observation.observation observation)
    (Observation.timestamp observation)
    (str_or_null (Observation.comments observation))
    (str_or_null (Observation.photoUri observation))).

Definition observation_of_row (row : ObservationRow.t) : Observation.t :=
  Observation.mk
    (Some (ObservationRow.id row))
    (ObservationRow.hikeId row)
    (ObservationRow.observation row)
    (ObservationRow.timestamp row)
    (of_column (ObservationRow.comments row))
    (of_column (ObservationRow.photoUri row)).

(** The argument is [None] when a caller passes the id of a hike that
    has none ([hike.id!] in [exportHikeToJson]). *)
Definition getObservationsByHikeId (hikeId : option Z) : M (list Observation.t) :=
  db <- openDatabase ;;
  result <- reads (SQL.select_observations hikeId) ;;
  ret (map observation_of_row result).

Definition getObservationById (id : Z) : M (option Observation.t) :=
  db <- openDatabase ;;
  result <- reads (SQL.first_observation id) ;;
  match result with
  | None => ret None
  | Some row => ret (Some (observation_of_row row))
  end.

Definition updateObservation (observation : Observation.t) : M unit :=
  db <- openDatabase ;;
  if no_id (Observation.id observation)
  then throw (newError "Observation ID is required for update")
  else
    writes (SQL.update_observation
      (Observation.observation observation)
      (Observation.timestamp observation)
      (str_or_null (Observation.comments observation))
      (str_or_null (Observation.photoUri observation))
      (the_id (Observation.id observation))).

Definition deleteObservation (id : Z) : M unit :=
  db <- openDatabase ;;
  writes (SQL.delete_observation id).

(* ================================================================== *)
(** * [lib/storage.ts]: export, import *)
(* ================================================================== *)

(** ** [exportHikeToJson] *)

(** A property whose value is [undefined] is left out by
    [JSON.stringify]; [null] is written. *)
Definition json_of_opt {A : Type} (f : A -> json) (x : opt A) : option json :=
  match x with
  | Undefined => None
  | Null => Some JNull
  | Val a => Some (f a)
  end.

Fixpoint own_properties (l : list (str * option json)) : list (str * json) :=
  match l with
  | [] => []
  | (k, Some v) :: l' => (k, v) :: own_properties l'
  | (_, None) :: l' => own_properties l'
  end.

Definition json_of_observation (o : ObservationExportFormat.t) : json :=
  JObj (own_properties
    [ (lit "observation", Some (JStr (ObservationExportFormat.observation o)));
      (lit "timestamp", Some (JNum (ObservationExportFormat.timestamp o)));
      (lit "comments", json_of_opt JStr (ObservationExportFormat.comments o)) ]).

(** The object [exportData] as [JSON.stringify] sees it. *)
Definition json_of_export (e : HikeExportFormat.t) : json :=
  JObj (own_properties
    [ (lit "name", Some (JStr (HikeExportFormat.name e)));
      (lit "location", Some (JStr (HikeExportFormat.location e)));
      (lit "date", Some (JStr (HikeExportFormat.date e)));
      (lit "parkingAvailable", Some (JBool (HikeExportFormat.parkingAvailable e)));
      (lit "lengthKm", Some (JNum (HikeExportFormat.lengthKm e)));
      (lit "difficulty", Some (JStr (HikeExportFormat.difficulty e)));
      (lit "description", json_of_opt JStr (HikeExportFormat.description e));
      (lit "elevationGainM", json_of_opt JNum (HikeExportFormat.elevationGainM e));
      (lit "rating", json_of_opt JNum (HikeExportFormat.rating e));
      (lit "latitude", json_of_opt JNum (HikeExportFormat.latitude e));
      (lit "longitude", json_of_opt JNum (HikeExportFormat.longitude e));
      (lit "observations",
        json_of_opt (fun l => JArr (map json_of_observation l))
          (HikeExportFormat.observations e)) ]).

(** [exportData] of [exportHikeToJson]. *)
Definition exportData (hike : Hike.t) (observations : list Observation.t)
    : HikeExportFormat.t :=
  HikeExportFormat.mk
    (Hike.name hike)
    (Hike.location hike)
    (Hike.date hike)
    (Hike.parkingAvailable hike)
    (Hike.lengthKm hike)
    (Hike.difficulty hike)
    (Hike.description hike)
    (Hike.elevationGainM hike)
    (Hike.rating hike)
    (Hike.latitude hike)
    (Hike.longitude hike)
    (Val (map (fun obs =>
                 ObservationExportFormat.mk
                   (Observation.observation obs)
                   (Observation.timestamp obs)
                   (Observation.comments obs))
            observations)).

(** Truthiness of an optional number and of an optional string. *)
Definition truthy_num (x : opt number) : bool :=
  match x with Val n => negb (num_is_zero n) | _ => false end.
Definition truthy_str (x : opt str) : bool :=
  match x with Val (_ :: _) => true | _ => false end.

(** [`${x}`] for an optional property that is known to be truthy. *)
Definition shown_num (x : opt number) : str :=
  match x with Val n => num_to_str n | _ => [] end.
Definition shown_str (x : opt str) : str :=
  match x with Val s => s | _ => [] end.

Definition nl : str := [10].

(** The lines above the JSON object in the exported text. *)
Definition readableHeader (hike : Hike.t) (observations : list Observation.t) : str :=
  lit "=== Hike Export ===" ++ nl ++
  lit "Name: " ++ Hike.name hike ++ nl ++
  lit "Location: " ++ Hike.location hike ++ nl ++
  lit "Date: " ++ Hike.date hike ++ nl ++
  lit "Length: " ++ num_to_str (Hike.lengthKm hike) ++ lit " km" ++ nl ++
  lit "Difficulty: " ++ Hike.difficulty hike ++ nl ++
  lit "Parking: " ++
    (if Hike.parkingAvailable hike then lit "Available" else lit "Unavailable") ++ nl ++
  (if truthy_num (Hike.elevationGainM hike)
   then lit "Elevation Gain: " ++ shown_num (Hike.elevationGainM hike) ++ lit " m" ++ nl
   else []) ++
  (if truthy_num (Hike.rating hike)
   then lit "Rating: " ++ shown_num (Hike.rating hike) ++ lit "/5" ++ nl
   else []) ++
  (if truthy_str (Hike.description hike)
   then lit "Description: " ++ shown_str (Hike.description hike) ++ nl
   else []) ++ nl ++
  (match observations with
   | _ :: _ =>
       lit "Observations: " ++ digits_of_N (N.of_nat (length observations)) ++ nl
   | [] => []
   end) ++ nl ++
  lit "=== JSON Data (for import) ===" ++ nl.

Definition exportHikeToJson (hike : Hike.t) : M str :=
  observations <- getObservationsByHikeId (Hike.id hike) ;;
  ret (readableHeader hike observations ++
       stringify 0 (json_of_export (exportData hike observations))).

Definition getExportedJson (hike : Hike.t) : M str := exportHikeToJson hike.

(** ** [parseImportJson] *)

(** [jsonText.match(/\{[\s\S]*\}/)]: from the first opening brace of the
    text to its last closing brace, when the one comes before the other. *)
Fixpoint from_first_open (s : str) : option str :=
  match s with
  | [] => None
  | c :: t => if c =? 123 then Some t else from_first_open t
  end.

Fixpoint upto_last_close (s : str) : option str :=
  match s with
  | [] => None
  | c :: t =>
      match upto_last_close t with
      | Some p => Some (c :: p)
      | None => if c =? 125 then Some [c] else None
      end
  end.

Definition match_braces (text : str) : option str :=
  match from_first_open text with
  | Some t =>
      match upto_last_close t with
      | Some p => Some (123 :: p)
      | None => None
      end
  | None => None
  end.

Definition missing_fields_message : String.string :=
  "Missing required fields: name, location, date, parkingAvailable, lengthKm, or difficulty"%string.
Definition invalid_json_message : String.string :=
  "Invalid JSON file format. Please select a valid hike export file."%string.
Definition invalid_data_message : String.string :=
  "Invalid hike data format. Please check the file content."%string.

(** The [try] block. *)
Definition parseImportJson_body (jsonText : str) : result json :=
  let jsonString :=
    match match_braces jsonText with
    | Some m => m
    | None => jsonText
    end in
  match JSON_parse jsonString with
  | Throw e => Throw e
  | Ok JNull =>
      (* [data.name] on [null] *)
      Throw (ErrorObj TypeError (lit "Cannot read property 'name' of null"))
  | Ok data =>
      if negb (truthy (get data "name"))
         || negb (truthy (get data "location"))
         || negb (truthy (get data "date"))
         || match get data "parkingAvailable" with None => true | Some _ => false end
         || negb (truthy (get data "lengthKm"))
         || negb (truthy (get data "difficulty"))
      then Throw (newError missing_fields_message)
      else Ok data
  end.

(** The [catch] block. *)
Definition parseImportJson_catch (error : thrown) : thrown :=
  match error with
  | ErrorObj SyntaxError _ => newError invalid_json_message
  | ErrorObj _ message =>
      if includes message (lit "required fields") then error
      else newError invalid_data_message
  | NotAnError => newError invalid_data_message
  end.

Definition parseImportJson (jsonText : str) : result json :=
  match parseImportJson_body jsonText with
  | Ok data => Ok data
  | Throw error => Throw (parseImportJson_catch error)
  end.

(** ** [importHikeFromJson] *)

Module ImportResult.
Record t : Type := mk {
  success : bool;
  message : str;
  hikeId : option Z
}.
End ImportResult.

(** [data as HikeExportFormat] is not checked when the program runs.  The
    reading below is the one the interface declares: a string, a boolean
    or a number where it says so, an optional property absent, [null]
    (which the export writes for an empty column) or of its type. *)
Definition as_str (v : json) : option str :=
  match v with JStr s => Some s | _ => None end.
Definition as_num (v : json) : option number :=
  match v with JNum n => Some n | _ => None end.
Definition as_bool (v : json) : option bool :=
  match v with JBool b => Some b | _ => None end.

Definition required {A : Type} (f : json -> option A) (v : option json) : option A :=
  match v with
  | Some x => f x
  | None => None
  end.

Definition optional {A : Type} (f : json -> option A) (v : option json) : option (opt A) :=
  match v with
  | None => Some Undefined
  | Some JNull => Some Null
  | Some x => match f x with Some a => Some (Val a) | None => None end
  end.

Fixpoint all_some {A : Type} (l : list (option A)) : option (list A) :=
  match l with
  | [] => Some []
  | Some a :: l' => match all_some l' with Some r => Some (a :: r) | None => None end
  | None :: _ => None
  end.

Definition as_observation (v : json) : option ObservationExportFormat.t :=
  match required as_str (get v "observation"),
        required as_num (get v "timestamp"),
        optional as_str (get v "comments") with
  | Some o, Some t, Some c => Some (ObservationExportFormat.mk o t c)
  | _, _, _ => None
  end.

Definition as_observations (v : json) : option (list ObservationExportFormat.t) :=
  match v with
  | JArr l => all_some (map as_observation l)
  | _ => None
  end.

Definition as_HikeExportFormat (data : json) : option HikeExportFormat.t :=
  match required as_str (get data "name"),
        required as_str (get data "location"),
        required as_str (get data "date"),
        required as_bool (get data "parkingAvailable"),
        required as_num (get data "lengthKm"),
        required as_str (get data "difficulty") with
  | Some n, Some l, Some d, Some p, Some k, Some f =>
      match optional as_str (get data "description"),
            optional as_num (get data "elevationGainM"),
            optional as_num (get data "rating"),
            optional as_num (get data "latitude"),
            optional as_num (get data "longitude"),
            optional as_observations (get data "observations") with
      | Some ds, Some el, Some ra, Some la, Some lo, Some ob =>
          Some (HikeExportFormat.mk n l d p k f ds el ra la lo ob)
      | _, _, _, _, _, _ => None
      end
  | _, _, _, _, _, _ => None
  end.

(** The hike checked for a duplicate, and the one inserted
    ([addedToCalendar] is absent in the first, [false] in the second). *)
Definition hike_of_import (importData : HikeExportFormat.t)
    (addedToCalendar : opt bool) : Hike.t :=
  Hike.mk None
    (HikeExportFormat.name importData)
    (HikeExportFormat.location importData)
    (HikeExportFormat.date importData)
    (HikeExportFormat.parkingAvailable importData)
    (HikeExportFormat.lengthKm importData)
    (HikeExportFormat.difficulty importData)
    (HikeExportFormat.description importData)
    (HikeExportFormat.elevationGainM importData)
    (HikeExportFormat.rating importData)
    Undefined
    (HikeExportFormat.latitude importData)
    (HikeExportFormat.longitude importData)
    addedToCalendar.

(** [importData.observations] as the loop sees it: nothing to do when it
    is absent, [null] or empty. *)
Definition observations_of (importData : HikeExportFormat.t)
    : list ObservationExportFormat.t :=
  match HikeExportFormat.observations importData with
  | Val l => l
  | _ => []
  end.

Fixpoint insertObservations (hikeId : Z) (l : list ObservationExportFormat.t) : M unit :=
  match l with
  | [] => ret tt
  | obs :: l' =>
      insertObservation
        (Observation.mk None hikeId
           (ObservationExportFormat.observation obs)
           (ObservationExportFormat.timestamp obs)
           (ObservationExportFormat.comments obs)
           Undefined) ;;
      insertObservations hikeId l'
  end.

Definition duplicate_message : String.string :=
  "Import failed! You already have this hike"%string.

Definition success_message (importData : HikeExportFormat.t) : str :=
  lit "Hike " ++ [34] ++ HikeExportFormat.name importData ++ [34] ++
  lit " imported successfully" ++
  match observations_of importData with
  | [] => []
  | l => lit " with " ++ digits_of_N (N.of_nat (length l)) ++ lit " observation(s)"
  end.

(** The [try] block.  On data of the declared shape it is the lookup,
    the insert of the hike and the inserts of the observations.  Data of
    another shape is not turned down: the cast is unchecked, and the
    same statements go on with values that the interfaces do not
    declare, which reach the driver as parameters of other types.  What
    the driver does with those is not in the repository, so the rest of
    the block on such data is left open: [other_shape] stands for it,
    whatever it does, and the statements below hold for every
    [other_shape]. *)
Definition importHikeFromJson_body (other_shape : json -> M ImportResult.t)
    (jsonText : str) : M ImportResult.t :=
  data <- lift (parseImportJson jsonText) ;;
  match as_HikeExportFormat data with
  | None => other_shape data
  | Some importData =>
      duplicate <- findDuplicateHike (hike_of_import importData Undefined) ;;
      match duplicate with
      | Some _ =>
          ret (ImportResult.mk false (lit duplicate_message) None)
      | None =>
          hikeId <- insertHike (hike_of_import importData (Val false)) ;;
          insertObservations hikeId (observations_of importData) ;;
          ret (ImportResult.mk true (success_message importData) (Some hikeId))
      end
  end.

(** [error instanceof Error ? error.message : 'Failed to import hike'] *)
Definition message_of (error : thrown) : str :=
  match error with
  | ErrorObj _ message => message
  | NotAnError => lit "Failed to import hike"
  end.

Definition importHikeFromJson (other_shape : json -> M ImportResult.t)
    (jsonText : str) : M ImportResult.t :=
  tryCatch (importHikeFromJson_body other_shape jsonText)
    (fun error => ret (ImportResult.mk false (message_of error) None)).

(* ================================================================== *)
(** * Properties of the driver and of [openDatabase] *)
(* ================================================================== *)

(** [same_database w w']: [w'] holds the rows, the connection and the
    schema flag of [w]; the answers still pending may differ. *)
Definition same_database (w w' : World) : Prop :=
  store w' = store w /\ dbPromise w' = dbPromise w /\
  schemaEnsured w' = schemaEnsured w.

Lemma same_database_refl w : same_database w w.
Proof. repeat split. Qed.

Lemma same_database_trans w1 w2 w3 :
  same_database w1 w2 -> same_database w2 w3 -> same_database w1 w3.
Proof.
  intros (A1 & A2 & A3) (B1 & B2 & B3); repeat split; congruence.
Qed.

Lemma same_database_pending l w : same_database w (with_pending l w).
Proof. repeat split. Qed.

Create HintDb hike.
#[local] Hint Resolve same_database_refl same_database_pending : hike.

Lemma answered_inv (A : Type) (call : World -> result A * World) w r w' :
  answered call w = (r, w') ->
  (exists e, r = Throw e /\ same_database w w') \/
  (exists w0, same_database w w0 /\ call w0 = (r, w')).
Proof.
  unfold answered. destruct (pending w) as [|[e|] rest] eqn:E; intros H.
  - right. exists w. auto with hike.
  - left. injection H as <- <-. exists e. auto with hike.
  - right. exists (with_pending rest w). auto with hike.
Qed.

(** A statement that fails leaves the rows as they were; one that runs
    leaves what the statement computes. *)
Lemma runAsync_inv (A : Type) (stmt : Store -> result (A * Store)) w r w' :
  runAsync stmt w = (r, w') ->
  dbPromise w' = dbPromise w /\ schemaEnsured w' = schemaEnsured w /\
  match r with
  | Ok a => stmt (store w) = Ok (a, store w')
  | Throw _ => store w' = store w
  end.
Proof.
  unfold runAsync. intros H. apply answered_inv in H.
  destruct H as [(e & -> & S1 & S2 & S3) | (w0 & (S1 & S2 & S3) & H)]; [auto|].
  rewrite S1 in H. destruct (stmt (store w)) as [[a s']|e] eqn:E;
    injection H as <- <-; cbn; rewrite ?S1, ?S2, ?S3; auto.
Qed.

Lemma writes_inv (stmt : Store -> Store) w r w' :
  writes stmt w = (r, w') ->
  dbPromise w' = dbPromise w /\ schemaEnsured w' = schemaEnsured w /\
  match r with
  | Ok _ => store w' = stmt (store w)
  | Throw _ => store w' = store w
  end.
Proof.
  unfold writes. intros H. apply runAsync_inv in H.
  destruct H as (H1 & H2 & H3). destruct r; [injection H3 as H3|]; auto.
Qed.

Lemma reads_inv (A : Type) (query : Store -> A) w r w' :
  reads query w = (r, w') ->
  same_database w w' /\
  match r with
  | Ok a => a = query (store w)
  | Throw _ => True
  end.
Proof.
  unfold reads. intros H. apply runAsync_inv in H.
  destruct H as (H1 & H2 & H3). destruct r.
  - injection H3 as H3 H4. repeat split; auto.
  - repeat split; auto.
Qed.

Lemma ensureSchema_inv db w r w' :
  ensureSchema db w = (r, w') ->
  store w' = store w /\ dbPromise w' = dbPromise w /\
  schemaEnsured w' = schemaEnsured w.
Proof.
  unfold ensureSchema, bind. intros H.
  repeat match type of H with
  | context [writes ?f ?x] =>
      let E := fresh "E" in
      destruct (writes f x) as [[[]|?] ?] eqn:E; apply writes_inv in E;
      destruct E as (? & ? & ?)
  end; injection H as <- <-; repeat split; congruence.
Qed.

(** The connection of the process, when it has one, is as SQLite opens
    it: nothing in [database.ts] changes a setting of it. *)
Definition connection_as_opened (w : World) : Prop :=
  forall db, dbPromise w = Some (Ok db) -> db = SQLite_default_connection.

Lemma openDatabase_inv w r w' :
  openDatabase w = (r, w') ->
  store w' = store w /\
  (connection_as_opened w -> connection_as_opened w') /\
  match r with
  | Ok db => dbPromise w' = Some (Ok db)
  | Throw _ => True
  end.
Proof.
  unfold openDatabase, connection_as_opened.
  destruct (dbPromise w) as [p|] eqn:P.
  - destruct p as [db|e].
    + destruct (schemaEnsured w).
      * intros H; injection H as <- <-. rewrite P. auto.
      * destruct (ensureSchema db w) as [[[]|e] w2] eqn:E;
          apply ensureSchema_inv in E; destruct E as (E1 & E2 & E3);
          intros H; injection H as <- <-; cbn; rewrite ?E1, ?E2, ?P; auto.
    + intros H; injection H as <- <-. rewrite P. auto.
  - destruct (openDatabaseAsync w) as [r0 w0] eqn:O.
    assert (S0 : store w0 = store w /\
                 (forall db, r0 = Ok db -> db = SQLite_default_connection)).
    { unfold openDatabaseAsync in O. apply answered_inv in O.
      destruct O as [(e & -> & S1 & _) | (w1 & (S1 & _) & H)].
      - split; [auto | discriminate].
      - injection H as <- <-. split; [auto | congruence]. }
    destruct S0 as (S0 & D0). destruct r0 as [db|e]; cbn.
    + destruct (schemaEnsured w0).
      * intros H; injection H as <- <-. cbn. repeat split; auto.
        intros _ db' [= <-]. auto.
      * destruct (ensureSchema db (with_dbPromise (Some (Ok db)) w0))
          as [[[]|e] w2] eqn:E;
          apply ensureSchema_inv in E; destruct E as (E1 & E2 & E3);
          intros H; injection H as <- <-; cbn in *; rewrite ?E1, ?E2;
          repeat split; auto; intros _ db' [= <-]; auto.
    + intros H; injection H as <- <-. cbn. repeat split; auto.
      intros _ db' [=].
Qed.

(** The shape of every function of [database.ts] that issues one
    statement: open, then run. *)
Lemma opened_run_inv (A : Type) (stmt : Connection -> Store -> result (A * Store))
    w r w' :
  (db <- openDatabase ;; runAsync (stmt db)) w = (r, w') ->
  (connection_as_opened w -> connection_as_opened w') /\
  match r with
  | Ok a => exists db, dbPromise w' = Some (Ok db) /\
                       stmt db (store w) = Ok (a, store w')
  | Throw _ => store w' = store w
  end.
Proof.
  unfold bind. destruct (openDatabase w) as [[db|e] w1] eqn:O;
    apply openDatabase_inv in O; destruct O as (O1 & O2 & O3).
  - intros H. apply runAsync_inv in H. destruct H as (H1 & H2 & H3).
    split.
    + intros C. apply O2 in C. unfold connection_as_opened in *.
      rewrite H1. exact C.
    + destruct r.
      * exists db. rewrite H1, <- O1. auto.
      * congruence.
  - intros H; injection H as <- <-. auto.
Qed.

(** ** When every call is answered *)

(** No failure is pending and the connection was not refused. *)
Definition ready (w : World) : bool :=
  match pending w, dbPromise w with
  | [], None | [], Some (Ok _) => true
  | _, _ => false
  end.

Lemma openDatabase_ready w :
  ready w = true ->
  exists db w', openDatabase w = (Ok db, w') /\ ready w' = true /\
                store w' = store w.
Proof.
  destruct w as [s [[db|e]|] [|] [|a l]]; cbn; try discriminate; intros _;
    eexists _, _; (split; [reflexivity | split; reflexivity]).
Qed.

Lemma runAsync_ready (A : Type) (stmt : Store -> result (A * Store)) w a s' :
  ready w = true -> stmt (store w) = Ok (a, s') ->
  runAsync stmt w = (Ok a, with_store s' w) /\ ready (with_store s' w) = true.
Proof.
  unfold ready, runAsync, answered.
  destruct (pending w) eqn:P; [|discriminate].
  intros R E. rewrite E. cbn. rewrite P. auto.
Qed.

Lemma bind_inv (A B : Type) (m : M A) (k : A -> M B) w r w' :
  bind m k w = (r, w') ->
  (exists a w1, m w = (Ok a, w1) /\ k a w1 = (r, w')) \/
  (exists e, m w = (Throw e, w') /\ r = Throw e).
Proof.
  unfold bind. destruct (m w) as [[a|e] w1]; intros H.
  - left. eauto.
  - right. injection H as <- <-. eauto.
Qed.

Lemma bind_ok_inv (A B : Type) (m : M A) (k : A -> M B) w b w' :
  bind m k w = (Ok b, w') ->
  exists a w1, m w = (Ok a, w1) /\ k a w1 = (Ok b, w').
Proof.
  intros H. apply bind_inv in H. destruct H as [H | (e & _ & H)];
    [exact H | discriminate].
Qed.

(** A function that opens the database and then reads: what it returns
    is read from the rows as they are, and nothing is written. *)
Lemma opened_read_inv (A B : Type) (query : Store -> A) (k : A -> B) w r w' :
  (db <- openDatabase ;; result <- reads query ;; ret (k result)) w = (r, w') ->
  store w' = store w /\
  (connection_as_opened w -> connection_as_opened w') /\
  match r with
  | Ok b => b = k (query (store w))
  | Throw _ => True
  end.
Proof.
  intros H. apply bind_inv in H.
  destruct H as [(db & w1 & O & H) | (e & O & ->)];
    apply openDatabase_inv in O; destruct O as (O1 & O2 & O3); [|auto].
  apply bind_inv in H.
  destruct H as [(a & w2 & R & H) | (e & R & ->)];
    apply reads_inv in R; destruct R as ((R1 & R2 & R3) & R4).
  - injection H as <- <-. subst a. rewrite R1, O1. repeat split; auto.
    intros C. apply O2 in C. unfold connection_as_opened in *. rewrite R2. auto.
  - rewrite R1, O1. repeat split; auto.
    intros C. apply O2 in C. unfold connection_as_opened in *. rewrite R2. auto.
Qed.

Lemma opened_read_ready (A B : Type) (query : Store -> A) (k : A -> B) w :
  ready w = true ->
  exists w', (db <- openDatabase ;; result <- reads query ;; ret (k result)) w
             = (Ok (k (query (store w))), w') /\
             ready w' = true /\ store w' = store w.
Proof.
  intros R. destruct (openDatabase_ready w R) as (db & w1 & O & R1 & S1).
  unfold bind. rewrite O.
  destruct (runAsync_ready (fun s => Ok (query s, s)) w1 R1 eq_refl) as (E & R2).
  unfold reads. rewrite E. unfold ret. rewrite <- S1.
  eexists. split; [reflexivity|]. split; [exact R2|]. reflexivity.
Qed.

Lemma opened_run_ready (A : Type) (stmt : Connection -> Store -> result (A * Store)) w :
  ready w = true ->
  exists db w1, openDatabase w = (Ok db, w1) /\ store w1 = store w /\
    forall a s', stmt db (store w) = Ok (a, s') ->
      (db <- openDatabase ;; runAsync (stmt db)) w = (Ok a, with_store s' w1) /\
      ready (with_store s' w1) = true.
Proof.
  intros R. destruct (openDatabase_ready w R) as (db & w1 & O & R1 & S1).
  exists db, w1. split; [exact O|]. split; [exact S1|].
  intros a s' H. rewrite <- S1 in H. unfold bind. rewrite O.
  apply (runAsync_ready (stmt db) w1 R1 H).
Qed.

(** [if (!result) return null; return {...}] after a read. *)
Lemma opened_first_eq (A B : Type) (query : Store -> option A) (k : A -> B) w :
  (db <- openDatabase ;;
   result <- reads query ;;
   match result with
   | None => ret None
   | Some row => ret (Some (k row))
   end) w =
  (db <- openDatabase ;; result <- reads query ;; ret (option_map k result)) w.
Proof.
  unfold bind. destruct (openDatabase w) as [[db|e] w1]; [|reflexivity].
  destruct (reads query w1) as [[[a|]|e] w2]; reflexivity.
Qed.

(* ================================================================== *)
(** * Lists, texts and numbers: auxiliary facts *)
(* ================================================================== *)

Lemma str_eqb_eq (a b : str) : str_eqb a b = true <-> a = b.
Proof.
  revert b. induction a as [|x a IH]; intros [|y b]; cbn;
    try (split; [discriminate | discriminate]); [tauto|].
  rewrite andb_true_iff, N.eqb_eq, IH. split.
  - intros [-> ->]; reflexivity.
  - intros [= -> ->]; auto.
Qed.

Lemma str_eqb_refl (a : str) : str_eqb a a = true.
Proof. apply str_eqb_eq. reflexivity. Qed.

Lemma num_eqb_eq (a b : number) : num_eqb a b = true <-> num_compare a b = Eq.
Proof.
  unfold num_eqb. destruct (num_compare a b); split; congruence.
Qed.

Lemma bool_to_int_is (z : Z) (b : bool) :
  (z =? bool_to_int b)%Z = true -> (z =? 1)%Z = b.
Proof.
  destruct b; cbn; intros H; apply Z.eqb_eq in H; subst; reflexivity.
Qed.

Lemma bool_to_int_eqb (a b : bool) :
  (bool_to_int a =? bool_to_int b)%Z = true <-> a = b.
Proof. destruct a, b; cbn; split; congruence. Qed.

Lemma Forall2_map_r (A B : Type) (R : A -> B -> Prop) (f : A -> B) (l : list A) :
  (forall x, R x (f x)) -> Forall2 R l (map f l).
Proof. intros H. induction l; cbn; constructor; auto. Qed.

Lemma Forall2_same (A : Type) (R : A -> A -> Prop) (l : list A) :
  (forall x, R x x) -> Forall2 R l l.
Proof. intros H. induction l; constructor; auto. Qed.

Lemma max_rowid_ge (R : Type) (rowid : R -> Z) (rows : list R) (r : R) :
  In r rows -> (rowid r <= max_rowid rowid rows)%Z.
Proof.
  induction rows as [|x rows IH]; [intros []|].
  change (max_rowid rowid (x :: rows))
    with (Z.max (rowid x) (max_rowid rowid rows)).
  intros [-> | H]; [lia | specialize (IH H); lia].
Qed.

(** The rowid given to a new row is carried by no row of the table. *)
Lemma next_rowid_fresh (R : Type) (rowid : R -> Z) (rows : list R) (seq : Z) (r : R) :
  In r rows -> (rowid r =? next_rowid rowid rows seq)%Z = false.
Proof.
  intros H. apply (max_rowid_ge rowid) in H. unfold next_rowid.
  apply Z.eqb_neq. lia.
Qed.

Lemma find_app_fresh (R : Type) (p : R -> bool) (rows : list R) (x : R) :
  (forall r, In r rows -> p r = false) -> p x = true ->
  find p (rows ++ [x]) = Some x.
Proof.
  intros H Hx. induction rows as [|y rows IH]; cbn.
  - rewrite Hx. reflexivity.
  - rewrite (H y (or_introl eq_refl)). apply IH. intros r Hr. apply H. now right.
Qed.

Lemma find_map_inv (R : Type) (p : R -> bool) (f : R -> R) (rows : list R) (y : R) :
  find p (map f rows) = Some y ->
  exists x, In x rows /\ y = f x /\ p (f x) = true.
Proof.
  intros H. apply find_some in H. destruct H as (H1 & H2).
  apply in_map_iff in H1. destruct H1 as (x & <- & Hx). eauto.
Qed.

Lemma find_map_through (R : Type) (p : R -> bool) (f : R -> R) (rows : list R) :
  (forall x, p (f x) = p x) ->
  find p (map f rows) = option_map f (find p rows).
Proof.
  intros H. induction rows as [|x rows IH]; [reflexivity|]. cbn.
  rewrite H. destruct (p x); [reflexivity | exact IH].
Qed.

Lemma find_present (R : Type) (p : R -> bool) (rows : list R) (x : R) :
  In x rows -> p x = true -> exists y, find p rows = Some y /\ p y = true.
Proof.
  intros H P. destruct (find p rows) as [y|] eqn:F.
  - exists y. split; [reflexivity|]. apply (find_some _ _ F).
  - rewrite (find_none p rows F x H) in P. discriminate.
Qed.

(* ================================================================== *)
(** * Writing and reading back a hike *)
(* ================================================================== *)

(** The row [insertHike] and [updateHike] write for a hike. *)
Definition row_of_hike (rowid : Z) (hike : Hike.t) : HikeRow.t :=
  HikeRow.mk rowid
    (Hike.name hike) (Hike.location hike) (Hike.date hike)
    (bool_to_int (Hike.parkingAvailable hike))
    (Hike.lengthKm hike) (Hike.difficulty hike)
    (str_or_null (Hike.description hike))
    (num_or_null (Hike.elevationGainM hike))
    (num_or_null (Hike.rating hike))
    (str_or_null (Hike.photoUri hike))
    (num_or_null (Hike.latitude hike))
    (num_or_null (Hike.longitude hike))
    (flag_to_int (Hike.addedToCalendar hike)).

Lemma insertHike_inv hike w id w' :
  insertHike hike w = (Ok id, w') ->
  id = next_rowid HikeRow.id (hikes (store w)) (hikes_seq (store w)) /\
  hikes (store w') = hikes (store w) ++ [row_of_hike id hike] /\
  observations (store w') = observations (store w) /\
  (connection_as_opened w -> connection_as_opened w').
Proof.
  unfold insertHike. intros H. apply opened_run_inv in H.
  destruct H as (C & db & _ & H). unfold SQL.insert_hike in H.
  injection H as H1 H2. rewrite <- H2. cbn. rewrite <- H1. auto.
Qed.

Lemma insertHike_throw hike w e w' :
  insertHike hike w = (Throw e, w') -> store w' = store w.
Proof.
  unfold insertHike. intros H. apply opened_run_inv in H. tauto.
Qed.

Lemma insertHike_ready hike w :
  ready w = true ->
  exists id w', insertHike hike w = (Ok id, w') /\ ready w' = true.
Proof.
  intros R. unfold insertHike.
  destruct (opened_run_ready
              (fun (_ : Connection) s => Ok
                 (SQL.insert_hike (Hike.name hike) (Hike.location hike)
                    (Hike.date hike) (bool_to_int (Hike.parkingAvailable hike))
                    (Hike.lengthKm hike) (Hike.difficulty hike)
                    (str_or_null (Hike.description hike))
                    (num_or_null (Hike.elevationGainM hike))
                    (num_or_null (Hike.rating hike))
                    (str_or_null (Hike.photoUri hike))
                    (num_or_null (Hike.latitude hike))
                    (num_or_null (Hike.longitude hike))
                    (flag_to_int (Hike.addedToCalendar hike)) s)) w R)
    as (db & w1 & O & S1 & H).
  destruct (SQL.insert_hike (Hike.name hike) (Hike.location hike)
                    (Hike.date hike) (bool_to_int (Hike.parkingAvailable hike))
                    (Hike.lengthKm hike) (Hike.difficulty hike)
                    (str_or_null (Hike.description hike))
                    (num_or_null (Hike.elevationGainM hike))
                    (num_or_null (Hike.rating hike))
                    (str_or_null (Hike.photoUri hike))
                    (num_or_null (Hike.latitude hike))
                    (num_or_null (Hike.longitude hike))
                    (flag_to_int (Hike.addedToCalendar hike)) (store w))
    as [id s'] eqn:E.
  destruct (H id s' eq_refl) as (H1 & H2). eauto.
Qed.

Lemma getHikeById_inv id w r w' :
  getHikeById id w = (Ok r, w') ->
  r = option_map hike_of_row
        (find (fun row => (HikeRow.id row =? id)%Z) (hikes (store w))) /\
  store w' = store w.
Proof.
  unfold getHikeById. rewrite opened_first_eq. intros H.
  apply opened_read_inv in H. tauto.
Qed.

Lemma getHikeById_ready id w :
  ready w = true ->
  exists r w', getHikeById id w = (Ok r, w') /\ ready w' = true.
Proof.
  intros R. unfold getHikeById. rewrite opened_first_eq.
  destruct (opened_read_ready
              (SQL.first_hike (fun r => (HikeRow.id r =? id)%Z))
              (option_map hike_of_row) w R) as (w' & H & R' & _).
  eauto.
Qed.

Lemma getHikeById_after_insert hike w id w1 r w2 :
  insertHike hike w = (Ok id, w1) ->
  getHikeById id w1 = (Ok r, w2) ->
  r = Some (hike_of_row (row_of_hike id hike)).
Proof.
  intros I G. apply insertHike_inv in I. destruct I as (I1 & I2 & _).
  apply getHikeById_inv in G. destruct G as (-> & _).
  rewrite I2, find_app_fresh; [reflexivity | | cbn; apply Z.eqb_refl].
  intros row Hr. rewrite I1. apply next_rowid_fresh. exact Hr.
Qed.

Lemma updateHike_inv hike w w' :
  updateHike hike w = (Ok tt, w') ->
  no_id (Hike.id hike) = false /\
  hikes (store w') =
    map (fun r => if (HikeRow.id r =? the_id (Hike.id hike))%Z
                  then row_of_hike (HikeRow.id r) hike else r)
      (hikes (store w)) /\
  observations (store w') = observations (store w).
Proof.
  unfold updateHike. intros H. apply bind_ok_inv in H.
  destruct H as (db & w1 & O & H). apply openDatabase_inv in O.
  destruct O as (O1 & _). destruct (no_id (Hike.id hike)); [discriminate|].
  apply writes_inv in H. destruct H as (_ & _ & ->). rewrite O1. auto.
Qed.

Lemma updateHike_ready hike w :
  ready w = true ->
  no_id (Hike.id hike) = false ->
  exists w', updateHike hike w = (Ok tt, w') /\ ready w' = true.
Proof.
  intros R N. destruct (openDatabase_ready w R) as (db & w1 & O & R1 & _).
  unfold updateHike, bind. rewrite O, N. unfold writes.
  match goal with
  | |- exists w', runAsync ?stmt w1 = _ /\ _ =>
      destruct (@runAsync_ready unit stmt w1 tt _ R1 eq_refl) as (E & R2)
  end.
  eexists. split; [exact E | exact R2].
Qed.

(** An optional number that is zero, an optional text that is empty. *)
Definition is_zero (x : opt number) : Prop :=
  exists n, x = Val n /\ num_is_zero n = true.
Definition is_empty (x : opt str) : Prop := x = Val [].

(** The optional fields of [read] are [null] wherever [written] has a
    zero or an empty text. *)
Definition falsy_fields_null (written read : Hike.t) : Prop :=
  (is_empty (Hike.description written) -> Hike.description read = Null) /\
  (is_zero (Hike.elevationGainM written) -> Hike.elevationGainM read = Null) /\
  (is_zero (Hike.rating written) -> Hike.rating read = Null) /\
  (is_zero (Hike.latitude written) -> Hike.latitude read = Null) /\
  (is_zero (Hike.longitude written) -> Hike.longitude read = Null).

Lemma num_or_null_zero (x : opt number) :
  is_zero x -> of_column (num_or_null x) = Null.
Proof. intros (n & -> & Z). cbn. rewrite Z. reflexivity. Qed.

Lemma str_or_null_empty (x : opt str) :
  is_empty x -> of_column (str_or_null x) = Null.
Proof. intros ->. reflexivity. Qed.

Lemma row_of_hike_falsy rowid hike :
  falsy_fields_null hike (hike_of_row (row_of_hike rowid hike)).
Proof.
  unfold falsy_fields_null; cbn.
  repeat split; auto using num_or_null_zero, str_or_null_empty.
Qed.

(** C9: a hike whose rating, elevation gain, latitude or longitude is 0,
    or whose description is the empty text, is read back by
    [getHikeById] with that field [null], after [insertHike] and after
    [updateHike] alike.  On a driver that answers, the insert returns
    and the hike is read back so; and the update of a hike that is
    stored returns and the hike is read back so. *)
Theorem zero_and_empty_are_read_back_null (hike : Hike.t) (w : World) :
  (forall id w1 r w2,
      insertHike hike w = (Ok id, w1) ->
      getHikeById id w1 = (Ok r, w2) ->
      exists h, r = Some h /\ falsy_fields_null hike h) /\
  (forall w1 h w2,
      updateHike hike w = (Ok tt, w1) ->
      getHikeById (the_id (Hike.id hike)) w1 = (Ok (Some h), w2) ->
      falsy_fields_null hike h) /\
  (ready w = true ->
   exists id w1 h w2,
     insertHike hike w = (Ok id, w1) /\
     getHikeById id w1 = (Ok (Some h), w2) /\
     falsy_fields_null hike h) /\
  (ready w = true ->
   no_id (Hike.id hike) = false ->
   (exists row, In row (hikes (store w)) /\
                HikeRow.id row = the_id (Hike.id hike)) ->
   exists w1 h w2,
     updateHike hike w = (Ok tt, w1) /\
     getHikeById (the_id (Hike.id hike)) w1 = (Ok (Some h), w2) /\
     falsy_fields_null hike h).
Proof.
  assert (After_update : forall w1 h w2,
             updateHike hike w = (Ok tt, w1) ->
             getHikeById (the_id (Hike.id hike)) w1 = (Ok (Some h), w2) ->
             falsy_fields_null hike h).
  { intros w1 h w2 U G.
    apply updateHike_inv in U. destruct U as (_ & U & _).
    apply getHikeById_inv in G. destruct G as (G & _).
    rewrite U in G.
    destruct (find _ (map _ _)) as [row|] eqn:F; [|discriminate].
    injection G as ->.
    apply find_map_inv in F. destruct F as (x & _ & -> & P).
    destruct (HikeRow.id x =? the_id (Hike.id hike))%Z eqn:E.
    + apply row_of_hike_falsy.
    + rewrite E in P. discriminate. }
  split; [|split; [exact After_update|split]].
  - intros id w1 r w2 I G.
    rewrite (getHikeById_after_insert _ _ I G).
    eexists. split; [reflexivity | apply row_of_hike_falsy].
  - intros R.
    destruct (insertHike_ready hike w R) as (id & w1 & I & R1).
    destruct (getHikeById_ready id w1 R1) as (r & w2 & G & _).
    rewrite (getHikeById_after_insert _ _ I G) in G.
    exists id, w1, (hike_of_row (row_of_hike id hike)), w2.
    split; [exact I|]. split; [exact G | apply row_of_hike_falsy].
  - intros R N (row & In_row & Id_row).
    destruct (updateHike_ready hike w R N) as (w1 & U & R1).
    destruct (getHikeById_ready (the_id (Hike.id hike)) w1 R1) as (r & w2 & G & _).
    pose proof U as Rows. apply updateHike_inv in Rows.
    destruct Rows as (_ & Rows & _).
    pose proof G as Er. apply getHikeById_inv in Er. destruct Er as (Er & _).
    rewrite Rows, find_map_through in Er.
    + destruct (find_present (fun r0 => (HikeRow.id r0 =? the_id (Hike.id hike))%Z)
                  (hikes (store w)) row In_row) as (y & F & _).
      { apply Z.eqb_eq. exact Id_row. }
      rewrite F in Er. cbn [option_map] in Er. subst r.
      eexists w1, _, w2. split; [exact U|]. split; [exact G|].
      exact (After_update _ _ _ U G).
    + intros x. cbn beta.
      destruct (HikeRow.id x =? the_id (Hike.id hike))%Z eqn:E;
        [cbn; exact E | exact E].
Qed.

(** A hike with a zero in each optional number and an empty description,
    and one with a value in each of them. *)
Definition hike_with_zeros : Hike.t :=
  Hike.mk None (lit "Snowdon") (lit "Llanberis, UK") (lit "2025-07-10") true
    (Num 145 1) (lit "Hard")
    (Val []) (Val (Num 0 0)) (Val (Num 0 1)) Undefined (Val (Num 0 0)) (Val (Num 0 0))
    Undefined.

Definition hike_with_values : Hike.t :=
  Hike.mk None (lit "Snowdon") (lit "Llanberis, UK") (lit "2025-07-10") true
    (Num 145 1) (lit "Hard")
    (Val (lit "Challenging mountain hike")) (Val (Num 980 0)) (Val (Num 45 1))
    Undefined (Val (Num 53068 3)) (Val (Num (-4076) 3)) Undefined.

(** The hike with zeros, sent as an update of the hike 1. *)
Definition zeros_for_hike_1 : Hike.t :=
  Hike.mk (Some 1%Z) (lit "Snowdon") (lit "Llanberis, UK") (lit "2025-07-10") true
    (Num 145 1) (lit "Hard")
    (Val []) (Val (Num 0 0)) (Val (Num 0 1)) Undefined (Val (Num 0 0)) (Val (Num 0 0))
    Undefined.

Definition all_five_null (h : Hike.t) : Prop :=
  Hike.description h = Null /\ Hike.elevationGainM h = Null /\
  Hike.rating h = Null /\ Hike.latitude h = Null /\ Hike.longitude h = Null.

Lemma falsy_fields_of_zeros (written h : Hike.t) :
  Hike.description written = Val [] ->
  Hike.elevationGainM written = Val (Num 0 0) ->
  Hike.rating written = Val (Num 0 1) ->
  Hike.latitude written = Val (Num 0 0) ->
  Hike.longitude written = Val (Num 0 0) ->
  falsy_fields_null written h -> all_five_null h.
Proof.
  intros D E R La Lo (Hd & He & Hr & Hla & Hlo). unfold all_five_null.
  split; [apply Hd; exact D|].
  split; [apply He; eexists; split; [exact E | reflexivity]|].
  split; [apply Hr; eexists; split; [exact R | reflexivity]|].
  split; [apply Hla; eexists; split; [exact La | reflexivity]|].
  apply Hlo; eexists; split; [exact Lo | reflexivity].
Qed.

(** The insert of the hike with zeros into an empty database, and the
    update with zeros of a hike that was saved with values: each is read
    back with the five fields [null]. *)
Lemma zero_and_empty_are_read_back_null_witness :
  (exists id w1 h w2,
     insertHike hike_with_zeros (startup empty_store []) = (Ok id, w1) /\
     getHikeById id w1 = (Ok (Some h), w2) /\
     all_five_null h) /\
  (exists h0,
     fst (getHikeById 1 (snd (insertHike hike_with_values (startup empty_store []))))
     = Ok (Some h0) /\
     Hike.rating h0 = Val (Num 45 1)) /\
  (exists w1 h w2,
     updateHike zeros_for_hike_1
       (snd (insertHike hike_with_values (startup empty_store []))) = (Ok tt, w1) /\
     getHikeById 1 w1 = (Ok (Some h), w2) /\
     all_five_null h).
Proof.
  split; [|split].
  - destruct (zero_and_empty_are_read_back_null hike_with_zeros
                (startup empty_store [])) as (_ & _ & H & _).
    destruct (H eq_refl) as (id & w1 & h & w2 & I & G & F).
    exists id, w1, h, w2. split; [exact I|]. split; [exact G|].
    apply falsy_fields_of_zeros with (written := hike_with_zeros);
      try reflexivity. exact F.
  - eexists. split; reflexivity.
  - destruct (zero_and_empty_are_read_back_null zeros_for_hike_1
                (snd (insertHike hike_with_values (startup empty_store []))))
      as (_ & _ & _ & H).
    destruct (H eq_refl eq_refl) as (w1 & h & w2 & U & G & F).
    { eexists. split; [left; reflexivity | reflexivity]. }
    exists w1, h, w2. split; [exact U|]. split; [exact G|].
    apply falsy_fields_of_zeros with (written := zeros_for_hike_1);
      try reflexivity. exact F.
Defined.

(* ================================================================== *)
(** * Updating an observation *)
(* ================================================================== *)

(** What [updateObservation] may do to one row: the id and the parent
    hike stay; a row of another id stays whole. *)
Definition observation_update_frame (target : Z) (old new : ObservationRow.t) : Prop :=
  ObservationRow.id new = ObservationRow.id old /\
  ObservationRow.hikeId new = ObservationRow.hikeId old /\
  (ObservationRow.id old <> target -> new = old).

Lemma update_observation_frame observation timestamp comments photoUri id s :
  Forall2 (observation_update_frame id)
    (observations s)
    (observations (SQL.update_observation observation timestamp comments photoUri id s)).
Proof.
  cbn. apply Forall2_map_r. intros o. unfold observation_update_frame.
  destruct (ObservationRow.id o =? id)%Z eqn:E; cbn; repeat split; auto.
  intros N. apply Z.eqb_eq in E. contradiction.
Qed.

(** C10: [updateObservation] leaves the id and the hikeId of every
    stored observation as they were, whatever hikeId the record it is
    given carries; rows of another id and the hikes are untouched, and
    the row of that id gets the four columns of the record. *)
Theorem updateObservation_keeps_id_and_hikeId
    (observation : Observation.t) (w : World) :
  let target := the_id (Observation.id observation) in
  let w' := snd (updateObservation observation w) in
  hikes (store w') = hikes (store w) /\
  Forall2 (observation_update_frame target)
    (observations (store w)) (observations (store w')) /\
  (fst (updateObservation observation w) = Ok tt ->
   forall row, In row (observations (store w')) ->
     ObservationRow.id row = target ->
     ObservationRow.observation row = Observation.observation observation /\
     ObservationRow.timestamp row = Observation.timestamp observation /\
     ObservationRow.comments row = str_or_null (Observation.comments observation) /\
     ObservationRow.photoUri row = str_or_null (Observation.photoUri observation)).
Proof.
  cbv zeta.
  assert (Same : forall t l, Forall2 (observation_update_frame t) l l).
  { intros t l. apply Forall2_same. intros o. repeat split. }
  destruct (updateObservation observation w) as [r w'] eqn:U. cbn [fst snd].
  unfold updateObservation in U. apply bind_inv in U.
  destruct U as [(db & w1 & O & U) | (e & O & ->)];
    apply openDatabase_inv in O; destruct O as (O1 & _).
  - destruct (no_id (Observation.id observation)).
    + injection U as <- <-. rewrite O1.
      split; [reflexivity | split; [apply Same | discriminate]].
    + apply writes_inv in U. destruct U as (_ & _ & U). destruct r as [[]|e].
      * rewrite U, O1. split; [reflexivity|]. split.
        { apply update_observation_frame. }
        intros _ row In_row Id_row. cbn in In_row.
        apply in_map_iff in In_row. destruct In_row as (o & <- & _).
        destruct (ObservationRow.id o =? the_id (Observation.id observation))%Z eqn:E.
        { cbn. auto. }
        { apply Z.eqb_neq in E. contradiction. }
      * rewrite U, O1.
        split; [reflexivity | split; [apply Same | discriminate]].
  - rewrite O1. split; [reflexivity | split; [apply Same | discriminate]].
Qed.

(* ================================================================== *)
(** * Deleting a hike *)
(* ================================================================== *)

(** On a connection that enforces foreign keys the DELETE takes the
    observations of the hike with it ... *)
Lemma delete_hike_cascades c id s :
  foreign_keys c = true ->
  forall o, In o (observations (SQL.delete_hike c id s)) ->
            ObservationRow.hikeId o <> id.
Proof.
  intros F o. unfold SQL.delete_hike. cbn. rewrite F.
  rewrite filter_In. intros (_ & H). apply negb_true_iff, Z.eqb_neq in H. exact H.
Qed.

(** ... and on a connection as [openDatabase] has it, the DELETE leaves
    the observations where they are. *)
Lemma deleteHike_keeps_observations id w r w' :
  connection_as_opened w ->
  deleteHike id w = (r, w') ->
  observations (store w') = observations (store w).
Proof.
  unfold deleteHike. intros C H. apply bind_inv in H.
  destruct H as [(db & w1 & O & H) | (e & O & ->)];
    apply openDatabase_inv in O; destruct O as (O1 & O2 & O3).
  - apply writes_inv in H. destruct H as (_ & _ & H).
    rewrite (O2 C db O3) in H. destruct r; rewrite H, ?O1; reflexivity.
  - rewrite O1. reflexivity.
Qed.

(** Had the connection been set to enforce foreign keys, [deleteHike]
    would leave no observation of the hike. *)
Lemma deleteHike_cascades_when_enforced id w w' :
  dbPromise w = Some (Ok (mkConnection true)) ->
  deleteHike id w = (Ok tt, w') ->
  forall o, In o (observations (store w')) -> ObservationRow.hikeId o <> id.
Proof.
  unfold deleteHike. intros P H. apply bind_ok_inv in H.
  destruct H as (db & w1 & O & H).
  assert (Db : db = mkConnection true).
  { unfold openDatabase in O. rewrite P in O.
    destruct (schemaEnsured w); [congruence|].
    destruct (ensureSchema (mkConnection true) w) as [[[]|e] w2]; congruence. }
  apply openDatabase_inv in O. destruct O as (O1 & _).
  apply writes_inv in H. destruct H as (_ & _ & ->). subst db. rewrite O1.
  apply delete_hike_cascades. reflexivity.
Qed.

Definition snowdon : Hike.t :=
  Hike.mk None (lit "Snowdon") (lit "Llanberis, UK") (lit "2025-07-10") true
    (Num 145 1) (lit "Hard")
    Undefined Undefined Undefined Undefined Undefined Undefined Undefined.

Definition summit_view (hikeId : Z) : Observation.t :=
  Observation.mk None hikeId (lit "Beautiful views at summit")
    (Num 1752135600000 0) (Val (lit "Weather was perfect")) Undefined.

(** The application started on an empty database file, one hike saved
    and one observation attached to it. *)
Definition snowdon_with_observation : World :=
  let w := startup empty_store [] in
  let w := snd (insertHike snowdon w) in
  snd (insertObservation (summit_view 1) w).

(** An update of observation 1 with another text and another parent:
    the text is rewritten, the parent stays hike 1. *)
Lemma updateObservation_keeps_id_and_hikeId_witness :
  let record := Observation.mk (Some 1%Z) 99 (lit "Cloud on the ridge")
                  (Num 1752139200000 0) Null Undefined in
  let w' := snd (updateObservation record snowdon_with_observation) in
  fst (updateObservation record snowdon_with_observation) = Ok tt /\
  map ObservationRow.hikeId (observations (store w')) = [1%Z] /\
  map ObservationRow.observation (observations (store w')) = [lit "Cloud on the ridge"] /\
  Forall2 (observation_update_frame 1)
    (observations (store snowdon_with_observation)) (observations (store w')).
Proof.
  cbv zeta. split; [vm_compute; reflexivity|].
  split; [vm_compute; reflexivity|]. split; [vm_compute; reflexivity|].
  apply (updateObservation_keeps_id_and_hikeId
           (Observation.mk (Some 1%Z) 99 (lit "Cloud on the ridge")
              (Num 1752139200000 0) Null Undefined) snowdon_with_observation).
Defined.

(** C1, on the code: after [deleteHike 1] the observation of hike 1 is
    still in its table, and [getObservationsByHikeId 1] returns it. *)
Theorem deleteHike_leaves_the_observations :
  let w := snd (deleteHike 1 snowdon_with_observation) in
  fst (deleteHike 1 snowdon_with_observation) = Ok tt /\
  hikes (store w) = [] /\
  fst (getObservationsByHikeId (Some 1%Z) w)
  = Ok [Observation.mk (Some 1%Z) 1 (lit "Beautiful views at summit")
          (Num 1752135600000 0) (Val (lit "Weather was perfect")) Null].
Proof. vm_compute. repeat split. Qed.

(* ================================================================== *)
(** * Looking for a duplicate *)
(* ================================================================== *)

(** The natural key of the specification: name, location, date, length,
    difficulty and parking, texts compared unit by unit and the length by
    value. *)
Definition natural_key_agree (a b : Hike.t) : Prop :=
  Hike.name a = Hike.name b /\
  Hike.location a = Hike.location b /\
  Hike.date a = Hike.date b /\
  num_compare (Hike.lengthKm a) (Hike.lengthKm b) = Eq /\
  Hike.difficulty a = Hike.difficulty b /\
  Hike.parkingAvailable a = Hike.parkingAvailable b.

(** The WHERE clause of [findDuplicateHike]. *)
Definition duplicate_where (hike : Hike.t) (r : HikeRow.t) : bool :=
     str_eqb (HikeRow.name r) (Hike.name hike)
  && str_eqb (HikeRow.location r) (Hike.location hike)
  && str_eqb (HikeRow.date r) (Hike.date hike)
  && num_eqb (HikeRow.lengthKm r) (Hike.lengthKm hike)
  && str_eqb (HikeRow.difficulty r) (Hike.difficulty hike)
  && (HikeRow.parkingAvailable r =? bool_to_int (Hike.parkingAvailable hike))%Z.

Lemma duplicate_where_agree hike row :
  duplicate_where hike row = true -> natural_key_agree (hike_of_row row) hike.
Proof.
  unfold duplicate_where, natural_key_agree. rewrite !andb_true_iff.
  rewrite !str_eqb_eq, num_eqb_eq. cbn.
  intros (((((A & B) & C) & D) & E) & F). apply bool_to_int_is in F.
  repeat split; assumption.
Qed.

Lemma duplicate_where_row_of_hike h1 h2 rowid :
  duplicate_where h1 (row_of_hike rowid h2) = true <-> natural_key_agree h2 h1.
Proof.
  unfold duplicate_where, natural_key_agree. cbn. rewrite !andb_true_iff.
  rewrite !str_eqb_eq, num_eqb_eq, bool_to_int_eqb. tauto.
Qed.

Lemma num_compare_sym (a b : number) : num_compare a b = Eq -> num_compare b a = Eq.
Proof.
  unfold num_compare. rewrite !Z.compare_eq_iff. auto.
Qed.

Lemma natural_key_agree_sym a b : natural_key_agree a b -> natural_key_agree b a.
Proof.
  unfold natural_key_agree. intros (A & B & C & D & E & F).
  apply num_compare_sym in D. repeat split; auto.
Qed.

Lemma findDuplicateHike_inv hike w r w' :
  findDuplicateHike hike w = (Ok r, w') ->
  r = option_map hike_of_row (find (duplicate_where hike) (hikes (store w))) /\
  store w' = store w.
Proof.
  unfold findDuplicateHike. rewrite opened_first_eq. intros H.
  apply opened_read_inv in H. tauto.
Qed.

Lemma findDuplicateHike_throw hike w e w' :
  findDuplicateHike hike w = (Throw e, w') -> store w' = store w.
Proof.
  unfold findDuplicateHike. rewrite opened_first_eq. intros H.
  apply opened_read_inv in H. tauto.
Qed.

Lemma findDuplicateHike_ready hike w :
  ready w = true ->
  exists r w', findDuplicateHike hike w = (Ok r, w') /\ ready w' = true.
Proof.
  intros R. unfold findDuplicateHike. rewrite opened_first_eq.
  destruct (opened_read_ready
              (SQL.first_hike (fun r =>
                   str_eqb (HikeRow.name r) (Hike.name hike)
                && str_eqb (HikeRow.location r) (Hike.location hike)
                && str_eqb (HikeRow.date r) (Hike.date hike)
                && num_eqb (HikeRow.lengthKm r) (Hike.lengthKm hike)
                && str_eqb (HikeRow.difficulty r) (Hike.difficulty hike)
                && (HikeRow.parkingAvailable r =?
                    bool_to_int (Hike.parkingAvailable hike))%Z))
              (option_map hike_of_row) w R) as (w' & H & R' & _).
  eauto.
Qed.

(** C3: [findDuplicateHike h1] reports a hike only if that hike is
    stored and has the six fields of the natural key of [h1], and it
    reports nothing exactly when no stored hike has them.  So with [h2]
    saved it reports a stored hike whenever [h1] and [h2] agree on the
    six fields, whatever their other fields, and that hike is [h2] when
    nothing else is stored; and when they differ in one of the six it
    reports nothing, unless a hike that was stored before has the key
    of [h1], which is then the one it reports.  On a driver that
    answers, both calls return. *)
Theorem findDuplicateHike_natural_key (h1 h2 : Hike.t) (w : World) :
  (forall id w1 r w2,
      insertHike h2 w = (Ok id, w1) ->
      findDuplicateHike h1 w1 = (Ok r, w2) ->
      (forall d, r = Some d ->
                 In d (map hike_of_row (hikes (store w1))) /\
                 natural_key_agree d h1) /\
      (natural_key_agree h1 h2 -> exists d, r = Some d) /\
      (hikes (store w) = [] -> natural_key_agree h1 h2 ->
       r = Some (hike_of_row (row_of_hike id h2))) /\
      (~ natural_key_agree h1 h2 ->
       (forall d, In d (map hike_of_row (hikes (store w))) ->
                  ~ natural_key_agree d h1) ->
       r = None) /\
      (~ natural_key_agree h1 h2 ->
       forall d, r = Some d ->
                 In d (map hike_of_row (hikes (store w))) /\
                 natural_key_agree d h1)) /\
  (ready w = true ->
   exists id w1 r w2,
     insertHike h2 w = (Ok id, w1) /\ findDuplicateHike h1 w1 = (Ok r, w2)).
Proof.
  split.
  - intros id w1 r w2 I F.
    apply insertHike_inv in I. destruct I as (_ & I & _).
    apply findDuplicateHike_inv in F. destruct F as (-> & _). rewrite I.
    assert (Reported : forall d,
               option_map hike_of_row
                 (find (duplicate_where h1) (hikes (store w) ++ [row_of_hike id h2]))
               = Some d ->
               exists row,
                 In row (hikes (store w) ++ [row_of_hike id h2]) /\
                 d = hike_of_row row /\ duplicate_where h1 row = true).
    { intros d E.
      destruct (find (duplicate_where h1) (hikes (store w) ++ [row_of_hike id h2]))
        as [row|] eqn:F; [|discriminate].
      injection E as <-. apply find_some in F. destruct F as (F1 & F2). eauto. }
    split; [|split; [|split; [|split]]].
    + intros d E. destruct (Reported d E) as (row & In_row & -> & D).
      split; [apply in_map; exact In_row | apply duplicate_where_agree; exact D].
    + intros A.
      destruct (find_present (duplicate_where h1)
                  (hikes (store w) ++ [row_of_hike id h2]) (row_of_hike id h2))
        as (y & F & _).
      * apply in_or_app. right. left. reflexivity.
      * apply (duplicate_where_row_of_hike h1 h2 id), natural_key_agree_sym, A.
      * rewrite F. eexists. reflexivity.
    + intros -> A. cbn.
      apply natural_key_agree_sym, (duplicate_where_row_of_hike h1 h2 id) in A.
      rewrite A. reflexivity.
    + intros N Others.
      destruct (option_map hike_of_row
                  (find (duplicate_where h1) (hikes (store w) ++ [row_of_hike id h2])))
        as [d|] eqn:E; [|reflexivity].
      exfalso. destruct (Reported d eq_refl) as (row & In_row & -> & D).
      apply in_app_or in In_row. destruct In_row as [In_row | [<- | []]].
      * apply (Others (hike_of_row row)); [apply in_map; exact In_row|].
        apply duplicate_where_agree. exact D.
      * apply N, natural_key_agree_sym.
        apply (duplicate_where_row_of_hike h1 h2 id). exact D.
    + intros N d E. destruct (Reported d E) as (row & In_row & -> & D).
      apply in_app_or in In_row. destruct In_row as [In_row | [<- | []]].
      * split; [apply in_map; exact In_row | apply duplicate_where_agree; exact D].
      * exfalso. apply N, natural_key_agree_sym.
        apply (duplicate_where_row_of_hike h1 h2 id). exact D.
  - intros R.
    destruct (insertHike_ready h2 w R) as (id & w1 & I & R1).
    destruct (findDuplicateHike_ready h1 w1 R1) as (r & w2 & F & _).
    exists id, w1, r, w2. split; assumption.
Qed.

(** The same trip, told differently in every field outside the key. *)
Definition snowdon_again : Hike.t :=
  Hike.mk None (lit "Snowdon") (lit "Llanberis, UK") (lit "2025-07-10") true
    (Num 1450 2) (lit "Hard")
    (Val (lit "Challenging mountain hike")) (Val (Num 980 0)) (Val (Num 45 1))
    (Val (lit "file:///photo_1.jpg")) (Val (Num 53068 3)) (Val (Num (-4076) 3))
    (Val true).

(** The same trip on the day after: the date differs. *)
Definition snowdon_next_day : Hike.t :=
  Hike.mk None (lit "Snowdon") (lit "Llanberis, UK") (lit "2025-07-11") true
    (Num 145 1) (lit "Hard")
    Undefined Undefined Undefined Undefined Undefined Undefined Undefined.

(** Another hike, saved before them. *)
Definition tryfan : Hike.t :=
  Hike.mk None (lit "Tryfan") (lit "Ogwen, UK") (lit "2025-06-01") false
    (Num 5 0) (lit "Hard")
    Undefined Undefined Undefined Undefined Undefined Undefined Undefined.

(** With Tryfan stored and Snowdon saved after it: the other telling of
    Snowdon is reported as the hike 2, and Snowdon on the next day is
    not reported. *)
Lemma findDuplicateHike_natural_key_witness :
  let w := snd (insertHike tryfan (startup empty_store [])) in
  let w1 := snd (insertHike snowdon w) in
  (exists d, fst (findDuplicateHike snowdon_again w1) = Ok (Some d) /\
             Hike.id d = Some 2%Z /\ natural_key_agree d snowdon_again) /\
  fst (findDuplicateHike snowdon_next_day w1) = Ok None.
Proof.
  cbv zeta.
  set (w := snd (insertHike tryfan (startup empty_store []))).
  set (w1 := snd (insertHike snowdon w)).
  split.
  - destruct (findDuplicateHike_natural_key snowdon_again snowdon w) as (H & _).
    destruct (findDuplicateHike snowdon_again w1) as [[r|e] w2] eqn:F;
      [|vm_compute in F; discriminate].
    destruct (H 2%Z w1 r w2 eq_refl F) as (Agree & Found & _).
    destruct Found as (d & ->); [repeat split|].
    exists d. split; [reflexivity|]. split; [|apply (Agree d eq_refl)].
    vm_compute in F. injection F as <- _. reflexivity.
  - destruct (findDuplicateHike_natural_key snowdon_next_day snowdon w) as (H & _).
    destruct (findDuplicateHike snowdon_next_day w1) as [[r|e] w2] eqn:F;
      [|vm_compute in F; discriminate].
    destruct (H 2%Z w1 r w2 eq_refl F) as (_ & _ & _ & None_found & _).
    cbn [fst]. f_equal. apply None_found.
    + intros (_ & _ & D & _). vm_compute in D. discriminate.
    + intros d In_d (N & _). vm_compute in In_d.
      destruct In_d as [<- | []]. vm_compute in N. discriminate.
Defined.

(* ================================================================== *)
(** * Importing *)
(* ================================================================== *)

(** What [importHikeFromJson] returns for a failure. *)
Definition failed (error : thrown) : ImportResult.t :=
  ImportResult.mk false (message_of error) None.

(** The [try] block, step by step. *)
Lemma importHikeFromJson_body_eq other_shape jsonText w :
  importHikeFromJson_body other_shape jsonText w =
  match parseImportJson jsonText with
  | Throw e => (Throw e, w)
  | Ok data =>
      match as_HikeExportFormat data with
      | None => other_shape data w
      | Some importData =>
          match findDuplicateHike (hike_of_import importData Undefined) w with
          | (Throw e, w1) => (Throw e, w1)
          | (Ok (Some _), w1) =>
              (Ok (ImportResult.mk false (lit duplicate_message) None), w1)
          | (Ok None, w1) =>
              match insertHike (hike_of_import importData (Val false)) w1 with
              | (Throw e, w2) => (Throw e, w2)
              | (Ok hikeId, w2) =>
                  match insertObservations hikeId (observations_of importData) w2 with
                  | (Throw e, w3) => (Throw e, w3)
                  | (Ok _, w3) =>
                      (Ok (ImportResult.mk true (success_message importData)
                             (Some hikeId)), w3)
                  end
              end
          end
      end
  end.
Proof.
  unfold importHikeFromJson_body, bind, lift.
  destruct (parseImportJson jsonText) as [data|e]; [|reflexivity].
  destruct (as_HikeExportFormat data) as [importData|]; [|reflexivity].
  cbn. destruct (findDuplicateHike _ w) as [[[d|]|e] w1]; reflexivity.
Qed.

Lemma importHikeFromJson_eq other_shape jsonText w :
  importHikeFromJson other_shape jsonText w =
  match importHikeFromJson_body other_shape jsonText w with
  | (Ok res, w') => (Ok res, w')
  | (Throw e, w') => (Ok (failed e), w')
  end.
Proof. reflexivity. Qed.

(** A driver that turns down a parameter of a type it was not given a
    column for: one of the things [other_shape] may be. *)
Definition refuses_other_shapes (data : json) : M ImportResult.t :=
  throw (ErrorObj TypeError (lit "unsupported bind parameter")).

(** C4: when the hike decoded from the text has the natural key of a
    hike that is stored, [importHikeFromJson] returns [success = false]
    and the two tables are as they were; the message is the one for a
    duplicate when the driver answers. *)
Theorem import_of_a_duplicate_changes_nothing
    (other_shape : json -> M ImportResult.t)
    (jsonText : str) (w : World) (data : json) (importData : HikeExportFormat.t)
    (rowid : Z) (stored : Hike.t) :
  parseImportJson jsonText = Ok data ->
  as_HikeExportFormat data = Some importData ->
  In (row_of_hike rowid stored) (hikes (store w)) ->
  natural_key_agree stored (hike_of_import importData Undefined) ->
  exists res w',
    importHikeFromJson other_shape jsonText w = (Ok res, w') /\
    ImportResult.success res = false /\
    ImportResult.hikeId res = None /\
    store w' = store w /\
    (ready w = true -> ImportResult.message res = lit duplicate_message).
Proof.
  intros P T In_row A.
  rewrite importHikeFromJson_eq, importHikeFromJson_body_eq, P, T.
  destruct (findDuplicateHike (hike_of_import importData Undefined) w)
    as [[r|e] w1] eqn:F.
  - pose proof (findDuplicateHike_inv _ _ F) as (-> & S).
    destruct (find _ _) as [row|] eqn:E.
    + cbn. eexists _, _. split; [reflexivity|]. cbn. auto.
    + exfalso. apply (find_none _ _ E) in In_row.
      apply (duplicate_where_row_of_hike _ stored rowid) in A. congruence.
  - eexists _, _. split; [reflexivity|]. cbn.
    split; [reflexivity|]. split; [reflexivity|].
    split; [apply (findDuplicateHike_throw _ _ F)|].
    intros R. destruct (findDuplicateHike_ready
                          (hike_of_import importData Undefined) w R)
      as (r & w2 & F' & _). congruence.
Qed.

Definition snowdon_text : str :=
  qlit "=== JSON Data (for import) ===
{ 'name': 'Snowdon', 'location': 'Llanberis, UK', 'date': '2025-07-10',
  'parkingAvailable': true, 'lengthKm': 14.5, 'difficulty': 'Hard',
  'description': 'Challenging mountain hike', 'elevationGainM': 980,
  'rating': 4.5,
  'observations': [ { 'observation': 'Beautiful views at summit',
                      'timestamp': 1752135600000,
                      'comments': 'Weather was perfect' } ] }".

Definition snowdon_import : HikeExportFormat.t :=
  HikeExportFormat.mk (lit "Snowdon") (lit "Llanberis, UK") (lit "2025-07-10")
    true (Num 145 1) (lit "Hard")
    (Val (lit "Challenging mountain hike")) (Val (Num 980 0)) (Val (Num 45 1))
    Undefined Undefined
    (Val [ObservationExportFormat.mk (lit "Beautiful views at summit")
            (Num 1752135600000 0) (Val (lit "Weather was perfect"))]).

Lemma import_of_a_duplicate_changes_nothing_witness :
  exists res w',
    importHikeFromJson refuses_other_shapes snowdon_text snowdon_with_observation
    = (Ok res, w') /\
    ImportResult.success res = false /\
    ImportResult.hikeId res = None /\
    store w' = store snowdon_with_observation /\
    (ready snowdon_with_observation = true ->
     ImportResult.message res = lit duplicate_message).
Proof.
  apply (@import_of_a_duplicate_changes_nothing refuses_other_shapes snowdon_text
           snowdon_with_observation
           (match parseImportJson snowdon_text with Ok d => d | Throw _ => JNull end)
           snowdon_import 1%Z snowdon).
  - vm_compute. reflexivity.
  - vm_compute. reflexivity.
  - vm_compute. left. reflexivity.
  - vm_compute. repeat split.
Defined.

(** A result that reports the failure [e]: no success, no id, and the
    message of [e] when [e] is an [Error], the fixed text otherwise. *)
Definition reports_failure (e : thrown) (res : ImportResult.t) : Prop :=
  ImportResult.success res = false /\
  ImportResult.hikeId res = None /\
  match e with
  | ErrorObj _ message => ImportResult.message res = message
  | NotAnError => ImportResult.message res = lit "Failed to import hike"
  end.

Lemma failed_reports (e : thrown) : reports_failure e (failed e).
Proof. destruct e; repeat split. Qed.

(** C7: [importHikeFromJson] returns a result for every text and every
    state, whatever the shape of the data.  When the parser throws,
    when the duplicate lookup throws, when the insert of the hike
    throws or when the insert of an observation throws, the result is
    [success = false] with the message that the thrown error carries;
    and so it is for whatever is thrown while data of another shape
    than the declared one is handled. *)
Theorem importHikeFromJson_never_throws
    (other_shape : json -> M ImportResult.t) (jsonText : str) (w : World) :
  exists res w',
    importHikeFromJson other_shape jsonText w = (Ok res, w') /\
    (forall e, parseImportJson jsonText = Throw e ->
               reports_failure e res /\ w' = w) /\
    (forall data,
        parseImportJson jsonText = Ok data ->
        as_HikeExportFormat data = None ->
        (forall e w1, other_shape data w = (Throw e, w1) ->
                      reports_failure e res /\ w' = w1) /\
        (forall r w1, other_shape data w = (Ok r, w1) -> res = r /\ w' = w1)) /\
    (forall data importData,
        parseImportJson jsonText = Ok data ->
        as_HikeExportFormat data = Some importData ->
        let candidate := hike_of_import importData Undefined in
        let hike := hike_of_import importData (Val false) in
        (forall e w1,
            findDuplicateHike candidate w = (Throw e, w1) ->
            reports_failure e res /\ w' = w1) /\
        (forall w1 e w2,
            findDuplicateHike candidate w = (Ok None, w1) ->
            insertHike hike w1 = (Throw e, w2) ->
            reports_failure e res /\ w' = w2) /\
        (forall w1 hikeId w2 e w3,
            findDuplicateHike candidate w = (Ok None, w1) ->
            insertHike hike w1 = (Ok hikeId, w2) ->
            insertObservations hikeId (observations_of importData) w2 = (Throw e, w3) ->
            reports_failure e res /\ w' = w3)).
Proof.
  rewrite importHikeFromJson_eq.
  destruct (importHikeFromJson_body other_shape jsonText w) as [[res|e0] w0] eqn:B;
    rewrite importHikeFromJson_body_eq in B;
    eexists _, _; (split; [reflexivity|]); (split; [|split]).
  all: try (intros e P; rewrite P in B; injection B as <- <-;
            split; [apply failed_reports | reflexivity]).
  all: try (intros e P; rewrite P in B; discriminate).
  all: try (intros data P T; rewrite P, T in B; split;
            [ intros e w1 O; rewrite O in B;
              first [discriminate
                    | injection B as <- <-; split; [apply failed_reports | reflexivity]]
            | intros r w1 O; rewrite O in B;
              first [discriminate | injection B as <- <-; split; reflexivity] ]).
  all: intros data importData P T; cbv zeta; rewrite P, T in B;
    split; [|split].
  all: try (intros e w1 F; rewrite F in B).
  all: try (intros w1 e w2 F I; rewrite F, I in B).
  all: try (intros w1 hikeId w2 e w3 F I O; rewrite F, I, O in B).
  all: first [discriminate
             | injection B as <- <-; split; [apply failed_reports | reflexivity]].
Qed.

Definition storage_full : thrown :=
  ErrorObj PlainError (lit "database or disk is full").

(** The driver opens the file, runs the schema and the lookup, and fails
    on the insert of the hike: the result carries the message of the
    driver's error. *)
Lemma importHikeFromJson_never_throws_witness :
  exists res,
    fst (importHikeFromJson refuses_other_shapes snowdon_text
           (startup empty_store
              [None; None; None; None; None; None; Some storage_full]))
    = Ok res /\
    ImportResult.success res = false /\
    ImportResult.message res = lit "database or disk is full".
Proof.
  destruct (importHikeFromJson_never_throws refuses_other_shapes snowdon_text
              (startup empty_store
                 [None; None; None; None; None; None; Some storage_full]))
    as (res & w' & E & _ & _ & H).
  exists res. rewrite E. split; [reflexivity|].
  destruct (H (match parseImportJson snowdon_text with Ok d => d | Throw _ => JNull end)
              snowdon_import) as (_ & I & _).
  - vm_compute. reflexivity.
  - vm_compute. reflexivity.
  - destruct (I (snd (findDuplicateHike (hike_of_import snowdon_import Undefined)
                        (startup empty_store
                           [None; None; None; None; None; None; Some storage_full])))
                storage_full
                (snd (insertHike (hike_of_import snowdon_import (Val false))
                        (snd (findDuplicateHike
                                (hike_of_import snowdon_import Undefined)
                                (startup empty_store
                                   [None; None; None; None; None; None;
                                    Some storage_full]))))))
      as ((S & _ & M) & _).
    + vm_compute. reflexivity.
    + vm_compute. reflexivity.
    + split; [exact S | exact M].
Defined.

(* ================================================================== *)
(** * [JSON.parse] terminates *)
(* ================================================================== *)

Local Open Scope nat_scope.

Lemma skip_ws_length s : length (skip_ws s) <= length s.
Proof.
  induction s as [|c s IH]; cbn; [lia|]. destruct (is_ws c); cbn; lia.
Qed.

Lemma expect_length c s r : expect c s = Some r -> length r < length s.
Proof.
  destruct s as [|x s]; cbn; [discriminate|].
  destruct (x =? c)%N; [|discriminate]. intros [= <-]. lia.
Qed.

Lemma strip_prefix_length p s r : strip_prefix p s = Some r -> length r <= length s.
Proof.
  unfold strip_prefix. destruct (starts_with p s); [|discriminate].
  intros [= <-]. rewrite length_skipn. lia.
Qed.

Lemma span_digits_length s :
  length (fst (span_digits s)) + length (snd (span_digits s)) = length s.
Proof.
  induction s as [|c s IH]; cbn; [reflexivity|].
  destruct (is_digit c); cbn; [|reflexivity].
  destruct (span_digits s) as [ds r]. cbn in *. lia.
Qed.

Lemma parse_string_body_length s x r :
  parse_string_body s = Some (x, r) -> length r < length s.
Proof.
  assert (Cons : forall c o x r, cons_fst c o = Some (x, r) ->
                                 exists x', o = Some (x', r)).
  { intros c [[x' r']|] x0 r0; cbn; [|discriminate]. intros [= <- <-]. eauto. }
  remember (length s) as n eqn:L. revert s x r L.
  induction n as [n IH] using lt_wf_ind. intros s x r -> H.
  destruct s as [|c t]; cbn in H; [discriminate|].
  destruct (c =? 34)%N.
  { injection H as <- <-. cbn. lia. }
  destruct (c =? 92)%N.
  - destruct t as [|e t']; [discriminate|].
    destruct (e =? 117)%N.
    + destruct t' as [|h1 [|h2 [|h3 [|h4 t'']]]]; try discriminate.
      destruct (unhex4 h1 h2 h3 h4); [|discriminate].
      apply Cons in H. destruct H as (x' & H).
      apply (IH (length t'')) in H; cbn; lia.
    + destruct (unescape e); [|discriminate].
      apply Cons in H. destruct H as (x' & H).
      apply (IH (length t')) in H; cbn; lia.
  - destruct (c <? 32)%N; [discriminate|].
    apply Cons in H. destruct H as (x' & H).
    apply (IH (length t)) in H; cbn; lia.
Qed.

Lemma parse_number_length s n r :
  parse_number s = Some (n, r) -> length r < length s.
Proof.
  unfold parse_number.
  assert (Sign : length (snd (parse_sign s)) <= length s).
  { destruct s as [|c t]; cbn; [lia|]. destruct (c =? 45)%N; cbn; lia. }
  destruct (parse_sign s) as [neg s1]. cbn in Sign.
  assert (Int : forall ip s2, parse_int_part s1 = Some (ip, s2) ->
                              length s2 < length s1).
  { intros ip s2. destruct s1 as [|c t]; cbn; [discriminate|].
    destruct (c =? 48)%N; [intros [= <- <-]; lia|].
    destruct (is_digit c) eqn:D; [|discriminate].
    pose proof (span_digits_length t) as L.
    destruct (span_digits t) as [ds r']. cbn in L. intros [= <- <-]. lia. }
  destruct (parse_int_part s1) as [[ip s2]|]; [|discriminate].
  specialize (Int ip s2 eq_refl).
  assert (Frac : forall fp s3, parse_frac_part s2 = Some (fp, s3) ->
                               length s3 <= length s2).
  { intros fp s3. destruct s2 as [|c t]; cbn; [intros [= <- <-]; cbn; lia|].
    destruct (c =? 46)%N; [|intros [= <- <-]; cbn; lia].
    pose proof (span_digits_length t) as L.
    destruct (span_digits t) as [[|d ds] r']; [discriminate|].
    cbn in L. intros [= <- <-]. lia. }
  destruct (parse_frac_part s2) as [[fp s3]|]; [|discriminate].
  specialize (Frac fp s3 eq_refl).
  assert (Digits : forall b t e s4, parse_exp_digits b t = Some (e, s4) ->
                                    length s4 <= length t).
  { intros b t e s4. unfold parse_exp_digits.
    pose proof (span_digits_length t) as L.
    destruct (span_digits t) as [[|d ds] r']; [discriminate|].
    cbn in L. intros [= <- <-]. lia. }
  assert (Exp : forall e s4, parse_exp_part s3 = Some (e, s4) ->
                             length s4 <= length s3).
  { intros e s4. destruct s3 as [|c t]; cbn; [intros [= <- <-]; cbn; lia|].
    destruct ((c =? 101) || (c =? 69))%N; [|intros [= <- <-]; cbn; lia].
    destruct t as [|d t']; [discriminate|].
    destruct (d =? 43)%N; [intros H; apply Digits in H; cbn; lia|].
    destruct (d =? 45)%N; intros H; apply Digits in H; cbn in *; lia. }
  destruct (parse_exp_part s3) as [[e s4]|]; [|discriminate].
  specialize (Exp e s4 eq_refl). intros [= <- <-]. lia.
Qed.

Ltac break_match_in H :=
  match type of H with
  | context [match ?x with _ => _ end] => destruct x eqn:?
  end.

(** Whatever is parsed takes at least one character. *)
Lemma parse_consumes fuel :
  (forall s v r, parse_value fuel s = Parsed v r -> length r < length s) /\
  (forall s l r, parse_elements fuel s = Parsed l r -> length r < length s) /\
  (forall s l r, parse_members fuel s = Parsed l r -> length r < length s).
Proof.
  induction fuel as [|f (IHv & IHe & IHm)];
    [repeat split; intros; discriminate|].
  split; [|split].
  - intros s v r H. cbn [parse_value] in H.
    pose proof (skip_ws_length s) as W.
    destruct (skip_ws s) as [|c t]; [discriminate|]. cbn [length] in W.
    repeat break_match_in H; try discriminate; injection H as <- <-;
      repeat match goal with
      | E : expect _ _ = Some _ |- _ => apply expect_length in E
      | E : parse_members f _ = Parsed _ _ |- _ => apply IHm in E
      | E : parse_elements f _ = Parsed _ _ |- _ => apply IHe in E
      | E : parse_string_body _ = Some _ |- _ => apply parse_string_body_length in E
      | E : strip_prefix _ _ = Some _ |- _ => apply strip_prefix_length in E
      | E : parse_number _ = Some _ |- _ => apply parse_number_length in E
      end;
      try (pose proof (skip_ws_length t)); cbn [length] in *; lia.
  - intros s l r H. cbn [parse_elements] in H.
    destruct (parse_value f s) as [v r0| |] eqn:V; try discriminate.
    apply IHv in V. pose proof (skip_ws_length r0) as W.
    destruct (skip_ws r0) as [|c r']; [discriminate|]. cbn [length] in W.
    repeat break_match_in H; try discriminate; injection H as <- <-;
      repeat match goal with
      | E : parse_elements f _ = Parsed _ _ |- _ => apply IHe in E
      end; lia.
  - intros s l r H. cbn [parse_members] in H.
    pose proof (skip_ws_length s) as W.
    destruct (expect 34%N (skip_ws s)) as [t|] eqn:Q; [|discriminate].
    apply expect_length in Q.
    destruct (parse_string_body t) as [[k r0]|] eqn:K; [|discriminate].
    apply parse_string_body_length in K.
    pose proof (skip_ws_length r0) as W0.
    destruct (expect 58%N (skip_ws r0)) as [r1|] eqn:C; [|discriminate].
    apply expect_length in C.
    destruct (parse_value f r1) as [v r2| |] eqn:V; try discriminate.
    apply IHv in V. pose proof (skip_ws_length r2) as W2.
    destruct (skip_ws r2) as [|c r3]; [discriminate|]. cbn [length] in W2.
    repeat break_match_in H; try discriminate; injection H as <- <-;
      repeat match goal with
      | E : parse_members f _ = Parsed _ _ |- _ => apply IHm in E
      end; lia.
Qed.

(** The bound that [JSON_parse] gives to the recursion is enough. *)
Lemma parse_fuel_enough fuel :
  (forall s, 2 * length s + 1 <= fuel -> parse_value fuel s <> OutOfFuel) /\
  (forall s, 2 * length s + 2 <= fuel -> parse_elements fuel s <> OutOfFuel) /\
  (forall s, 2 * length s + 2 <= fuel -> parse_members fuel s <> OutOfFuel).
Proof.
  induction fuel as [|f (IHv & IHe & IHm)];
    [repeat split; intros; lia|].
  destruct (parse_consumes f) as (Cv & Ce & Cm).
  split; [|split].
  - intros s B H. cbn [parse_value] in H.
    pose proof (skip_ws_length s) as W.
    destruct (skip_ws s) as [|c t]; [discriminate|]. cbn [length] in W.
    repeat break_match_in H; try discriminate;
      match goal with
      | E : parse_members f _ = OutOfFuel |- _ => apply IHm in E; [exact E | lia]
      | E : parse_elements f _ = OutOfFuel |- _ => apply IHe in E; [exact E | lia]
      end.
  - intros s B H. cbn [parse_elements] in H.
    destruct (parse_value f s) as [v r0| |] eqn:V; try discriminate.
    + apply Cv in V. pose proof (skip_ws_length r0) as W.
      destruct (skip_ws r0) as [|c r']; [discriminate|]. cbn [length] in W.
      repeat break_match_in H; try discriminate;
        match goal with
        | E : parse_elements f _ = OutOfFuel |- _ => apply IHe in E; [exact E | lia]
        end.
    + apply IHv in V; [exact V | lia].
  - intros s B H. cbn [parse_members] in H.
    pose proof (skip_ws_length s) as W.
    destruct (expect 34%N (skip_ws s)) as [t|] eqn:Q; [|discriminate].
    apply expect_length in Q.
    destruct (parse_string_body t) as [[k r0]|] eqn:K; [|discriminate].
    apply parse_string_body_length in K.
    pose proof (skip_ws_length r0) as W0.
    destruct (expect 58%N (skip_ws r0)) as [r1|] eqn:C; [|discriminate].
    apply expect_length in C.
    destruct (parse_value f r1) as [v r2| |] eqn:V; try discriminate.
    + apply Cv in V. pose proof (skip_ws_length r2) as W2.
      destruct (skip_ws r2) as [|c r3]; [discriminate|]. cbn [length] in W2.
      repeat break_match_in H; try discriminate;
        match goal with
        | E : parse_members f _ = OutOfFuel |- _ => apply IHm in E; [exact E | lia]
        end.
    + apply IHv in V; [exact V | lia].
Qed.

(** [JSON_parse] fails on a text that is not one JSON value, and on no
    other text: its bound is never the reason. *)
Lemma parse_value_fuel (text : str) :
  parse_value (S (2 * length text)) text <> OutOfFuel.
Proof.
  apply (proj1 (parse_fuel_enough (S (2 * length text)))). lia.
Qed.

Lemma JSON_parse_throws (text : str) (e : thrown) :
  JSON_parse text = Throw e -> exists message, e = ErrorObj SyntaxError message.
Proof.
  unfold JSON_parse.
  destruct (parse_value _ text) as [v rest| |]; [destruct (skip_ws rest)|..];
    intros [= <-]; eauto.
Qed.

Local Close Scope nat_scope.

(* ================================================================== *)
(** * Decoding an import text *)
(* ================================================================== *)

(** The text handed to [JSON.parse]. *)
Definition jsonString_of (jsonText : str) : str :=
  match match_braces jsonText with
  | Some m => m
  | None => jsonText
  end.

(** The test of [parseImportJson] passed: five properties are truthy and
    [parkingAvailable] is not [undefined]. *)
Definition required_fields_present (data : json) : bool :=
  truthy (get data "name")
  && truthy (get data "location")
  && truthy (get data "date")
  && match get data "parkingAvailable" with Some _ => true | None => false end
  && truthy (get data "lengthKm")
  && truthy (get data "difficulty").

Definition required_names : list String.string :=
  ["name"; "location"; "date"; "parkingAvailable"; "lengthKm"; "difficulty"]%string.

(** A message that names the required fields that are missing from
    [data], and only those. *)
Definition names_exactly_the_missing (data : json) (message : str) : Prop :=
  forall f, In f required_names ->
            (includes message (lit f) = true <-> get data f = None).

(** C5, as it is worded, fails on its own example: the text has a name,
    and the message of the failure names [name] with the five fields
    that are missing. *)
Lemma decode_names_a_field_that_is_present :
  exists data message,
    JSON_parse (jsonString_of (qlit "{'name':'X'}")) = Ok data /\
    parseImportJson (qlit "{'name':'X'}") = Throw (ErrorObj PlainError message) /\
    ~ names_exactly_the_missing data message.
Proof.
  eexists _, _. split; [vm_compute; reflexivity|].
  split; [vm_compute; reflexivity|].
  intros H. specialize (H "name"%string (or_introl eq_refl)).
  destruct H as [H _]. vm_compute in H. specialize (H eq_refl). discriminate.
Qed.

(** What [parseImportJson] does with each outcome of the parser. *)
Lemma parseImportJson_cases (jsonText : str) :
  match JSON_parse (jsonString_of jsonText) with
  | Throw _ => parseImportJson jsonText = Throw (newError invalid_json_message)
  | Ok JNull => parseImportJson jsonText = Throw (newError invalid_data_message)
  | Ok data =>
      if required_fields_present data
      then parseImportJson jsonText = Ok data
      else parseImportJson jsonText = Throw (newError missing_fields_message)
  end.
Proof.
  unfold parseImportJson, parseImportJson_body.
  fold (jsonString_of jsonText).
  destruct (JSON_parse (jsonString_of jsonText)) as [data|e] eqn:P.
  - assert (Checked :
      match data with
      | JNull => True
      | _ =>
        (if negb (truthy (get data "name"))
            || negb (truthy (get data "location"))
            || negb (truthy (get data "date"))
            || match get data "parkingAvailable" with None => true | Some _ => false end
            || negb (truthy (get data "lengthKm"))
            || negb (truthy (get data "difficulty"))
         then true else false) = negb (required_fields_present data)
      end).
    { unfold required_fields_present.
      destruct data; try exact I;
        destruct (truthy (get _ "name")), (truthy (get _ "location")),
          (truthy (get _ "date")), (get _ "parkingAvailable"),
          (truthy (get _ "lengthKm")), (truthy (get _ "difficulty"));
        reflexivity. }
    destruct data; try reflexivity;
      match goal with
      | |- context [required_fields_present ?d] =>
          destruct (required_fields_present d);
          match type of Checked with
          | (if ?c then _ else _) = _ => destruct c; try discriminate; reflexivity
          end
      end.
  - apply JSON_parse_throws in P. destruct P as (message & ->). reflexivity.
Qed.

(** C5, amended: the text handed to the parser is the span that
    [jsonString_of] takes from the input.  When it is not JSON the
    failure carries the fixed text for an invalid file; when it is the
    JSON [null], the one for invalid data; when one of name, location,
    date, lengthKm, difficulty is absent or falsy or parkingAvailable is
    absent, the fixed text that lists all six names; otherwise the
    parsed value is returned.  The example of the specification fails
    with the text that lists all six. *)
Theorem parseImportJson_outcomes (jsonText : str) :
  match JSON_parse (jsonString_of jsonText) with
  | Throw _ => parseImportJson jsonText = Throw (newError invalid_json_message)
  | Ok JNull => parseImportJson jsonText = Throw (newError invalid_data_message)
  | Ok data =>
      if required_fields_present data
      then parseImportJson jsonText = Ok data
      else parseImportJson jsonText = Throw (newError missing_fields_message)
  end /\
  parseImportJson (qlit "{'name':'X'}") = Throw (newError missing_fields_message).
Proof.
  split; [apply parseImportJson_cases | vm_compute; reflexivity].
Qed.

(* ================================================================== *)
(** * ORDER BY sorts *)
(* ================================================================== *)

Section SortBy.
Variable A : Type.
Variable leb : A -> A -> bool.
Hypothesis leb_total : forall a b, leb a b = true \/ leb b a = true.
Hypothesis leb_trans : forall a b c, leb a b = true -> leb b c = true -> leb a c = true.

Let le (a b : A) : Prop := leb a b = true.

Lemma insert_by_perm (x : A) (l : list A) : Permutation (insert_by leb x l) (x :: l).
Proof.
  induction l as [|y l IH]; cbn; [reflexivity|].
  destruct (leb x y); [reflexivity|].
  rewrite IH. apply perm_swap.
Qed.

Lemma sort_by_perm (l : list A) : Permutation (sort_by leb l) l.
Proof.
  induction l as [|x l IH]; cbn; [reflexivity|].
  rewrite insert_by_perm. constructor. exact IH.
Qed.

Lemma insert_by_sorted (x : A) (l : list A) :
  StronglySorted le l -> StronglySorted le (insert_by leb x l).
Proof.
  induction 1 as [|y l S IH F]; cbn.
  - constructor; constructor.
  - destruct (leb x y) eqn:E.
    + constructor; [constructor; assumption|].
      constructor; [exact E|].
      apply Forall_forall. intros z Hz. rewrite Forall_forall in F.
      apply (@leb_trans x y z E (F z Hz)).
    + constructor; [exact IH|].
      apply Forall_forall. intros z Hz.
      apply (Permutation_in _ (insert_by_perm x l)) in Hz.
      destruct Hz as [<- | Hz].
      * destruct (@leb_total x y) as [T | T]; [congruence | exact T].
      * rewrite Forall_forall in F. apply F. exact Hz.
Qed.

Lemma sort_by_sorted (l : list A) : StronglySorted le (sort_by leb l).
Proof.
  induction l as [|x l IH]; cbn; [constructor|].
  apply insert_by_sorted. exact IH.
Qed.

End SortBy.

Lemma StronglySorted_map (A B : Type) (R : A -> A -> Prop) (R' : B -> B -> Prop)
    (f : A -> B) (l : list A) :
  (forall a b, R a b -> R' (f a) (f b)) ->
  StronglySorted R l -> StronglySorted R' (map f l).
Proof.
  intros H. induction 1 as [|x l S IH F]; cbn; constructor; [exact IH|].
  apply Forall_map. revert F. apply Forall_impl. intros; auto.
Qed.

Lemma filter_map_comm (A B : Type) (f : A -> B) (p : B -> bool) (l : list A) :
  filter p (map f l) = map f (filter (fun x => p (f x)) l).
Proof.
  induction l as [|x l IH]; cbn; [reflexivity|].
  destruct (p (f x)); cbn; rewrite IH; reflexivity.
Qed.

(** ** The order of texts *)

Lemma str_compare_eq (a b : str) : str_compare a b = Eq <-> a = b.
Proof.
  revert b. induction a as [|x a IH]; intros [|y b]; cbn;
    try (split; discriminate); [tauto|].
  destruct (x ?= y) eqn:C.
  - apply N.compare_eq in C. subst y. rewrite IH. split; congruence.
  - split; [discriminate|]. intros [= -> _]. rewrite N.compare_refl in C. discriminate.
  - split; [discriminate|]. intros [= -> _]. rewrite N.compare_refl in C. discriminate.
Qed.

Lemma str_compare_antisym (a b : str) : str_compare b a = CompOpp (str_compare a b).
Proof.
  revert b. induction a as [|x a IH]; intros [|y b]; cbn; try reflexivity.
  rewrite (N.compare_antisym x y). destruct (x ?= y); cbn; auto.
Qed.

Lemma str_compare_lt_trans (a b c : str) :
  str_compare a b = Lt -> str_compare b c = Lt -> str_compare a c = Lt.
Proof.
  revert b c. induction a as [|x a IH]; intros [|y b] [|z c]; cbn;
    try discriminate; try reflexivity.
  destruct (x ?= y) eqn:XY; try discriminate;
    destruct (y ?= z) eqn:YZ; try discriminate; intros H1 H2.
  - apply N.compare_eq in XY, YZ. subst. rewrite N.compare_refl. eauto.
  - apply N.compare_eq in XY. subst. rewrite YZ. reflexivity.
  - apply N.compare_eq in YZ. subst. rewrite XY. reflexivity.
  - rewrite N.compare_lt_iff in XY, YZ.
    assert (L : (x < z)%N) by lia. rewrite <- N.compare_lt_iff in L.
    rewrite L. reflexivity.
Qed.

Lemma str_leb_total (a b : str) : str_leb a b = true \/ str_leb b a = true.
Proof.
  unfold str_leb. rewrite (str_compare_antisym a b).
  destruct (str_compare a b); cbn; auto.
Qed.

Lemma str_leb_trans (a b c : str) :
  str_leb a b = true -> str_leb b c = true -> str_leb a c = true.
Proof.
  unfold str_leb.
  destruct (str_compare a b) eqn:AB; try discriminate;
    destruct (str_compare b c) eqn:BC; try discriminate; intros _ _.
  - apply str_compare_eq in AB, BC. subst.
    rewrite (proj2 (str_compare_eq c c) eq_refl). reflexivity.
  - apply str_compare_eq in AB. subst. rewrite BC. reflexivity.
  - apply str_compare_eq in BC. subst. rewrite AB. reflexivity.
  - rewrite (str_compare_lt_trans _ _ _ AB BC). reflexivity.
Qed.

(** The order by one key descending and then another ascending, on the
    keys. *)
Lemma desc_asc_total (da db na nb : list N) :
  match str_compare da db with
  | Gt => true | Lt => false | Eq => str_leb na nb
  end = true \/
  match str_compare db da with
  | Gt => true | Lt => false | Eq => str_leb nb na
  end = true.
Proof.
  rewrite (str_compare_antisym da db).
  destruct (str_compare da db); cbn; auto.
  apply str_leb_total.
Qed.

Lemma desc_asc_trans (da db dc na nb nc : list N) :
  match str_compare da db with
  | Gt => true | Lt => false | Eq => str_leb na nb
  end = true ->
  match str_compare db dc with
  | Gt => true | Lt => false | Eq => str_leb nb nc
  end = true ->
  match str_compare da dc with
  | Gt => true | Lt => false | Eq => str_leb na nc
  end = true.
Proof.
  pose proof (str_compare_antisym da db) as AB'.
  pose proof (str_compare_antisym db dc) as BC'.
  pose proof (str_compare_antisym da dc) as AC'.
  destruct (str_compare da db) eqn:AB; try discriminate;
    destruct (str_compare db dc) eqn:BC; try discriminate;
    cbn in AB', BC'.
  - apply str_compare_eq in AB, BC. rewrite AB, BC.
    rewrite (proj2 (str_compare_eq _ _) eq_refl). apply str_leb_trans.
  - apply str_compare_eq in AB. rewrite AB, BC. auto.
  - apply str_compare_eq in BC. rewrite <- BC, AB. auto.
  - intros _ _.
    rewrite (str_compare_lt_trans _ _ _ BC' AB') in AC'.
    destruct (str_compare da dc); cbn in AC'; congruence.
Qed.

Lemma by_name_asc_total a b : SQL.by_name_asc a b = true \/ SQL.by_name_asc b a = true.
Proof. apply str_leb_total. Qed.

Lemma by_name_asc_trans a b c :
  SQL.by_name_asc a b = true -> SQL.by_name_asc b c = true -> SQL.by_name_asc a c = true.
Proof. apply str_leb_trans. Qed.

Lemma by_date_desc_name_asc_total a b :
  SQL.by_date_desc_name_asc a b = true \/ SQL.by_date_desc_name_asc b a = true.
Proof. apply desc_asc_total. Qed.

Lemma by_date_desc_name_asc_trans a b c :
  SQL.by_date_desc_name_asc a b = true -> SQL.by_date_desc_name_asc b c = true ->
  SQL.by_date_desc_name_asc a c = true.
Proof. apply desc_asc_trans. Qed.

(** ** The characters of a text *)

(** Induction on a text, one or two code units at a time. *)
Lemma two_by_two (P : list N -> Prop) :
  P [] ->
  (forall a, P [a]) ->
  (forall a b t, P t -> P (b :: t) -> P (a :: b :: t)) ->
  forall s, P s.
Proof.
  intros P0 P1 P2 s.
  assert (H : P s /\ forall a, P (a :: s)).
  { induction s as [|b t (IH1 & IH2)]; [auto|].
    split; [apply IH2|]. intros a. apply P2; [exact IH1 | apply IH2]. }
  apply H.
Qed.

Lemma code_points_two (a b : N) (t : list N) :
  code_points (a :: b :: t) =
  if is_high_surrogate a && is_low_surrogate b
  then (65536 + (a - 55296) * 1024 + (b - 56320)) :: code_points t
  else a :: code_points (b :: t).
Proof. reflexivity. Qed.

Lemma code_points_plain (c : N) (t : list N) :
  is_high_surrogate c = false -> code_points (c :: t) = c :: code_points t.
Proof.
  intros H. destruct t as [|d t']; [reflexivity|].
  cbn [code_points]. rewrite H. reflexivity.
Qed.

Lemma code_points_snoc (s : list N) (c : N) :
  is_low_surrogate c = false -> code_points (s ++ [c]) = code_points s ++ [c].
Proof.
  intros H. induction s as [|a|a b t IH1 IH2] using two_by_two.
  - reflexivity.
  - cbn. rewrite H, andb_false_r. reflexivity.
  - change ((a :: b :: t) ++ [c]) with (a :: b :: (t ++ [c])).
    rewrite !code_points_two.
    destruct (is_high_surrogate a && is_low_surrogate b).
    + rewrite IH1. reflexivity.
    + change (b :: t ++ [c]) with ((b :: t) ++ [c]). rewrite IH2. reflexivity.
Qed.

(** The pattern [%text%], character by character. *)
Lemma code_points_pattern (text : list N) :
  code_points (37 :: text ++ [37]) = 37 :: code_points text ++ [37].
Proof.
  rewrite code_points_plain by reflexivity.
  rewrite code_points_snoc by reflexivity. reflexivity.
Qed.

(** ** LIKE with a pattern [%text%] *)

Definition wildcard_free (text : str) : bool :=
  forallb (fun c => negb (c =? 37) && negb (c =? 95)) text.

(** [contains_ci text sub]: the characters of [sub] occur in [text] as a
    run, the case of the ASCII letters being ignored. *)
Definition contains_ci (text sub : str) : bool :=
  includes (map to_lower (code_points text)) (map to_lower (code_points sub)).

Lemma wildcard_free_code_points (text : list N) :
  wildcard_free text = true -> wildcard_free (code_points text) = true.
Proof.
  induction text as [|a|a b t IH1 IH2] using two_by_two; intros W.
  - reflexivity.
  - exact W.
  - rewrite code_points_two.
    cbn [wildcard_free forallb] in W. apply andb_true_iff in W.
    destruct W as (Wa & W).
    destruct (is_high_surrogate a && is_low_surrogate b).
    + cbn [wildcard_free forallb]. unfold wildcard_free in IH1. rewrite IH1.
      * rewrite andb_true_r.
        replace (65536 + (a - 55296) * 1024 + (b - 56320) =? 37) with false
          by (symmetry; apply N.eqb_neq; lia).
        replace (65536 + (a - 55296) * 1024 + (b - 56320) =? 95) with false
          by (symmetry; apply N.eqb_neq; lia).
        reflexivity.
      * apply andb_true_iff in W. apply W.
    + cbn [wildcard_free forallb]. rewrite Wa. apply IH2. exact W.
Qed.

Lemma like_percent (pattern s : str) :
  like (37 :: pattern) s =
  like pattern s || match s with [] => false | _ :: s' => like (37 :: pattern) s' end.
Proof. destruct s; reflexivity. Qed.

Lemma like_only_percent (s : str) : like [37] s = true.
Proof.
  induction s as [|c s IH]; [reflexivity|].
  rewrite like_percent, IH. apply orb_true_r.
Qed.

Lemma like_prefix (text s : str) :
  wildcard_free text = true ->
  like (text ++ [37]) s = starts_with (map to_lower text) (map to_lower s).
Proof.
  revert s. induction text as [|p text IH]; intros s W.
  - cbn [app map starts_with]. apply like_only_percent.
  - cbn in W. apply andb_true_iff in W. destruct W as (P & W).
    apply andb_true_iff in P. destruct P as (P1 & P2).
    apply negb_true_iff in P1, P2.
    destruct s as [|c s]; cbn [app like map starts_with]; rewrite P1; [reflexivity|].
    rewrite P2, IH by exact W. reflexivity.
Qed.

(** A sequence of characters [%text%] where the text has no [%] and no
    [_] matches the sequences that contain the text. *)
Lemma like_contains (text s : list N) :
  wildcard_free text = true ->
  like (37 :: text ++ [37]) s = includes (map to_lower s) (map to_lower text).
Proof.
  intros W. induction s as [|c s IH].
  - rewrite like_percent, like_prefix by exact W. reflexivity.
  - rewrite like_percent, like_prefix, IH by exact W. reflexivity.
Qed.

(** A pattern [%text%] whose text has no [%] and no [_] matches the
    texts that contain it. *)
Lemma like_text_contains (text s : str) :
  wildcard_free text = true ->
  SQL.like_text (37 :: text ++ [37]) s = contains_ci s text.
Proof.
  intros W. unfold SQL.like_text, contains_ci.
  rewrite code_points_pattern. apply like_contains.
  apply wildcard_free_code_points. exact W.
Qed.

(* ================================================================== *)
(** * Searching *)
(* ================================================================== *)

(** The hikes of the store, as the queries return them. *)
Definition all_hikes (s : Store) : list Hike.t := map hike_of_row (hikes s).

(** The orders of the two ORDER BY clauses, on the hikes returned: a
    text comes before another when its UTF-8 bytes do, which is when
    its characters do by code point. *)
Definition name_asc (a b : Hike.t) : Prop :=
  str_leb (utf8 (Hike.name a)) (utf8 (Hike.name b)) = true.

Definition date_desc_name_asc (a b : Hike.t) : Prop :=
  str_compare (utf8 (Hike.date a)) (utf8 (Hike.date b)) = Gt \/
  (utf8 (Hike.date a) = utf8 (Hike.date b) /\
   str_leb (utf8 (Hike.name a)) (utf8 (Hike.name b)) = true).

(** The texts of the table that the searches read have no unpaired
    surrogate and no U+0000. *)
Definition texts_well_formed (s : Store) : bool :=
  forallb (fun r => well_formed (HikeRow.name r) && well_formed (HikeRow.location r)
                    && well_formed (HikeRow.date r)
                    && well_formed (HikeRow.difficulty r)) (hikes s).

Definition criterion_well_formed (criterion : option str) : bool :=
  match criterion with
  | Some text => well_formed text
  | None => true
  end.

(** The pattern [%text%] made of a criterion is within the limit of
    50000 bytes. *)
Definition pattern_within_limit (criterion : option str) : Prop :=
  match criterion with
  | Some text => N.of_nat (length (utf8 (37 :: text ++ [37]))) <= 50000
  | None => True
  end.

Lemma by_date_desc_name_asc_hikes a b :
  SQL.by_date_desc_name_asc a b = true ->
  date_desc_name_asc (hike_of_row a) (hike_of_row b).
Proof.
  unfold SQL.by_date_desc_name_asc, SQL.binary_leb, SQL.binary_compare,
    date_desc_name_asc, str_leb.
  change (Hike.date (hike_of_row a)) with (HikeRow.date a).
  change (Hike.date (hike_of_row b)) with (HikeRow.date b).
  change (Hike.name (hike_of_row a)) with (HikeRow.name a).
  change (Hike.name (hike_of_row b)) with (HikeRow.name b).
  destruct (str_compare (utf8 (HikeRow.date a)) (utf8 (HikeRow.date b))) eqn:C;
    intros H.
  - right. apply str_compare_eq in C. auto.
  - discriminate.
  - left. reflexivity.
Qed.

(** A query on [hikes]: the rows that pass the WHERE clause, no more and
    no fewer, in the order of the ORDER BY. *)
Lemma select_hikes_spec (where_ : HikeRow.t -> bool) (p : Hike.t -> bool)
    (order : HikeRow.t -> HikeRow.t -> bool) (R : Hike.t -> Hike.t -> Prop) (s : Store) :
  (forall r, In r (hikes s) -> where_ r = p (hike_of_row r)) ->
  (forall a b, order a b = true \/ order b a = true) ->
  (forall a b c, order a b = true -> order b c = true -> order a c = true) ->
  (forall a b, order a b = true -> R (hike_of_row a) (hike_of_row b)) ->
  Permutation (map hike_of_row (SQL.select_hikes where_ order s))
              (filter p (all_hikes s)) /\
  StronglySorted R (map hike_of_row (SQL.select_hikes where_ order s)).
Proof.
  intros W Total Trans Rel. unfold SQL.select_hikes, all_hikes. split.
  - rewrite filter_map_comm. apply Permutation_map.
    rewrite sort_by_perm.
    rewrite (filter_ext_in where_ (fun x => p (hike_of_row x)) (hikes s) W).
    reflexivity.
  - apply StronglySorted_map with (R := fun a b => order a b = true); [exact Rel|].
    apply sort_by_sorted; assumption.
Qed.

(** A function that opens the database and then runs a query that may
    be refused: what it returns is what the query gives on the rows as
    they are, and nothing is written. *)
Lemma opened_query_inv (A B : Type) (stmt : Store -> result (A * Store)) (k : A -> B)
    w r w' :
  (forall s a s', stmt s = Ok (a, s') -> s' = s) ->
  (db <- openDatabase ;; result <- runAsync stmt ;; ret (k result)) w = (r, w') ->
  store w' = store w /\
  match r with
  | Ok b => exists a, stmt (store w) = Ok (a, store w) /\ b = k a
  | Throw _ => True
  end.
Proof.
  intros Reads H. apply bind_inv in H.
  destruct H as [(db & w1 & O & H) | (e & O & ->)];
    apply openDatabase_inv in O; destruct O as (O1 & _ & _); [|auto].
  apply bind_inv in H.
  destruct H as [(a & w2 & R & H) | (e & R & ->)];
    apply runAsync_inv in R; destruct R as (_ & _ & R).
  - injection H as <- <-. rewrite O1 in R.
    pose proof (Reads _ _ _ R) as S. rewrite S in R. split; [congruence|].
    exists a. split; [exact R | reflexivity].
  - split; [congruence | exact I].
Qed.

Lemma opened_query_ready (A B : Type) (stmt : Store -> result (A * Store)) (k : A -> B)
    w a :
  ready w = true ->
  stmt (store w) = Ok (a, store w) ->
  exists w', (db <- openDatabase ;; result <- runAsync stmt ;; ret (k result)) w
             = (Ok (k a), w') /\
             ready w' = true /\ store w' = store w.
Proof.
  intros R E. destruct (openDatabase_ready w R) as (db & w1 & O & R1 & S1).
  unfold bind. rewrite O. rewrite <- S1 in E.
  destruct (runAsync_ready stmt w1 R1 E) as (E' & R2).
  rewrite E'. unfold ret. eexists. split; [reflexivity|].
  split; [exact R2|]. cbn. exact S1.
Qed.

Lemma search_hikes_reads (pattern : str) (s : Store) (a : list HikeRow.t) (s' : Store) :
  SQL.search_hikes pattern s = Ok (a, s') ->
  s' = s /\
  a = SQL.select_hikes (fun r => SQL.like_text pattern (HikeRow.name r))
        SQL.by_name_asc s.
Proof.
  unfold SQL.search_hikes.
  destruct (SQL.too_complex pattern && _); [discriminate|].
  intros [= <- <-]. auto.
Qed.

Lemma searchHikes_inv query w result w' :
  searchHikes query w = (Ok result, w') ->
  result = map hike_of_row
             (SQL.select_hikes
                (fun r => SQL.like_text (37 :: query ++ [37]) (HikeRow.name r))
                SQL.by_name_asc (store w)).
Proof.
  unfold searchHikes. intros H. apply opened_query_inv in H.
  - destruct H as (_ & a & E & ->). apply search_hikes_reads in E.
    destruct E as (_ & ->). reflexivity.
  - intros s a s' E. apply search_hikes_reads in E. tauto.
Qed.

(** C8, as it is worded, fails: [_] in the query stands for any
    character, so a hike is returned whose name does not contain the
    query. *)
Lemma searchHikes_takes_underscore_for_any_character :
  let w := snd (insertHike snowdon (startup empty_store [])) in
  exists h,
    fst (searchHikes (lit "Sn_w") w) = Ok [h] /\
    Hike.name h = lit "Snowdon" /\
    contains_ci (Hike.name h) (lit "Sn_w") = false.
Proof.
  intros w. eexists. split; [vm_compute; reflexivity|]. split; vm_compute; reflexivity.
Qed.

(** C8, amended: for a query with no [%] and no [_], on texts without
    an unpaired surrogate or U+0000, [searchHikes] returns the hikes
    whose name contains the characters of the query as a run, the case
    of ASCII letters ignored, each once, in ascending order of name,
    which is the order of the UTF-8 bytes; and it returns when the
    driver answers and the pattern made of the query is within SQLite's
    limit of 50000 bytes. *)
Theorem searchHikes_without_wildcards (query : str) (w : World) :
  wildcard_free query = true ->
  well_formed query = true ->
  texts_well_formed (store w) = true ->
  (forall result w',
      searchHikes query w = (Ok result, w') ->
      Permutation result
        (filter (fun h => contains_ci (Hike.name h) query) (all_hikes (store w))) /\
      StronglySorted name_asc result) /\
  (ready w = true ->
   pattern_within_limit (Some query) ->
   exists result w', searchHikes query w = (Ok result, w')).
Proof.
  intros W _ _. split.
  - intros result w' H. apply searchHikes_inv in H. subst result.
    apply select_hikes_spec.
    + intros r _. cbn. apply like_text_contains. exact W.
    + apply by_name_asc_total.
    + apply by_name_asc_trans.
    + intros a b H. exact H.
  - intros R L. unfold searchHikes.
    destruct (@opened_query_ready _ _ (SQL.search_hikes (37 :: query ++ [37]))
                (map hike_of_row) w
                (SQL.select_hikes
                   (fun r => SQL.like_text (37 :: query ++ [37]) (HikeRow.name r))
                   SQL.by_name_asc (store w)) R) as (w' & H & _).
    + unfold SQL.search_hikes, SQL.too_complex.
      replace (50000 <? N.of_nat (length (utf8 (37 :: query ++ [37])))) with false;
        [reflexivity|].
      symmetry. apply N.ltb_ge. exact L.
    + eauto.
Qed.

Definition ben_nevis : Hike.t :=
  Hike.mk None (lit "Ben Nevis") (lit "Fort William, UK") (lit "2025-08-02") false
    (Num 17 0) (lit "Hard")
    Undefined Undefined Undefined Undefined Undefined Undefined Undefined.

Definition box_hill : Hike.t :=
  Hike.mk None (lit "Box Hill") (lit "Surrey, UK") (lit "2025-08-02") true
    (Num 3 0) (lit "Easy")
    Undefined Undefined Undefined Undefined Undefined Undefined Undefined.

(** Three hikes saved on an empty database file. *)
Definition three_hikes : World :=
  let w := startup empty_store [] in
  let w := snd (insertHike snowdon w) in
  let w := snd (insertHike box_hill w) in
  snd (insertHike ben_nevis w).

(** Names that tell the order of the bytes from the order of the code
    units: U+FF21, a fullwidth letter, and U+1F600, a surrogate pair. *)
Definition fullwidth_peak : Hike.t :=
  Hike.mk None (65313 :: lit " peak") (lit "Hakone, JP") (lit "2025-08-02") false
    (Num 7 0) (lit "Easy")
    Undefined Undefined Undefined Undefined Undefined Undefined Undefined.

Definition smiling_peak : Hike.t :=
  Hike.mk None (55357 :: 56832 :: lit " peak") (lit "Hakone, JP") (lit "2025-08-02")
    false (Num 7 0) (lit "Easy")
    Undefined Undefined Undefined Undefined Undefined Undefined Undefined.

Definition two_peaks : World :=
  let w := startup empty_store [] in
  let w := snd (insertHike smiling_peak w) in
  snd (insertHike fullwidth_peak w).

(** The query [peak] on the two peaks: the fullwidth letter comes first,
    as its bytes do, though its code unit is the larger one. *)
Lemma searchHikes_without_wildcards_witness :
  map Hike.name
    (match fst (searchHikes (lit "N") three_hikes) with Ok l => l | Throw _ => [] end)
  = [lit "Ben Nevis"; lit "Snowdon"] /\
  map Hike.id
    (match fst (searchHikes (lit "peak") two_peaks) with Ok l => l | Throw _ => [] end)
  = [Some 2%Z; Some 1%Z] /\
  exists result,
    fst (searchHikes (lit "peak") two_peaks) = Ok result /\
    Permutation result
      (filter (fun h => contains_ci (Hike.name h) (lit "peak"))
         (all_hikes (store two_peaks))) /\
    StronglySorted name_asc result.
Proof.
  split; [vm_compute; reflexivity|]. split; [vm_compute; reflexivity|].
  destruct (searchHikes_without_wildcards (lit "peak") two_peaks
              eq_refl eq_refl eq_refl) as (H & _).
  destruct (searchHikes (lit "peak") two_peaks) as [[result|e] w'] eqn:E.
  - exists result. split; [reflexivity|]. apply (H result w'). reflexivity.
  - vm_compute in E. discriminate.
Defined.

(** Past the limit the statement is refused as soon as there is a row to
    match. *)
Lemma searchHikes_refuses_a_long_pattern (query : str) (w : World) :
  ready w = true ->
  hikes (store w) <> [] ->
  50000 < N.of_nat (length (utf8 (37 :: query ++ [37]))) ->
  exists w', searchHikes query w = (Throw SQL.like_too_complex, w') /\
             store w' = store w.
Proof.
  intros R Rows Long.
  destruct (openDatabase_ready w R) as (db & w1 & O & R1 & S1).
  unfold searchHikes, bind. rewrite O.
  unfold runAsync, answered. unfold ready in R1.
  destruct (pending w1) eqn:P; [|discriminate].
  unfold SQL.search_hikes, SQL.too_complex.
  apply N.ltb_lt in Long. rewrite Long, S1.
  destruct (hikes (store w)) as [|r rows]; [contradiction|].
  cbn [andb]. exists w1. split; [reflexivity | exact S1].
Qed.

(** ** The advanced search *)

(** The criteria as the specification states them: each one is absent
    or a predicate on the hike, and they are taken together. *)
Definition satisfies (name location : option str) (minLen maxLen : option number)
    (date difficulty : option str) (parking : option bool) (h : Hike.t) : bool :=
  match name with Some n => contains_ci (Hike.name h) n | None => true end
  && match location with Some l => contains_ci (Hike.location h) l | None => true end
  && match minLen with Some m => num_leb m (Hike.lengthKm h) | None => true end
  && match maxLen with Some m => num_leb (Hike.lengthKm h) m | None => true end
  && match date with Some d => str_eqb (Hike.date h) d | None => true end
  && match difficulty with Some d => str_eqb (Hike.difficulty h) d | None => true end
  && match parking with
     | Some p => Bool.eqb (Hike.parkingAvailable h) p
     | None => true
     end.

Definition no_wildcards (criterion : option str) : bool :=
  match criterion with
  | Some text => wildcard_free text
  | None => true
  end.

Definition not_blank (criterion : option str) : bool :=
  match criterion with
  | Some [] => false
  | _ => true
  end.

(** Every row holds 0 or 1 in [parkingAvailable], as [insertHike] and
    [updateHike] write it. *)
Definition parking_flags_ok (s : Store) : bool :=
  forallb (fun r => (HikeRow.parkingAvailable r =? 0)%Z
                    || (HikeRow.parkingAvailable r =? 1)%Z) (hikes s).

Lemma insertHike_keeps_parking_flags hike w id w' :
  parking_flags_ok (store w) = true ->
  insertHike hike w = (Ok id, w') ->
  parking_flags_ok (store w') = true.
Proof.
  intros F I. apply insertHike_inv in I. destruct I as (_ & I & _).
  unfold parking_flags_ok in *. rewrite I, forallb_app, F. cbn.
  destruct (Hike.parkingAvailable hike); reflexivity.
Qed.

Lemma updateHike_keeps_parking_flags hike w w' :
  parking_flags_ok (store w) = true ->
  updateHike hike w = (Ok tt, w') ->
  parking_flags_ok (store w') = true.
Proof.
  intros F U. apply updateHike_inv in U. destruct U as (_ & U & _).
  unfold parking_flags_ok in *. rewrite U. rewrite forallb_forall in *.
  intros r Hr. apply in_map_iff in Hr. destruct Hr as (x & <- & Hx).
  destruct (HikeRow.id x =? the_id (Hike.id hike))%Z; [|apply F, Hx].
  cbn. destruct (Hike.parkingAvailable hike); reflexivity.
Qed.

Lemma includes_empty (s : str) : includes s [] = true.
Proof. destruct s; reflexivity. Qed.

Lemma like_criterion (criterion : option str) (s : str) :
  no_wildcards criterion = true ->
  match given_str criterion with
  | Some t => SQL.like_text (37 :: t ++ [37]) s
  | None => true
  end =
  match criterion with
  | Some t => contains_ci s t
  | None => true
  end.
Proof.
  destruct criterion as [[|c t]|]; cbn [given_str no_wildcards]; intros W.
  - unfold contains_ci. cbn [code_points map]. rewrite includes_empty. reflexivity.
  - apply like_text_contains. exact W.
  - reflexivity.
Qed.

Lemma equals_criterion (criterion : option str) (s : str) :
  not_blank criterion = true ->
  match given_str criterion with
  | Some t => str_eqb s t
  | None => true
  end =
  match criterion with
  | Some t => str_eqb s t
  | None => true
  end.
Proof.
  destruct criterion as [[|c t]|]; cbn; intros B; try discriminate; reflexivity.
Qed.

Lemma advanced_where_satisfies name location minLen maxLen date difficulty parking s r :
  no_wildcards name = true -> no_wildcards location = true ->
  not_blank date = true -> not_blank difficulty = true ->
  parking_flags_ok s = true -> In r (hikes s) ->
  advanced_where name location minLen maxLen date difficulty parking r =
  satisfies name location minLen maxLen date difficulty parking (hike_of_row r).
Proof.
  intros Wn Wl Bd Bf Flags In_r. unfold advanced_where, satisfies.
  rewrite (like_criterion name _ Wn), (like_criterion location _ Wl).
  rewrite (equals_criterion date _ Bd), (equals_criterion difficulty _ Bf).
  cbn [andb hike_of_row Hike.name Hike.location Hike.lengthKm Hike.date
         Hike.difficulty Hike.parkingAvailable].
  repeat f_equal.
  destruct parking as [p|]; [|reflexivity].
  unfold parking_flags_ok in Flags. rewrite forallb_forall in Flags.
  specialize (Flags r In_r). apply orb_true_iff in Flags.
  destruct Flags as [F | F]; apply Z.eqb_eq in F; rewrite F; destruct p; reflexivity.
Qed.

Lemma advanced_query_reads name location minLen maxLen date difficulty parking
    (s : Store) (a : list HikeRow.t) (s' : Store) :
  advanced_query name location minLen maxLen date difficulty parking s = Ok (a, s') ->
  s' = s /\
  a = SQL.select_hikes
        (advanced_where name location minLen maxLen date difficulty parking)
        SQL.by_date_desc_name_asc s.
Proof.
  unfold advanced_query.
  destruct (existsb (advanced_refused name location) (hikes s)); [discriminate|].
  intros [= <- <-]. auto.
Qed.

Lemma advancedSearchHikes_inv name location minLen maxLen date difficulty parking
    w result w' :
  advancedSearchHikes name location minLen maxLen date difficulty parking w
  = (Ok result, w') ->
  result = map hike_of_row
             (SQL.select_hikes
                (advanced_where name location minLen maxLen date difficulty parking)
                SQL.by_date_desc_name_asc (store w)).
Proof.
  unfold advancedSearchHikes. intros H. apply opened_query_inv in H.
  - destruct H as (_ & a & E & ->). apply advanced_query_reads in E.
    destruct E as (_ & ->). reflexivity.
  - intros s a s' E. apply advanced_query_reads in E. tauto.
Qed.

(** A pattern within the limit is not refused. *)
Lemma within_limit_accepted (criterion : option str) :
  pattern_within_limit criterion ->
  match given_str criterion with
  | Some t => SQL.too_complex (37 :: t ++ [37])
  | None => false
  end = false.
Proof.
  destruct criterion as [[|c t]|]; cbn [given_str pattern_within_limit]; intros L;
    try reflexivity.
  unfold SQL.too_complex. apply N.ltb_ge. exact L.
Qed.

Lemma within_limit_none_refused (name location : option str) (rows : list HikeRow.t) :
  pattern_within_limit name -> pattern_within_limit location ->
  existsb (advanced_refused name location) rows = false.
Proof.
  intros Ln Ll. induction rows as [|r rows IH]; [reflexivity|].
  cbn [existsb]. rewrite IH, orb_false_r. unfold advanced_refused.
  pose proof (within_limit_accepted name Ln) as A.
  pose proof (within_limit_accepted location Ll) as B.
  destruct (given_str name) as [n|]; [|exact B].
  rewrite A, B, andb_false_r. reflexivity.
Qed.

Lemma runAsync_ext (A : Type) (stmt1 stmt2 : Store -> result (A * Store)) (w : World) :
  (forall s, stmt1 s = stmt2 s) -> runAsync stmt1 w = runAsync stmt2 w.
Proof.
  intros E. unfold runAsync, answered.
  destruct (pending w) as [|[e|] rest]; cbn; rewrite ?E; reflexivity.
Qed.

(** With no criterion the advanced search is the listing of all hikes. *)
Lemma advancedSearchHikes_no_criterion (w : World) :
  advancedSearchHikes None None None None None None None w = getAllHikes w.
Proof.
  unfold advancedSearchHikes, getAllHikes, reads, bind.
  destruct (openDatabase w) as [[db|e] w1]; [|reflexivity].
  rewrite (@runAsync_ext _ (advanced_query None None None None None None None)
             (fun s => Ok (SQL.select_hikes (fun _ => true)
                             SQL.by_date_desc_name_asc s, s))); [reflexivity|].
  intros s. unfold advanced_query.
  rewrite within_limit_none_refused by exact I. reflexivity.
Qed.

Lemma getAllHikes_inv w result w' :
  getAllHikes w = (Ok result, w') ->
  result = map hike_of_row
             (SQL.select_hikes (fun _ => true) SQL.by_date_desc_name_asc (store w)).
Proof.
  unfold getAllHikes. intros H. apply opened_read_inv in H. tauto.
Qed.

(** C6, as it is worded, fails in two places: [_] in the name criterion
    stands for any character, and an empty date is not compared but
    skipped. *)
Lemma advancedSearchHikes_wildcard_and_blank_date :
  let w := snd (insertHike snowdon (startup empty_store [])) in
  (exists h,
      fst (advancedSearchHikes (Some (lit "Sn_w")) None None None None None None w)
      = Ok [h] /\
      satisfies (Some (lit "Sn_w")) None None None None None None h = false) /\
  (exists h,
      fst (advancedSearchHikes None None None None (Some []) None None w) = Ok [h] /\
      satisfies None None None None (Some []) None None h = false).
Proof.
  intros w. split; eexists; (split; [vm_compute; reflexivity|]); vm_compute; reflexivity.
Qed.

(** C6, amended: on texts without an unpaired surrogate or U+0000, when
    the name and location criteria have no [%] and no [_] and the date
    and difficulty criteria are not the empty text, [advancedSearchHikes]
    returns the hikes that satisfy every criterion given (a name or a
    location satisfies its criterion when it contains the characters of
    the criterion as a run, the case of ASCII letters ignored), each
    once, by date descending and then name ascending, in the order of
    the UTF-8 bytes; with no criterion it computes what [getAllHikes]
    computes, and [getAllHikes] returns every hike in that order; and
    it returns when the driver answers and the patterns made of the name
    and of the location are within SQLite's limit of 50000 bytes. *)
Theorem advancedSearchHikes_conjunction
    (name location : option str) (minLen maxLen : option number)
    (date difficulty : option str) (parking : option bool) (w : World) :
  no_wildcards name = true -> no_wildcards location = true ->
  not_blank date = true -> not_blank difficulty = true ->
  parking_flags_ok (store w) = true ->
  criterion_well_formed name = true -> criterion_well_formed location = true ->
  criterion_well_formed date = true -> criterion_well_formed difficulty = true ->
  texts_well_formed (store w) = true ->
  (forall result w',
      advancedSearchHikes name location minLen maxLen date difficulty parking w
      = (Ok result, w') ->
      Permutation result
        (filter (satisfies name location minLen maxLen date difficulty parking)
           (all_hikes (store w))) /\
      StronglySorted date_desc_name_asc result) /\
  advancedSearchHikes None None None None None None None w = getAllHikes w /\
  (forall result w',
      getAllHikes w = (Ok result, w') ->
      Permutation result (all_hikes (store w)) /\
      StronglySorted date_desc_name_asc result) /\
  (ready w = true ->
   pattern_within_limit name -> pattern_within_limit location ->
   exists result w',
     advancedSearchHikes name location minLen maxLen date difficulty parking w
     = (Ok result, w')).
Proof.
  intros Wn Wl Bd Bf Flags _ _ _ _ _. split; [|split; [|split]].
  - intros result w' H. apply advancedSearchHikes_inv in H. subst result.
    apply select_hikes_spec.
    + intros r In_r. apply advanced_where_satisfies with (s := store w); assumption.
    + apply by_date_desc_name_asc_total.
    + apply by_date_desc_name_asc_trans.
    + apply by_date_desc_name_asc_hikes.
  - apply advancedSearchHikes_no_criterion.
  - intros result w' H. apply getAllHikes_inv in H. subst result.
    destruct (@select_hikes_spec (fun _ => true) (fun _ => true)
                SQL.by_date_desc_name_asc date_desc_name_asc (store w)
                (fun _ _ => eq_refl)
                by_date_desc_name_asc_total by_date_desc_name_asc_trans
                by_date_desc_name_asc_hikes)
      as (P & S).
    split; [|exact S].
    rewrite P. clear. induction (all_hikes (store w)) as [|h l IH]; cbn; auto.
  - intros R Ln Ll. unfold advancedSearchHikes.
    destruct (@opened_query_ready _ _
                (advanced_query name location minLen maxLen date difficulty parking)
                (map hike_of_row) w
                (SQL.select_hikes
                   (advanced_where name location minLen maxLen date difficulty parking)
                   SQL.by_date_desc_name_asc (store w)) R) as (w' & H & _).
    + unfold advanced_query.
      rewrite within_limit_none_refused by assumption. reflexivity.
    + eauto.
Qed.

(** Two hikes of one day whose names tell the order of the bytes from
    the order of the code units, and a later one. *)
Definition peaks_and_snowdon : World :=
  snd (insertHike snowdon two_peaks).

(** The example of the specification: a minimum length of 5 km and the
    difficulty Hard, on hikes of 3, 14.5 and 17 km; and the hikes
    of a location with an N, the later date first and then the names by
    their bytes. *)
Lemma advancedSearchHikes_conjunction_witness :
  map Hike.name
    (match fst (advancedSearchHikes None None (Some (Num 5 0)) None None
                  (Some (lit "Hard")) None three_hikes)
     with Ok l => l | Throw _ => [] end)
  = [lit "Ben Nevis"; lit "Snowdon"] /\
  (exists result,
    fst (advancedSearchHikes None None (Some (Num 5 0)) None None
           (Some (lit "Hard")) None three_hikes) = Ok result /\
    Permutation result
      (filter (satisfies None None (Some (Num 5 0)) None None (Some (lit "Hard")) None)
         (all_hikes (store three_hikes))) /\
    StronglySorted date_desc_name_asc result) /\
  map Hike.id
    (match fst (advancedSearchHikes None (Some (lit "N")) None
                  None None None None peaks_and_snowdon)
     with Ok l => l | Throw _ => [] end)
  = [Some 2%Z; Some 1%Z; Some 3%Z] /\
  exists result,
    fst (advancedSearchHikes None (Some (lit "N")) None
           None None None None peaks_and_snowdon) = Ok result /\
    Permutation result
      (filter (satisfies None (Some (lit "N")) None None None None
                 None)
         (all_hikes (store peaks_and_snowdon))) /\
    StronglySorted date_desc_name_asc result.
Proof.
  split; [vm_compute; reflexivity|]. split.
  - destruct (@advancedSearchHikes_conjunction None None (Some (Num 5 0)) None None
                (Some (lit "Hard")) None three_hikes
                eq_refl eq_refl eq_refl eq_refl eq_refl
                eq_refl eq_refl eq_refl eq_refl eq_refl) as (H & _).
    destruct (advancedSearchHikes None None (Some (Num 5 0)) None None
                (Some (lit "Hard")) None three_hikes) as [[result|e] w'] eqn:E.
    + exists result. split; [reflexivity|]. apply (H result w'). reflexivity.
    + vm_compute in E. discriminate.
  - split; [vm_compute; reflexivity|].
    destruct (@advancedSearchHikes_conjunction None (Some (lit "N"))
                None None None None None peaks_and_snowdon
                eq_refl eq_refl eq_refl eq_refl eq_refl
                eq_refl eq_refl eq_refl eq_refl eq_refl) as (H & _).
    destruct (advancedSearchHikes None (Some (lit "N"))
                None None None None None peaks_and_snowdon)
      as [[result|e] w'] eqn:E.
    + exists result. split; [reflexivity|]. apply (H result w'). reflexivity.
    + vm_compute in E. discriminate.
Defined.

(* ================================================================== *)
(** * Numbers are read back as they are written *)
(* ================================================================== *)

Unset Implicit Arguments.

(** [lia] with the equations of division by a constant. *)
Ltac Zify.zify_post_hook ::= Z.to_euclidean_division_equations.

Lemma is_digit_spec (c : char) : is_digit c = true <-> 48 <= c <= 57.
Proof.
  unfold is_digit. rewrite andb_true_iff, !N.leb_le. tauto.
Qed.

Lemma digit_of_mod (n : N) : is_digit (48 + n mod 10) = true.
Proof.
  apply is_digit_spec. lia.
Qed.

Lemma log2_div10 (n : N) : n / 10 <> 0 -> N.log2 (n / 10) < N.log2 n.
Proof.
  intros H.
  assert (L : 10 <= n).
  { destruct (N.lt_ge_cases n 10) as [C|C]; [|exact C].
    rewrite (N.div_small n 10 C) in H. contradiction. }
  assert (D : n / 10 <= n / 2).
  { apply N.div_le_compat_l. lia. }
  apply N.log2_le_mono in D.
  assert (E : N.log2 (n / 2) = N.log2 n - 1).
  { change 2 with (2 ^ 1). rewrite <- N.shiftr_div_pow2. apply N.log2_shiftr. }
  assert (P : 3 <= N.log2 n).
  { change 3 with (N.log2 8). apply N.log2_le_mono. lia. }
  lia.
Qed.

Lemma digits_fuel_value (fuel : nat) (n : N) (acc : str) :
  (N.to_nat (N.log2 n) < fuel)%nat ->
  fold_left (fun a c => 10 * a + (c - 48)) (digits_fuel fuel n acc) 0
  = fold_left (fun a c => 10 * a + (c - 48)) acc n.
Proof.
  revert n acc. induction fuel as [|f IH]; intros n acc B; [lia|].
  cbn [digits_fuel]. destruct (n / 10 =? 0) eqn:E.
  - apply N.eqb_eq in E. cbn [fold_left]. f_equal.
    lia.
  - apply N.eqb_neq in E. rewrite IH.
    + cbn [fold_left]. f_equal. lia.
    + pose proof (@log2_div10 n E). lia.
Qed.

Lemma digits_value_of_N (n : N) : digits_value (digits_of_N n) = n.
Proof.
  unfold digits_value, digits_of_N. rewrite digits_fuel_value; [reflexivity | lia].
Qed.

Lemma digits_fuel_digits (fuel : nat) (n : N) (acc : str) :
  Forall (fun c => is_digit c = true) acc ->
  Forall (fun c => is_digit c = true) (digits_fuel fuel n acc).
Proof.
  revert n acc. induction fuel as [|f IH]; intros n acc A; cbn; [exact A|].
  destruct (n / 10 =? 0).
  - constructor; [apply digit_of_mod | exact A].
  - apply IH. constructor; [apply digit_of_mod | exact A].
Qed.

Lemma digits_of_N_digits (n : N) : Forall (fun c => is_digit c = true) (digits_of_N n).
Proof. apply digits_fuel_digits. constructor. Qed.

(** The first digit is not a zero, unless the number is. *)
Lemma digits_fuel_head (fuel : nat) (n : N) (acc : str) :
  (N.to_nat (N.log2 n) < fuel)%nat -> n <> 0 ->
  exists d ds, digits_fuel fuel n acc = d :: ds /\ d <> 48.
Proof.
  revert n acc. induction fuel as [|f IH]; intros n acc B Z; [lia|].
  cbn [digits_fuel]. destruct (n / 10 =? 0) eqn:E.
  - apply N.eqb_eq in E. eexists _, _. split; [reflexivity|]. lia.
  - apply N.eqb_neq in E. apply IH; [|exact E].
    pose proof (@log2_div10 n E). lia.
Qed.

Lemma digits_of_N_head (n : N) :
  n <> 0 -> exists d ds, digits_of_N n = d :: ds /\ d <> 48.
Proof. intros Z. apply digits_fuel_head; [lia | exact Z]. Qed.

Lemma digits_of_N_zero : digits_of_N 0 = [48].
Proof. reflexivity. Qed.

Lemma digits_value_app (a b : str) :
  digits_value (a ++ b)
  = fold_left (fun x c => 10 * x + (c - 48)) b (digits_value a).
Proof. unfold digits_value. apply fold_left_app. Qed.

Lemma digits_value_zeros (k : nat) (ds : str) :
  digits_value (repeat 48 k ++ ds) = digits_value ds.
Proof.
  rewrite digits_value_app. f_equal.
  induction k as [|k IH]; [reflexivity|].
  unfold digits_value in *. cbn [repeat fold_left].
  replace (10 * 0 + (48 - 48)) with 0 by reflexivity. exact IH.
Qed.

(** A text that cannot continue a number: it is empty, or starts with a
    comma or a line feed, as every text that follows a value in the
    output of [stringify] does. *)
Definition delimited (rest : str) : bool :=
  match rest with
  | [] => true
  | c :: _ => (c =? 44) || (c =? 10)
  end.

Lemma delimited_head (rest : str) :
  delimited rest = true ->
  match rest with
  | [] => True
  | c :: _ => c = 44 \/ c = 10
  end.
Proof.
  destruct rest as [|c r]; cbn; [auto|].
  rewrite orb_true_iff, !N.eqb_eq. auto.
Qed.

Lemma span_digits_app (ds rest : str) :
  Forall (fun c => is_digit c = true) ds ->
  match rest with [] => True | c :: _ => is_digit c = false end ->
  span_digits (ds ++ rest) = (ds, rest).
Proof.
  intros D R. induction D as [|c ds C D IH]; cbn [app].
  - destruct rest as [|c r]; [reflexivity|]. cbn. rewrite R. reflexivity.
  - cbn. rewrite C, IH. reflexivity.
Qed.

Lemma delimited_not_digit (rest : str) :
  delimited rest = true ->
  match rest with [] => True | c :: _ => is_digit c = false end.
Proof.
  intros R. apply delimited_head in R. destruct rest as [|c r]; [exact I|].
  apply not_true_is_false. rewrite is_digit_spec. lia.
Qed.

Lemma num_norm_aux_zero (k : nat) : num_norm_aux 0 k = Num 0 0.
Proof. induction k as [|k IH]; [reflexivity | exact IH]. Qed.

(** How a number is laid out: the digits of the mantissa, with zeros in
    front when there are not more of them than decimals, cut into an
    integer part and [sc] decimals. *)
Lemma number_layout (M : N) (sc : nat) :
  (M = 0 -> sc = 0%nat) ->
  let ds := digits_of_N M in
  let ds' := repeat 48 (S sc - length ds) ++ ds in
  let ip := firstn (length ds' - sc) ds' in
  let fp := skipn (length ds' - sc) ds' in
  length fp = sc /\
  Forall (fun c => is_digit c = true) ip /\
  Forall (fun c => is_digit c = true) fp /\
  digits_value (ip ++ fp) = M /\
  (ip = [48] \/ exists d t, ip = d :: t /\ d <> 48 /\ is_digit d = true).
Proof.
  intros Zero ds ds' ip fp.
  pose proof (digits_of_N_digits M) as D. fold ds in D.
  assert (D' : Forall (fun c => is_digit c = true) ds').
  { apply Forall_app. split; [|exact D].
    apply Forall_forall. intros c Hc. apply repeat_spec in Hc. subst c. reflexivity. }
  assert (L1 : (1 <= length ds)%nat).
  { destruct (N.eq_dec M 0) as [->|NZ]; [cbn; lia|].
    destruct (digits_of_N_head M NZ) as (d & t & E & _). unfold ds. rewrite E. cbn. lia. }
  assert (L' : length ds' = (S sc - length ds + length ds)%nat).
  { unfold ds'. rewrite length_app, repeat_length. reflexivity. }
  assert (V : digits_value ds' = M).
  { unfold ds'. rewrite digits_value_zeros. apply digits_value_of_N. }
  assert (Cut : Forall (fun c => is_digit c = true) ip /\
                Forall (fun c => is_digit c = true) fp).
  { apply Forall_app. unfold ip, fp. rewrite firstn_skipn. exact D'. }
  split; [unfold fp; rewrite length_skipn; lia|].
  split; [apply Cut|]. split; [apply Cut|].
  split; [unfold ip, fp; rewrite firstn_skipn; exact V|].
  destruct (Nat.le_gt_cases (length ds) sc) as [Short|Long].
  - left. unfold ip. replace (length ds' - sc)%nat with 1%nat by lia.
    unfold ds'. replace (S sc - length ds)%nat with (S (sc - length ds)) by lia.
    reflexivity.
  - assert (E' : ds' = ds).
    { unfold ds'. replace (S sc - length ds)%nat with 0%nat by lia. reflexivity. }
    destruct (N.eq_dec M 0) as [->|NZ].
    + left. pose proof (Zero eq_refl) as S0. unfold ip. rewrite E'.
      unfold ds. rewrite S0. reflexivity.
    + right. destruct (digits_of_N_head M NZ) as (d & t & E & N48).
      fold ds in E. unfold ip. rewrite E'.
      match goal with
      | |- context [firstn ?n _] => destruct n as [|k] eqn:K; [lia|]
      end.
      rewrite E in D |- *.
      cbn [firstn]. eexists _, _. split; [reflexivity|].
      split; [exact N48|]. inversion D. assumption.
Qed.

(** [JSON.parse] reads back the number that [num_to_str] wrote. *)
Lemma parse_number_num_to_str (a : number) (rest : str) :
  num_norm a = a -> delimited rest = true ->
  parse_number (num_to_str a ++ rest) = Some (a, rest).
Proof.
  intros Canon R. destruct a as [m sc].
  assert (Zero : Z.abs_N m = 0 -> sc = 0%nat).
  { intros Z0. assert (m = 0%Z) by lia. subst m.
    unfold num_norm in Canon. cbn in Canon. rewrite num_norm_aux_zero in Canon.
    congruence. }
  unfold num_to_str. rewrite Canon. cbn [mantissa scale].
  destruct (@number_layout (Z.abs_N m) sc Zero) as (Lf & Di & Df & V & Head).
  set (ds' := repeat 48 (S sc - length (digits_of_N (Z.abs_N m)))
              ++ digits_of_N (Z.abs_N m)) in *.
  set (ip := firstn (length ds' - sc) ds') in *.
  set (fp := skipn (length ds' - sc) ds') in *.
  set (frac := match fp with [] => [] | _ :: _ => 46 :: fp end).
  pose proof (delimited_head rest R) as Rh.
  pose proof (delimited_not_digit rest R) as Rd.
  (* the fraction and the exponent *)
  assert (Frac : parse_frac_part (frac ++ rest) = Some (fp, rest)).
  { unfold frac. destruct fp as [|d fp'].
    - destruct rest as [|c r]; [reflexivity|]. cbn.
      replace (c =? 46) with false; [reflexivity|].
      symmetry. apply N.eqb_neq. lia.
    - change ((46 :: d :: fp') ++ rest) with (46 :: ((d :: fp') ++ rest)).
      cbn [parse_frac_part]. rewrite N.eqb_refl.
      rewrite (span_digits_app (d :: fp') rest Df Rd). reflexivity. }
  assert (Exp : parse_exp_part rest = Some (0%Z, rest)).
  { destruct rest as [|c r]; [reflexivity|]. cbn.
    replace ((c =? 101) || (c =? 69)) with false; [reflexivity|].
    symmetry. apply orb_false_iff. split; apply N.eqb_neq; lia. }
  (* the integer part *)
  assert (Int : parse_int_part (ip ++ frac ++ rest) = Some (ip, frac ++ rest)).
  { destruct Head as [-> | (d & t & E & N48 & Dd)]; [reflexivity|].
    rewrite E. cbn [app parse_int_part].
    replace (d =? 48) with false by (symmetry; apply N.eqb_neq; exact N48).
    rewrite Dd. rewrite <- E. change (d :: t ++ frac ++ rest) with ((d :: t) ++ frac ++ rest).
    rewrite <- E. f_equal. apply span_digits_app; [exact Di|].
    unfold frac. destruct fp; [exact Rd | reflexivity]. }
  assert (Lead : exists d t, ip = d :: t /\ is_digit d = true).
  { destruct Head as [-> | (d & t & E & _ & Dd)]; eauto. }
  destruct Lead as (d & t & Eip & Dd).
  assert (Norm : num_norm (Num m sc) = Num m sc) by exact Canon.
  unfold parse_number.
  destruct (m <? 0)%Z eqn:Neg.
  - cbn [app parse_sign]. rewrite N.eqb_refl.
    fold frac. rewrite <- app_assoc, Int, Frac, Exp, V, Lf.
    replace (- Z.of_N (Z.abs_N m))%Z with m by lia.
    replace (Z.of_nat sc - 0 <? 0)%Z with false by lia.
    replace (Z.to_nat (Z.of_nat sc - 0)) with sc by lia.
    rewrite Norm. reflexivity.
  - cbn [app]. fold frac. rewrite <- app_assoc.
    assert (Sign : parse_sign (ip ++ frac ++ rest) = (false, ip ++ frac ++ rest)).
    { rewrite Eip. cbn. replace (d =? 45) with false; [reflexivity|].
      symmetry. apply N.eqb_neq. apply is_digit_spec in Dd. lia. }
    rewrite Sign, Int, Frac, Exp, V, Lf.
    replace (Z.of_N (Z.abs_N m)) with m by lia.
    replace (Z.of_nat sc - 0 <? 0)%Z with false by lia.
    replace (Z.to_nat (Z.of_nat sc - 0)) with sc by lia.
    rewrite Norm. reflexivity.
Qed.

(* ================================================================== *)
(** * Texts are read back as they are quoted *)
(* ================================================================== *)

Lemma hex_value_digit (n : N) : n < 16 -> hex_value (hex_digit n) = Some n.
Proof.
  intros B. unfold hex_digit, hex_value.
  destruct (N.ltb_spec n 10) as [Dec|Let].
  - replace (is_digit (48 + n)) with true
      by (symmetry; apply is_digit_spec; lia).
    f_equal. lia.
  - replace (is_digit (87 + n)) with false
      by (symmetry; apply not_true_is_false; rewrite is_digit_spec; lia).
    replace ((97 <=? 87 + n) && (87 + n <=? 102)) with true
      by (symmetry; apply andb_true_iff; split; apply N.leb_le; lia).
    f_equal. lia.
Qed.

Lemma unhex4_hex4 (c : N) (t : list N) :
  c < 65536 ->
  match hex4 c ++ t with
  | h1 :: h2 :: h3 :: h4 :: t' => unhex4 h1 h2 h3 h4 = Some c /\ t' = t
  | _ => False
  end.
Proof.
  intros B. unfold hex4. cbn [app]. unfold unhex4.
  rewrite !hex_value_digit by lia. split; [f_equal; lia | reflexivity].
Qed.

Lemma parse_uescape (c : N) (t : list N) :
  c < 65536 ->
  parse_string_body (uescape c ++ t) = cons_fst c (parse_string_body t).
Proof.
  intros B. unfold uescape.
  change ((92 :: 117 :: hex4 c) ++ t) with (92 :: 117 :: (hex4 c ++ t)).
  pose proof (unhex4_hex4 c t B) as H.
  destruct (hex4 c ++ t) as [|h1 [|h2 [|h3 [|h4 t']]]]; try contradiction.
  destruct H as (H & ->). cbn. rewrite H. reflexivity.
Qed.

Lemma parse_raw (c : N) (t : list N) :
  c <> 34 -> c <> 92 -> 32 <= c ->
  parse_string_body (c :: t) = cons_fst c (parse_string_body t).
Proof.
  intros Q B L. cbn [parse_string_body].
  replace (c =? 34) with false by (symmetry; apply N.eqb_neq; exact Q).
  replace (c =? 92) with false by (symmetry; apply N.eqb_neq; exact B).
  replace (c <? 32) with false by (symmetry; apply N.ltb_ge; exact L).
  reflexivity.
Qed.

Lemma parse_quote_unit (c : N) (t : list N) :
  parse_string_body (quote_unit c ++ t) = cons_fst c (parse_string_body t).
Proof.
  unfold quote_unit.
  repeat match goal with
  | |- context [if ?c =? ?k then _ else _] =>
      destruct (N.eqb_spec c k); [subst; reflexivity|]
  end.
  destruct (N.ltb_spec c 32) as [Ctl|Ctl]; [apply parse_uescape; lia|].
  destruct (is_high_surrogate c || is_low_surrogate c) eqn:S.
  - apply parse_uescape.
    unfold is_high_surrogate, is_low_surrogate in S.
    apply orb_true_iff in S. rewrite !andb_true_iff, !N.leb_le in S. lia.
  - apply parse_raw; assumption.
Qed.

Lemma parse_quote_body (s rest : list N) :
  parse_string_body (quote_body s ++ 34 :: rest) = Some (s, rest).
Proof.
  remember (length s) as n eqn:L. revert s L.
  induction n as [n IH] using lt_wf_ind. intros s ->.
  destruct s as [|c t]; [reflexivity|].
  assert (Unit : parse_string_body ((quote_unit c ++ quote_body t) ++ 34 :: rest)
                 = Some (c :: t, rest)).
  { rewrite <- app_assoc, parse_quote_unit.
    rewrite (IH (length t) ltac:(cbn; lia) t eq_refl). reflexivity. }
  cbn [quote_body]. destruct (is_high_surrogate c) eqn:H; [|exact Unit].
  destruct t as [|d t'];
    [cbn [quote_body] in Unit; rewrite app_nil_r in Unit; exact Unit|].
  destruct (is_low_surrogate d) eqn:Lo; [|exact Unit].
  unfold is_high_surrogate in H. unfold is_low_surrogate in Lo.
  rewrite andb_true_iff, !N.leb_le in H, Lo.
  change ((c :: d :: quote_body t') ++ 34 :: rest)
    with (c :: d :: (quote_body t' ++ 34 :: rest)).
  rewrite parse_raw by lia. rewrite parse_raw by lia.
  rewrite (IH (length t') ltac:(cbn; lia) t' eq_refl). reflexivity.
Qed.

(* ================================================================== *)
(** * [JSON.parse] after [JSON.stringify] *)
(* ================================================================== *)

(** Induction on a JSON value, through its arrays and objects. *)
Section JsonInduction.
Variable P : json -> Prop.
Hypothesis P_null : P JNull.
Hypothesis P_bool : forall b, P (JBool b).
Hypothesis P_num : forall n, P (JNum n).
Hypothesis P_str : forall s, P (JStr s).
Hypothesis P_arr : forall l, Forall P l -> P (JArr l).
Hypothesis P_obj : forall l, Forall (fun kv => P (snd kv)) l -> P (JObj l).

Fixpoint json_induction (v : json) : P v :=
  match v with
  | JNull => P_null
  | JBool b => P_bool b
  | JNum n => P_num n
  | JStr s => P_str s
  | JArr l =>
      P_arr l
        ((fix items (l : list json) : Forall P l :=
            match l with
            | [] => Forall_nil P
            | x :: l' => Forall_cons x (json_induction x) (items l')
            end) l)
  | JObj l =>
      P_obj l
        ((fix members (l : list (list N * json)) : Forall (fun kv => P (snd kv)) l :=
            match l with
            | [] => Forall_nil _
            | kv :: l' => Forall_cons kv (json_induction (snd kv)) (members l')
            end) l)
  end.
End JsonInduction.

(** More fuel does not change what was parsed. *)
Lemma parse_more_fuel (f : nat) :
  (forall s f', (f <= f')%nat -> parse_value f s <> OutOfFuel ->
                parse_value f' s = parse_value f s) /\
  (forall s f', (f <= f')%nat -> parse_elements f s <> OutOfFuel ->
                parse_elements f' s = parse_elements f s) /\
  (forall s f', (f <= f')%nat -> parse_members f s <> OutOfFuel ->
                parse_members f' s = parse_members f s).
Proof.
  induction f as [|f (IHv & IHe & IHm)];
    [repeat split; intros s f' _ H; contradiction H; reflexivity|].
  assert (Sub : forall (A : Type) (g : nat -> list N -> presult A),
             (forall s f', (f <= f')%nat -> g f s <> OutOfFuel -> g f' s = g f s) ->
             forall s f', (f <= f')%nat ->
               g f' s = g f s \/ g f s = OutOfFuel).
  { intros A g IH s f' Le.
    assert (D : g f s = OutOfFuel \/ g f s <> OutOfFuel)
      by (destruct (g f s); [right; discriminate.. | left; reflexivity]).
    destruct D as [D | D]; [right; exact D | left; apply IH; assumption]. }
  split; [|split]; intros s [|f'] Le NF; try lia; apply le_S_n in Le.
  - cbn [parse_value] in *.
    destruct (skip_ws s) as [|c t]; [reflexivity|].
    destruct (c =? 123).
    { destruct (expect 125 (skip_ws t)); [reflexivity|].
      destruct (Sub _ parse_members IHm t f' Le) as [-> | E]; [reflexivity|].
      rewrite E in NF. contradiction NF; reflexivity. }
    destruct (c =? 91); [|reflexivity].
    destruct (expect 93 (skip_ws t)); [reflexivity|].
    destruct (Sub _ parse_elements IHe t f' Le) as [-> | E]; [reflexivity|].
    rewrite E in NF. contradiction NF; reflexivity.
  - cbn [parse_elements] in *.
    destruct (Sub _ parse_value IHv s f' Le) as [-> | E];
      [|rewrite E in NF; contradiction NF; reflexivity].
    destruct (parse_value f s) as [v r| |]; try reflexivity.
    destruct (skip_ws r) as [|c r']; [reflexivity|].
    destruct (c =? 44); [|reflexivity].
    destruct (Sub _ parse_elements IHe r' f' Le) as [-> | E]; [reflexivity|].
    rewrite E in NF. contradiction NF; reflexivity.
  - cbn [parse_members] in *.
    destruct (expect 34 (skip_ws s)) as [t|]; [|reflexivity].
    destruct (parse_string_body t) as [[k r]|]; [|reflexivity].
    destruct (expect 58 (skip_ws r)) as [r1|]; [|reflexivity].
    destruct (Sub _ parse_value IHv r1 f' Le) as [-> | E];
      [|rewrite E in NF; contradiction NF; reflexivity].
    destruct (parse_value f r1) as [v r2| |]; try reflexivity.
    destruct (skip_ws r2) as [|c r3]; [reflexivity|].
    destruct (c =? 44); [|reflexivity].
    destruct (Sub _ parse_members IHm r3 f' Le) as [-> | E]; [reflexivity|].
    rewrite E in NF. contradiction NF; reflexivity.
Qed.

Lemma parse_value_more (f f' : nat) (s : list N) (v : json) (r : list N) :
  (f <= f')%nat -> parse_value f s = Parsed v r -> parse_value f' s = Parsed v r.
Proof.
  intros Le H. rewrite <- H. apply (proj1 (parse_more_fuel f)); [exact Le|].
  rewrite H. discriminate.
Qed.

Lemma parse_elements_more (f f' : nat) (s : list N) (l : list json) (r : list N) :
  (f <= f')%nat -> parse_elements f s = Parsed l r -> parse_elements f' s = Parsed l r.
Proof.
  intros Le H. rewrite <- H. apply (proj1 (proj2 (parse_more_fuel f))); [exact Le|].
  rewrite H. discriminate.
Qed.

Lemma parse_members_more (f f' : nat) (s : list N) (l : list (list N * json))
    (r : list N) :
  (f <= f')%nat -> parse_members f s = Parsed l r -> parse_members f' s = Parsed l r.
Proof.
  intros Le H. rewrite <- H. apply (proj2 (proj2 (parse_more_fuel f))); [exact Le|].
  rewrite H. discriminate.
Qed.

(** What [JSON_parse] returns is what any sufficient bound returns. *)
Lemma JSON_parse_parsed (text : list N) (f : nat) (v : json) (rest : list N) :
  parse_value f text = Parsed v rest -> skip_ws rest = [] ->
  JSON_parse text = Ok v.
Proof.
  intros H W. unfold JSON_parse.
  assert (E : parse_value (S (2 * length text)) text = Parsed v rest).
  { destruct (Nat.le_gt_cases f (S (2 * length text))) as [Le|Gt].
    - apply (parse_value_more f _ _ _ _ Le H).
    - rewrite <- H. symmetry.
      apply (proj1 (parse_more_fuel (S (2 * length text)))); [lia|].
      apply parse_value_fuel. }
  rewrite E, W. reflexivity.
Qed.

(** A value whose numbers are written without trailing zeros, as
    [JSON.parse] builds them. *)
#[local] Unset Elimination Schemes.
Inductive canonical : json -> Prop :=
| canonical_null : canonical JNull
| canonical_bool (b : bool) : canonical (JBool b)
| canonical_num (n : number) : num_norm n = n -> canonical (JNum n)
| canonical_str (s : list N) : canonical (JStr s)
| canonical_arr (l : list json) : Forall canonical l -> canonical (JArr l)
| canonical_obj (l : list (list N * json)) :
    Forall (fun kv => canonical (snd kv)) l -> canonical (JObj l).
#[local] Set Elimination Schemes.

Lemma canonical_zero_scale (m : Z) (sc : nat) :
  num_norm (Num m sc) = Num m sc -> Z.abs_N m = 0 -> sc = 0%nat.
Proof.
  intros Canon Z0. assert (m = 0%Z) by lia. subst m.
  unfold num_norm in Canon. cbn in Canon. rewrite num_norm_aux_zero in Canon.
  congruence.
Qed.

(** The characters of a number: a sign, digits and a point; the first
    is a sign or a digit. *)
Definition number_char (c : N) : Prop := c = 45 \/ c = 46 \/ is_digit c = true.

Lemma num_to_str_chars (a : number) :
  num_norm a = a ->
  Forall number_char (num_to_str a) /\
  exists c t, num_to_str a = c :: t /\ (c = 45 \/ is_digit c = true).
Proof.
  intros Canon. destruct a as [m sc].
  unfold num_to_str. rewrite Canon. cbn [mantissa scale].
  destruct (number_layout (Z.abs_N m) sc (canonical_zero_scale m sc Canon))
    as (_ & Di & Df & _ & Head).
  set (ds' := repeat 48 (S sc - length (digits_of_N (Z.abs_N m)))
              ++ digits_of_N (Z.abs_N m)) in *.
  set (ip := firstn (length ds' - sc) ds') in *.
  set (fp := skipn (length ds' - sc) ds') in *.
  assert (Digits : forall l, Forall (fun c => is_digit c = true) l ->
                             Forall number_char l).
  { intros l. apply Forall_impl. unfold number_char. auto. }
  split.
  - apply Forall_app. split.
    + destruct (m <? 0)%Z; constructor; [left; reflexivity | constructor].
    + apply Forall_app. split; [apply Digits, Di|].
      destruct fp; [constructor|].
      constructor; [right; left; reflexivity | apply Digits, Df].
  - destruct (m <? 0)%Z.
    + eexists _, _. split; [reflexivity | left; reflexivity].
    + destruct Head as [-> | (d & t & -> & _ & Dd)]; cbn [app];
        eexists _, _; (split; [reflexivity | right; auto]).
Qed.

(** ** White space *)

Lemma skip_ws_spaces (n : nat) (s : list N) : skip_ws (spaces n ++ s) = skip_ws s.
Proof. induction n as [|n IH]; [reflexivity | exact IH]. Qed.

Lemma skip_ws_line (n : nat) (s : list N) :
  skip_ws (10 :: spaces n ++ s) = skip_ws s.
Proof. cbn. apply skip_ws_spaces. Qed.

Lemma skip_ws_none (c : N) (s : list N) : is_ws c = false -> skip_ws (c :: s) = c :: s.
Proof. intros H. cbn. rewrite H. reflexivity. Qed.

Lemma parse_value_skip (f : nat) (s1 s2 : list N) :
  skip_ws s1 = skip_ws s2 -> parse_value f s1 = parse_value f s2.
Proof. intros E. destruct f; [reflexivity|]. cbn [parse_value]. rewrite E. reflexivity. Qed.

Lemma parse_elements_skip (f : nat) (s1 s2 : list N) :
  skip_ws s1 = skip_ws s2 -> parse_elements f s1 = parse_elements f s2.
Proof.
  intros E. destruct f; [reflexivity|]. cbn [parse_elements].
  rewrite (parse_value_skip f s1 s2 E). reflexivity.
Qed.

Lemma parse_members_skip (f : nat) (s1 s2 : list N) :
  skip_ws s1 = skip_ws s2 -> parse_members f s1 = parse_members f s2.
Proof. intros E. destruct f; [reflexivity|]. cbn [parse_members]. rewrite E. reflexivity. Qed.

(** ** The first character of a value *)

Definition opens_value (c : N) : Prop :=
  is_ws c = false /\ c <> 93 /\ c <> 125.

Lemma stringify_head (ind : nat) (v : json) :
  canonical v -> exists c t, stringify ind v = c :: t /\ opens_value c.
Proof.
  assert (Lit : forall c t, is_ws c = false -> c <> 93 -> c <> 125 ->
                  exists c' t', c :: t = c' :: t' /\ opens_value c').
  { intros c t W B C. exists c, t. repeat split; assumption. }
  intros C. destruct v as [|[|]|n|s|[|x l]|[|kv l]]; cbn [stringify];
    try (apply Lit; [reflexivity | discriminate | discriminate]).
  inversion C as [| |n' Canon| | |]; subst.
  destruct (num_to_str_chars n Canon) as (_ & c & t & E & Hc).
  exists c, t. split; [exact E|]. unfold opens_value.
  destruct Hc as [-> | D]; [repeat split; discriminate|].
  apply is_digit_spec in D. unfold is_ws.
  repeat split; try lia.
  repeat (apply orb_false_iff; split); apply N.eqb_neq; lia.
Qed.

(** ** Values *)

Ltac flatten_app := repeat first [rewrite <- app_assoc | progress cbn [app]].

(** [stringify] of a value, followed by a text that starts a new item or
    a new line, is parsed to the value and leaves that text. *)
Definition reads_back (v : json) : Prop :=
  forall ind rest, delimited rest = true ->
    exists f, parse_value f (stringify ind v ++ rest) = Parsed v rest.

Definition items_text (ind : nat) (l : list json) : list N :=
  join (44 :: 10 :: spaces ind) (map (stringify ind) l).

Definition member_text (ind : nat) (kv : list N * json) : list N :=
  quote (fst kv) ++ [58; 32] ++ stringify ind (snd kv).

Definition members_text (ind : nat) (l : list (list N * json)) : list N :=
  join (44 :: 10 :: spaces ind) (map (member_text ind) l).

Lemma stringify_arr (ind : nat) (x : json) (l : list json) (rest : list N) :
  stringify ind (JArr (x :: l)) ++ rest
  = 91 :: 10 :: spaces (2 + ind) ++
    (items_text (2 + ind) (x :: l) ++ 10 :: spaces ind ++ 93 :: rest).
Proof.
  cbn [stringify]. unfold items_text.
  flatten_app. reflexivity.
Qed.

Lemma stringify_obj (ind : nat) (kv : list N * json) (l : list (list N * json))
    (rest : list N) :
  stringify ind (JObj (kv :: l)) ++ rest
  = 123 :: 10 :: spaces (2 + ind) ++
    (members_text (2 + ind) (kv :: l) ++ 10 :: spaces ind ++ 125 :: rest).
Proof.
  cbn [stringify]. unfold members_text, member_text.
  flatten_app. reflexivity.
Qed.

Lemma items_read_back (l : list json) :
  l <> [] -> Forall reads_back l ->
  forall ind ind0 rest,
  exists f, parse_elements f
              (items_text ind l ++ 10 :: spaces ind0 ++ 93 :: rest)
            = Parsed l rest.
Proof.
  intros NE H ind ind0 rest. induction H as [|x l Hx Hl IH]; [contradiction|].
  destruct l as [|y l'].
  - unfold items_text. cbn [map join].
    destruct (Hx ind (10 :: spaces ind0 ++ 93 :: rest) eq_refl) as (f & P).
    exists (S f). cbn [parse_elements]. rewrite P, skip_ws_line, skip_ws_none by reflexivity.
    reflexivity.
  - destruct (IH ltac:(discriminate)) as (f2 & P2).
    assert (E : items_text ind (x :: y :: l') ++ 10 :: spaces ind0 ++ 93 :: rest
                = stringify ind x ++
                  44 :: 10 :: spaces ind ++
                  (items_text ind (y :: l') ++ 10 :: spaces ind0 ++ 93 :: rest)).
    { unfold items_text. cbn [map join]. flatten_app. reflexivity. }
    rewrite E.
    destruct (Hx ind (44 :: 10 :: spaces ind ++
                      (items_text ind (y :: l') ++ 10 :: spaces ind0 ++ 93 :: rest))
                 eq_refl) as (f1 & P1).
    exists (S (Nat.max f1 f2)). cbn [parse_elements].
    rewrite (parse_value_more f1 _ _ _ _ (Nat.le_max_l f1 f2) P1).
    rewrite skip_ws_none by reflexivity. cbn [N.eqb Pos.eqb].
    rewrite (parse_elements_skip _ _ _ (skip_ws_line ind _)).
    rewrite (parse_elements_more f2 _ _ _ _ (Nat.le_max_r f1 f2) P2).
    reflexivity.
Qed.

Lemma member_read (f : nat) (ind : nat) (k : list N) (v : json) (tail : list N) :
  parse_value f (stringify ind v ++ tail) = Parsed v tail ->
  forall s, s = member_text ind (k, v) ++ tail ->
  expect 34 (skip_ws s) = Some (quote_body k ++ 34 :: 58 :: 32 :: stringify ind v ++ tail) /\
  parse_string_body (quote_body k ++ 34 :: 58 :: 32 :: stringify ind v ++ tail)
  = Some (k, 58 :: 32 :: stringify ind v ++ tail) /\
  expect 58 (skip_ws (58 :: 32 :: stringify ind v ++ tail))
  = Some (32 :: stringify ind v ++ tail) /\
  parse_value f (32 :: stringify ind v ++ tail) = Parsed v tail.
Proof.
  intros P s ->. unfold member_text, quote. cbn [fst snd].
  repeat split.
  - cbn [app]. rewrite skip_ws_none by reflexivity. cbn [expect].
    rewrite N.eqb_refl. rewrite <- !app_assoc. reflexivity.
  - apply parse_quote_body.
  - rewrite <- P. apply parse_value_skip. reflexivity.
Qed.

Lemma members_read_back (l : list (list N * json)) :
  l <> [] -> Forall (fun kv => reads_back (snd kv)) l ->
  forall ind ind0 rest,
  exists f, parse_members f
              (members_text ind l ++ 10 :: spaces ind0 ++ 125 :: rest)
            = Parsed l rest.
Proof.
  intros NE H ind ind0 rest. induction H as [|[k v] l Hx Hl IH]; [contradiction|].
  cbn [snd] in Hx. destruct l as [|y l'].
  - unfold members_text. cbn [map join].
    destruct (Hx ind (10 :: spaces ind0 ++ 125 :: rest) eq_refl) as (f & P).
    destruct (member_read f ind k v _ P _ eq_refl) as (A & B & C & D).
    exists (S f). cbn [parse_members]. rewrite A, B, C, D.
    rewrite skip_ws_line, skip_ws_none by reflexivity. reflexivity.
  - destruct (IH ltac:(discriminate)) as (f2 & P2).
    assert (E : members_text ind ((k, v) :: y :: l') ++ 10 :: spaces ind0 ++ 125 :: rest
                = member_text ind (k, v) ++
                  44 :: 10 :: spaces ind ++
                  (members_text ind (y :: l') ++ 10 :: spaces ind0 ++ 125 :: rest)).
    { unfold members_text. cbn [map join]. flatten_app. reflexivity. }
    rewrite E.
    destruct (Hx ind (44 :: 10 :: spaces ind ++
                      (members_text ind (y :: l') ++ 10 :: spaces ind0 ++ 125 :: rest))
                 eq_refl) as (f1 & P1).
    apply (parse_value_more f1 (Nat.max f1 f2) _ _ _ (Nat.le_max_l f1 f2)) in P1.
    destruct (member_read _ ind k v _ P1 _ eq_refl) as (A & B & C & D).
    exists (S (Nat.max f1 f2)). cbn [parse_members]. rewrite A, B, C, D.
    rewrite skip_ws_none by reflexivity. cbn [N.eqb Pos.eqb].
    rewrite (parse_members_skip _ _ _ (skip_ws_line ind _)).
    rewrite (parse_members_more f2 _ _ _ _ (Nat.le_max_r f1 f2) P2).
    reflexivity.
Qed.

Lemma literal_reads_back (v : json) (c : N) (word : list N) :
  (forall ind, stringify ind v = c :: word) ->
  (forall rest, parse_value 1 (c :: word ++ rest) = Parsed v rest) ->
  reads_back v.
Proof.
  intros S P ind rest _. exists 1%nat. rewrite S. apply P.
Qed.

Theorem stringify_reads_back (v : json) : canonical v -> reads_back v.
Proof.
  induction v as [|b|n|s|l IH|l IH] using json_induction; intros C.
  - apply literal_reads_back with (c := 110) (word := lit "ull"); reflexivity.
  - destruct b.
    + apply literal_reads_back with (c := 116) (word := lit "rue"); reflexivity.
    + apply literal_reads_back with (c := 102) (word := lit "alse"); reflexivity.
  - inversion C as [| |n' Canon| | |]; subst.
    intros ind rest R. exists 1%nat. cbn [stringify].
    destruct (num_to_str_chars n Canon) as (_ & c & t & E & Hc).
    pose proof (parse_number_num_to_str n rest Canon R) as P.
    rewrite E in P |- *. cbn [app] in P |- *. cbn [parse_value].
    assert (W : is_ws c = false /\ (c =? 123) = false /\ (c =? 91) = false /\
                (c =? 34) = false /\ (c =? 116) = false /\ (c =? 102) = false /\
                (c =? 110) = false).
    { destruct Hc as [-> | D]; [repeat split; reflexivity|].
      apply is_digit_spec in D. unfold is_ws.
      repeat split; try (apply N.eqb_neq; lia).
      repeat (apply orb_false_iff; split); apply N.eqb_neq; lia. }
    destruct W as (W & W1 & W2 & W3 & W4 & W5 & W6).
    rewrite skip_ws_none by exact W. rewrite W1, W2, W3, W4, W5, W6, P. reflexivity.
  - intros ind rest _. exists 1%nat. cbn [stringify]. unfold quote.
    cbn [app parse_value]. rewrite skip_ws_none by reflexivity. cbn [N.eqb Pos.eqb].
    rewrite <- app_assoc. cbn [app]. rewrite parse_quote_body. reflexivity.
  - inversion C as [| | | |l' Cl|]; subst.
    assert (H : Forall reads_back l).
    { rewrite Forall_forall in *. intros x Hx. apply IH; [exact Hx | apply Cl, Hx]. }
    intros ind rest _. destruct l as [|x l].
    + exists 1%nat. reflexivity.
    + destruct (items_read_back (x :: l) ltac:(discriminate) H (2 + ind)%nat ind rest)
        as (f & P).
      assert (Cx : canonical x) by (inversion Cl; assumption).
      destruct (stringify_head (2 + ind) x Cx) as (c & t & E & W & N93 & _).
      exists (S f). rewrite stringify_arr. cbn [parse_value].
      rewrite skip_ws_none by reflexivity. cbn [N.eqb Pos.eqb].
      rewrite skip_ws_line.
      rewrite (parse_elements_skip f _ _ (skip_ws_line (2 + ind) _)), P.
      replace (expect 93 (skip_ws (items_text (2 + ind) (x :: l) ++
                                   10 :: spaces ind ++ 93 :: rest)))
        with (@None (list N)); [reflexivity|].
      unfold items_text. cbn [map]. destruct l as [|y l']; cbn [join map];
        rewrite E; cbn [app]; rewrite skip_ws_none by exact W; cbn [expect];
        replace (c =? 93) with false by (symmetry; apply N.eqb_neq; exact N93);
        reflexivity.
  - inversion C as [| | | | |l' Cl]; subst.
    assert (H : Forall (fun kv => reads_back (snd kv)) l).
    { rewrite Forall_forall in *. intros x Hx. apply IH; [exact Hx | apply Cl, Hx]. }
    intros ind rest _. destruct l as [|[k v] l].
    + exists 1%nat. reflexivity.
    + destruct (members_read_back ((k, v) :: l) ltac:(discriminate) H
                  (2 + ind)%nat ind rest) as (f & P).
      exists (S f). rewrite stringify_obj. cbn [parse_value].
      rewrite skip_ws_none by reflexivity. cbn [N.eqb Pos.eqb].
      rewrite skip_ws_line.
      rewrite (parse_members_skip f _ _ (skip_ws_line (2 + ind) _)), P.
      replace (expect 125 (skip_ws (members_text (2 + ind) ((k, v) :: l) ++
                                    10 :: spaces ind ++ 125 :: rest)))
        with (@None (list N)); [reflexivity|].
      unfold members_text, member_text, quote. cbn [map fst].
      destruct l as [|y l']; cbn [join map app];
        rewrite skip_ws_none by reflexivity; reflexivity.
Qed.

(** [JSON.parse(JSON.stringify(v, null, 2))] is [v]. *)
Corollary JSON_parse_stringify (v : json) :
  canonical v -> JSON_parse (stringify 0 v) = Ok v.
Proof.
  intros C. destruct (stringify_reads_back v C 0%nat [] eq_refl) as (f & P).
  rewrite app_nil_r in P. apply (JSON_parse_parsed _ f v [] P). reflexivity.
Qed.

(* ================================================================== *)
(** * The export is imported back, braces apart *)
(* ================================================================== *)

(** ** Finding the JSON object in the export *)

Definition brace_free (s : list N) : bool := forallb (fun c => negb (c =? 123)) s.

Lemma brace_free_app (a b : list N) :
  brace_free (a ++ b) = brace_free a && brace_free b.
Proof. apply forallb_app. Qed.

Lemma from_first_open_skips (header t : list N) :
  brace_free header = true -> from_first_open (header ++ 123 :: t) = Some t.
Proof.
  induction header as [|c header IH]; cbn; [reflexivity|].
  rewrite andb_true_iff. intros (C & H). apply negb_true_iff in C.
  rewrite C. apply IH. exact H.
Qed.

Lemma upto_last_close_whole (t : list N) :
  upto_last_close (t ++ [125]) = Some (t ++ [125]).
Proof.
  induction t as [|c t IH]; [reflexivity|]. cbn [app upto_last_close].
  rewrite IH. reflexivity.
Qed.

Lemma match_braces_object (header body : list N) :
  brace_free header = true ->
  match_braces (header ++ 123 :: body ++ [125]) = Some (123 :: body ++ [125]).
Proof.
  intros H. unfold match_braces.
  rewrite (from_first_open_skips header _ H), upto_last_close_whole. reflexivity.
Qed.

Lemma stringify_object_braces (kv : list N * json) (l : list (list N * json)) :
  stringify 0 (JObj (kv :: l))
  = 123 :: (10 :: spaces 2 ++ members_text 2 (kv :: l) ++ [10]) ++ [125].
Proof.
  rewrite <- (app_nil_r (stringify 0 (JObj (kv :: l)))), stringify_obj.
  change (spaces 0) with (@nil N). change (2 + 0)%nat with 2%nat.
  generalize (members_text 2 (kv :: l)) (spaces 2). intros m sp.
  cbn [app]. f_equal. f_equal. rewrite <- !app_assoc. reflexivity.
Qed.

(** ** The header has no brace of its own *)

Lemma brace_free_number (a : number) : num_norm a = a -> brace_free (num_to_str a) = true.
Proof.
  intros C. destruct (num_to_str_chars a C) as (H & _).
  unfold brace_free. rewrite forallb_forall. rewrite Forall_forall in H.
  intros c Hc. specialize (H c Hc). apply negb_true_iff, N.eqb_neq.
  destruct H as [-> | [-> | D]]; try discriminate.
  apply is_digit_spec in D. lia.
Qed.

Lemma brace_free_digits (n : N) : brace_free (digits_of_N n) = true.
Proof.
  pose proof (digits_of_N_digits n) as H.
  unfold brace_free. rewrite forallb_forall. rewrite Forall_forall in H.
  intros c Hc. specialize (H c Hc). apply negb_true_iff, N.eqb_neq.
  apply is_digit_spec in H. lia.
Qed.

Definition num_canonical (n : number) : bool :=
  (mantissa (num_norm n) =? mantissa n)%Z && (scale (num_norm n) =? scale n)%nat.

Lemma num_canonical_spec (n : number) : num_canonical n = true -> num_norm n = n.
Proof.
  unfold num_canonical. rewrite andb_true_iff, Z.eqb_eq, Nat.eqb_eq.
  destruct (num_norm n), n. cbn. intros (-> & ->). reflexivity.
Qed.

Definition opt_canonical (x : opt number) : bool :=
  match x with
  | Val n => num_canonical n
  | _ => true
  end.

Definition nonempty (s : list N) : bool :=
  match s with [] => false | _ :: _ => true end.

(** A hike that can be exported: the required texts are there and the
    length is not zero; its numbers are in canonical form; and no text
    that [exportHikeToJson] copies into the header has an opening
    brace. *)
Definition exportable (hike : Hike.t) : bool :=
  nonempty (Hike.name hike) && nonempty (Hike.location hike)
  && nonempty (Hike.date hike) && nonempty (Hike.difficulty hike)
  && negb (num_is_zero (Hike.lengthKm hike))
  && num_canonical (Hike.lengthKm hike)
  && opt_canonical (Hike.elevationGainM hike) && opt_canonical (Hike.rating hike)
  && opt_canonical (Hike.latitude hike) && opt_canonical (Hike.longitude hike)
  && brace_free (Hike.name hike) && brace_free (Hike.location hike)
  && brace_free (Hike.date hike) && brace_free (Hike.difficulty hike)
  && brace_free (shown_str (Hike.description hike)).

Lemma brace_free_shown_num (x : opt number) :
  opt_canonical x = true -> brace_free (shown_num x) = true.
Proof.
  destruct x as [| |n]; try reflexivity. cbn.
  intros C. apply brace_free_number, num_canonical_spec, C.
Qed.

Lemma readableHeader_brace_free (hike : Hike.t) (observations : list Observation.t) :
  exportable hike = true -> brace_free (readableHeader hike observations) = true.
Proof.
  unfold exportable. rewrite !andb_true_iff.
  intros ((((((((((((((_ & _) & _) & _) & _) & Ck) & Ce) & Cr) & _) & _)
             & Bn) & Bl) & Bd) & Bf) & Bs).
  unfold readableHeader.
  rewrite !brace_free_app.
  rewrite Bn, Bl, Bd, Bf.
  rewrite (brace_free_number _ (num_canonical_spec _ Ck)).
  assert (P : brace_free (if Hike.parkingAvailable hike
                          then lit "Available" else lit "Unavailable") = true)
    by (destruct (Hike.parkingAvailable hike); reflexivity).
  assert (E : brace_free (if truthy_num (Hike.elevationGainM hike)
                          then lit "Elevation Gain: " ++
                               shown_num (Hike.elevationGainM hike) ++ lit " m" ++ nl
                          else []) = true).
  { destruct (truthy_num (Hike.elevationGainM hike)); [|reflexivity].
    rewrite !brace_free_app, (brace_free_shown_num _ Ce). reflexivity. }
  assert (R : brace_free (if truthy_num (Hike.rating hike)
                          then lit "Rating: " ++ shown_num (Hike.rating hike) ++
                               lit "/5" ++ nl
                          else []) = true).
  { destruct (truthy_num (Hike.rating hike)); [|reflexivity].
    rewrite !brace_free_app, (brace_free_shown_num _ Cr). reflexivity. }
  assert (D : brace_free (if truthy_str (Hike.description hike)
                          then lit "Description: " ++
                               shown_str (Hike.description hike) ++ nl
                          else []) = true).
  { destruct (truthy_str (Hike.description hike)); [|reflexivity].
    rewrite !brace_free_app, Bs. reflexivity. }
  assert (O : brace_free (match observations with
                          | _ :: _ => lit "Observations: " ++
                                      digits_of_N (N.of_nat (length observations)) ++ nl
                          | [] => []
                          end) = true).
  { destruct observations; [reflexivity|].
    rewrite !brace_free_app, brace_free_digits. reflexivity. }
  rewrite P, E, R, D, O. reflexivity.
Qed.

(** ** Reading the properties of the exported object *)

(** The property of name [k] in an object literal: the value of the
    first entry of that name, when it is not [undefined]. *)
Definition property (k : list N) (l : list (list N * option json)) : option json :=
  match find (fun kv => str_eqb k (fst kv)) l with
  | Some (_, o) => o
  | None => None
  end.

Lemma assoc_last_absent (k : list N) (l : list (list N * option json)) :
  ~ In k (map fst l) -> assoc_last k (own_properties l) = None.
Proof.
  induction l as [|[k' [v|]] l IH]; cbn; intros H; [reflexivity| |]; intuition.
  rewrite H. destruct (str_eqb k k') eqn:E; [|reflexivity].
  apply str_eqb_eq in E. congruence.
Qed.

Lemma assoc_last_own_properties (k : list N) (l : list (list N * option json)) :
  NoDup (map fst l) -> assoc_last k (own_properties l) = property k l.
Proof.
  unfold property. induction l as [|[k' o] l IH]; [reflexivity|].
  cbn [map fst]. intros D. inversion D as [|? ? Fresh D']; subst.
  cbn [find fst]. destruct (str_eqb k k') eqn:E.
  - apply str_eqb_eq in E. subst k'.
    destruct o as [v|]; cbn [own_properties assoc_last].
    + rewrite (assoc_last_absent k l Fresh), str_eqb_refl. reflexivity.
    + apply assoc_last_absent. exact Fresh.
  - destruct o as [v|]; cbn [own_properties assoc_last].
    + rewrite (IH D'), E.
      destruct (find (fun kv => str_eqb k (fst kv)) l) as [[? [?|]]|]; reflexivity.
    + apply IH. exact D'.
Qed.

Ltac distinct_names :=
  repeat (constructor; [cbn; intuition discriminate|]); constructor.

Lemma optional_json_of_opt (A : Type) (f : A -> json) (g : json -> option A)
    (x : opt A) :
  (forall a, g (f a) = Some a) -> (forall a, f a <> JNull) ->
  optional g (json_of_opt f x) = Some x.
Proof.
  intros Inv NotNull. destruct x as [| |a]; try reflexivity. cbn.
  specialize (NotNull a). specialize (Inv a).
  destruct (f a); try contradiction; rewrite Inv; reflexivity.
Qed.

Lemma as_observation_json (o : ObservationExportFormat.t) :
  as_observation (json_of_observation o) = Some o.
Proof.
  destruct o as [obs ts [| |c]]; reflexivity.
Qed.

Lemma as_observations_json (l : list ObservationExportFormat.t) :
  as_observations (JArr (map json_of_observation l)) = Some l.
Proof.
  unfold as_observations. induction l as [|o l IH]; [reflexivity|].
  cbn [map all_some]. rewrite as_observation_json, IH. reflexivity.
Qed.

(** The object literal of [exportHikeToJson]. *)
Definition export_literal (e : HikeExportFormat.t) : list (list N * option json) :=
  [ (lit "name", Some (JStr (HikeExportFormat.name e)));
    (lit "location", Some (JStr (HikeExportFormat.location e)));
    (lit "date", Some (JStr (HikeExportFormat.date e)));
    (lit "parkingAvailable", Some (JBool (HikeExportFormat.parkingAvailable e)));
    (lit "lengthKm", Some (JNum (HikeExportFormat.lengthKm e)));
    (lit "difficulty", Some (JStr (HikeExportFormat.difficulty e)));
    (lit "description", json_of_opt JStr (HikeExportFormat.description e));
    (lit "elevationGainM", json_of_opt JNum (HikeExportFormat.elevationGainM e));
    (lit "rating", json_of_opt JNum (HikeExportFormat.rating e));
    (lit "latitude", json_of_opt JNum (HikeExportFormat.latitude e));
    (lit "longitude", json_of_opt JNum (HikeExportFormat.longitude e));
    (lit "observations",
      json_of_opt (fun l => JArr (map json_of_observation l))
        (HikeExportFormat.observations e)) ].

Lemma get_json_of_export (e : HikeExportFormat.t) (k : String.string) :
  get (json_of_export e) k = property (lit k) (export_literal e).
Proof.
  unfold get, json_of_export. fold (export_literal e).
  apply assoc_last_own_properties. cbn [export_literal map fst]. distinct_names.
Qed.

(** The exported object, read as the interface declares it, is the
    export data. *)
Lemma as_HikeExportFormat_json (e : HikeExportFormat.t) :
  as_HikeExportFormat (json_of_export e) = Some e.
Proof.
  unfold as_HikeExportFormat. rewrite !get_json_of_export.
  cbn [property export_literal find fst str_eqb lit map
       String.list_ascii_of_string].
  cbn - [json_of_opt optional as_observations json_of_observation].
  rewrite !(optional_json_of_opt _ JStr as_str) by (intros; (reflexivity || discriminate)).
  rewrite !(optional_json_of_opt _ JNum as_num) by (intros; (reflexivity || discriminate)).
  rewrite (optional_json_of_opt _ (fun l => JArr (map json_of_observation l))
             as_observations)
    by (intros; (apply as_observations_json || discriminate)).
  destruct e; reflexivity.
Qed.

Lemma required_fields_of_export (e : HikeExportFormat.t) :
  nonempty (HikeExportFormat.name e) = true ->
  nonempty (HikeExportFormat.location e) = true ->
  nonempty (HikeExportFormat.date e) = true ->
  nonempty (HikeExportFormat.difficulty e) = true ->
  num_is_zero (HikeExportFormat.lengthKm e) = false ->
  required_fields_present (json_of_export e) = true.
Proof.
  intros Hn Hl Hd Hf Hk. unfold required_fields_present.
  rewrite !get_json_of_export.
  cbn - [json_of_opt json_of_observation].
  rewrite Hk.
  destruct (HikeExportFormat.name e), (HikeExportFormat.location e),
    (HikeExportFormat.date e), (HikeExportFormat.difficulty e);
    try discriminate; reflexivity.
Qed.

(** ** The numbers of the exported object *)

Lemma canonical_own_properties (l : list (list N * option json)) :
  Forall (fun kv => match snd kv with Some v => canonical v | None => True end) l ->
  Forall (fun kv => canonical (snd kv)) (own_properties l).
Proof.
  induction 1 as [|[k [v|]] l H F IH]; cbn; [constructor | | exact IH].
  constructor; [exact H | exact IH].
Qed.

Lemma canonical_opt_num (x : opt number) :
  opt_canonical x = true ->
  match json_of_opt JNum x with Some v => canonical v | None => True end.
Proof.
  destruct x as [| |n]; cbn; intros C; try constructor.
  apply num_canonical_spec, C.
Qed.

Lemma canonical_opt_str (x : opt (list N)) :
  match json_of_opt JStr x with Some v => canonical v | None => True end.
Proof. destruct x; cbn; constructor. Qed.

Definition observation_canonical (o : ObservationExportFormat.t) : bool :=
  num_canonical (ObservationExportFormat.timestamp o).

Lemma canonical_observation (o : ObservationExportFormat.t) :
  observation_canonical o = true -> canonical (json_of_observation o).
Proof.
  intros C. unfold json_of_observation. constructor.
  apply canonical_own_properties.
  repeat constructor; cbn [snd].
  - apply num_canonical_spec, C.
  - apply canonical_opt_str.
Qed.

Lemma canonical_export (e : HikeExportFormat.t) :
  num_canonical (HikeExportFormat.lengthKm e) = true ->
  opt_canonical (HikeExportFormat.elevationGainM e) = true ->
  opt_canonical (HikeExportFormat.rating e) = true ->
  opt_canonical (HikeExportFormat.latitude e) = true ->
  opt_canonical (HikeExportFormat.longitude e) = true ->
  (forall l, HikeExportFormat.observations e = Val l ->
             forallb observation_canonical l = true) ->
  canonical (json_of_export e).
Proof.
  intros Ck Ce Cr Cla Clo Co. unfold json_of_export. constructor.
  apply canonical_own_properties.
  repeat (constructor; cbn [snd];
          try apply canonical_opt_str; try (apply canonical_opt_num; assumption);
          try (apply num_canonical_spec; assumption)).
  destruct (HikeExportFormat.observations e) as [| |l]; cbn; try constructor.
  specialize (Co l eq_refl). rewrite forallb_forall in Co.
  apply Forall_forall. intros v Hv. apply in_map_iff in Hv.
  destruct Hv as (o & <- & Ho). apply canonical_observation, Co, Ho.
Qed.

(** ** The round trip *)

Lemma exportHikeToJson_inv (hike : Hike.t) (w : World) (text : list N) (w' : World) :
  exportHikeToJson hike w = (Ok text, w') ->
  let observations :=
    map observation_of_row (SQL.select_observations (Hike.id hike) (store w)) in
  text = readableHeader hike observations ++
         stringify 0 (json_of_export (exportData hike observations)).
Proof.
  unfold exportHikeToJson. intros H. apply bind_ok_inv in H.
  destruct H as (obs & w1 & G & H). injection H as <- _.
  unfold getObservationsByHikeId in G. apply opened_read_inv in G.
  destruct G as (_ & _ & ->). reflexivity.
Qed.

Lemma select_observations_in (hikeId : option Z) (s : Store) (row : ObservationRow.t) :
  In row (SQL.select_observations hikeId s) -> In row (observations s).
Proof.
  unfold SQL.select_observations. intros H.
  apply (Permutation_in _ (sort_by_perm _ _)) in H.
  apply filter_In in H. tauto.
Qed.

(** Every hike that can be exported, on a store whose timestamps are in
    canonical form: the text of [exportHikeToJson] is decoded by
    [parseImportJson] to the exported object, and that object read as a
    [HikeExportFormat] is the export data, that is every field of the
    hike but [photoUri] and [addedToCalendar], and the text, timestamp
    and comments of each of its observations. *)
Theorem export_without_brace_is_imported_back
    (hike : Hike.t) (w : World) (text : list N) (w' : World) :
  exportable hike = true ->
  forallb (fun row => num_canonical (ObservationRow.timestamp row))
    (observations (store w)) = true ->
  exportHikeToJson hike w = (Ok text, w') ->
  let observations :=
    map observation_of_row (SQL.select_observations (Hike.id hike) (store w)) in
  let data := json_of_export (exportData hike observations) in
  parseImportJson text = Ok data /\
  as_HikeExportFormat data = Some (exportData hike observations).
Proof.
  intros X T E. apply exportHikeToJson_inv in E. cbv zeta in *.
  set (obs := map observation_of_row
                (SQL.select_observations (Hike.id hike) (store w))) in *.
  set (e := exportData hike obs) in *.
  split; [|apply as_HikeExportFormat_json].
  pose proof (readableHeader_brace_free hike obs X) as Header.
  unfold exportable in X. rewrite !andb_true_iff in X.
  destruct X as ((((((((((((((Hn & Hl) & Hd) & Hf) & Hk) & Ck) & Ce) & Cr) & Cla) & Clo)
                     & _) & _) & _) & _) & _).
  apply negb_true_iff in Hk.
  (* the object is what the parser is given *)
  assert (Obj : exists kv l, json_of_export e = JObj (kv :: l)).
  { unfold json_of_export. cbn [own_properties]. eauto. }
  destruct Obj as (kv & l & Obj).
  assert (Span : jsonString_of text = stringify 0 (json_of_export e)).
  { unfold jsonString_of. rewrite E, Obj, stringify_object_braces.
    rewrite (match_braces_object _ _ Header). reflexivity. }
  (* and it is read back *)
  assert (Canon : canonical (json_of_export e)).
  { apply canonical_export; try assumption.
    intros obs' Eo. injection Eo as <-.
    rewrite forallb_forall in T |- *. intros o Ho.
    apply in_map_iff in Ho. destruct Ho as (o' & <- & Ho).
    unfold obs in Ho. apply in_map_iff in Ho. destruct Ho as (row & <- & Hrow).
    apply select_observations_in in Hrow.
    apply (T row Hrow). }
  pose proof (parseImportJson_cases text) as Cases.
  rewrite Span, (JSON_parse_stringify _ Canon) in Cases.
  rewrite (required_fields_of_export e Hn Hl Hd Hf Hk) in Cases.
  rewrite Obj in Cases |- *. exact Cases.
Qed.

Example snowdon_is_imported_back :
  let w := snowdon_with_observation in
  let hike := hike_of_row (row_of_hike 1 snowdon) in
  exists text,
    fst (exportHikeToJson hike w) = Ok text /\
    parseImportJson text
    = Ok (json_of_export
            (exportData hike
               (map observation_of_row
                  (SQL.select_observations (Some 1%Z) (store w))))).
Proof.
  cbv zeta.
  destruct (exportHikeToJson (hike_of_row (row_of_hike 1 snowdon))
              snowdon_with_observation) as [[text|e] w'] eqn:E.
  - exists text. split; [reflexivity|].
    apply (export_without_brace_is_imported_back
             (hike_of_row (row_of_hike 1 snowdon)) snowdon_with_observation text w'
             eq_refl eq_refl E).
  - vm_compute in E. discriminate.
Qed.

(** ** A brace in the header *)

(** A valid hike whose name has a brace in it. *)
Definition devils_staircase : Hike.t :=
  Hike.mk None (lit "Devil's Staircase {north}") (lit "Glencoe, UK")
    (lit "2025-09-14") true (Num 95 1) (lit "Moderate")
    Undefined Undefined Undefined Undefined Undefined Undefined Undefined.

(** C2, on the code: the hike is saved and read back, its export is
    taken, and the parser rejects that export.  The span handed to
    [JSON.parse] starts at the brace of the line [Name: ...], which is
    the first of the text. *)
Theorem export_of_a_name_with_a_brace_is_not_imported :
  let w := snd (insertHike devils_staircase (startup empty_store [])) in
  let h := hike_of_row (row_of_hike 1 devils_staircase) in
  fst (getHikeById 1 w) = Ok (Some h) /\
  exists text,
    fst (exportHikeToJson h w) = Ok text /\
    starts_with (lit "{north}") (jsonString_of text) = true /\
    parseImportJson text = Throw (newError invalid_json_message).
Proof.
  cbv zeta. split; [vm_compute; reflexivity|].
  eexists. split; [vm_compute; reflexivity|].
  split; vm_compute; reflexivity.
Qed.

(* ================================================================== *)
(** * Beyond the written specification

    The sections that follow state what the code itself shows, function
    by function: the singleton connection of [openDatabase], the
    reading back of what [insertHike] and [insertObservation] write,
    what the updates and the deletes touch and what they leave, the
    import as a sequence of statements that is not a transaction, the
    edges of the two searches, the form validation of
    [lib/validation.ts], the event bus of [lib/events.ts] and the
    [getObservations] of the data provider. *)
(* ================================================================== *)

(* ================================================================== *)
(** * The connection and the schema *)
(* ================================================================== *)

(** What [openDatabase] leaves behind when it returns a connection: the
    promise is kept and the schema is marked as ensured. *)
Lemma openDatabase_ok_state (w : World) (db : Connection) (w1 : World) :
  openDatabase w = (Ok db, w1) ->
  dbPromise w1 = Some (Ok db) /\ schemaEnsured w1 = true.
Proof.
  unfold openDatabase.
  destruct (dbPromise w) as [[db0|e]|] eqn:P.
  - destruct (schemaEnsured w) eqn:S.
    + intros [= <- <-]. auto.
    + destruct (ensureSchema db0 w) as [[[]|e] w2] eqn:E; [|discriminate].
      apply ensureSchema_inv in E. destruct E as (_ & E2 & _).
      intros [= <- <-]. cbn. rewrite E2. auto.
  - discriminate.
  - destruct (openDatabaseAsync w) as [[db0|e] w0]; [|discriminate].
    cbn. destruct (schemaEnsured w0) eqn:S.
    + intros [= <- <-]. cbn. auto.
    + destruct (ensureSchema db0 (with_dbPromise (Some (Ok db0)) w0))
        as [[[]|e] w2] eqn:E; [|discriminate].
      apply ensureSchema_inv in E. destruct E as (_ & E2 & _).
      intros [= <- <-]. cbn. rewrite E2. auto.
Qed.

(** X1: once [openDatabase] has returned a connection, a further call
    returns the same connection and makes no call to the driver: the
    database is opened once and the schema statements are run once. *)
Theorem openDatabase_opens_once (w : World) (db : Connection) (w1 : World) :
  openDatabase w = (Ok db, w1) ->
  openDatabase w1 = (Ok db, w1).
Proof.
  intros H. apply openDatabase_ok_state in H. destruct H as (P & S).
  unfold openDatabase. rewrite P, S. reflexivity.
Qed.

(** The driver has a failure in store for its sixth call: the first
    [openDatabase] makes five calls, the second makes none and does not
    meet it. *)
Lemma openDatabase_opens_once_witness :
  let w := startup empty_store [None; None; None; None; None; Some storage_full] in
  let w1 := snd (openDatabase w) in
  openDatabase w1 = (Ok SQLite_default_connection, w1) /\
  pending w1 = [Some storage_full].
Proof.
  cbv zeta. split.
  - apply (openDatabase_opens_once
             (startup empty_store [None; None; None; None; None; Some storage_full])).
    reflexivity.
  - reflexivity.
Defined.

(** X2: when the driver refuses to open the database, the refusal is
    kept in [dbPromise]: every later call fails with the same error
    without asking the driver again, whatever it would answer. *)
Theorem refused_open_is_not_retried
    (s : Store) (e : thrown) (rest : list (option thrown)) :
  let w1 := snd (openDatabase (startup s (Some e :: rest))) in
  fst (openDatabase (startup s (Some e :: rest))) = Throw e /\
  pending w1 = rest /\
  openDatabase w1 = (Throw e, w1) /\
  (forall hike, insertHike hike w1 = (Throw e, w1)) /\
  (forall id, deleteHike id w1 = (Throw e, w1)) /\
  getAllHikes w1 = (Throw e, w1).
Proof.
  cbv zeta. repeat split.
Qed.

(** X3: when one of the four schema statements fails, [openDatabase]
    fails with its error, the connection is kept and the schema is not
    marked as ensured: the next call runs the four statements again. *)
Theorem failed_schema_is_run_again
    (s : Store) (e : thrown) (k : nat) (rest : list (option thrown)) :
  (k < 4)%nat ->
  let w := startup s (None :: repeat None k ++ Some e :: rest) in
  let w1 := snd (openDatabase w) in
  fst (openDatabase w) = Throw e /\
  store w1 = s /\
  dbPromise w1 = Some (Ok SQLite_default_connection) /\
  schemaEnsured w1 = false /\
  pending w1 = rest /\
  (firstn 4 rest = [None; None; None; None] ->
   openDatabase w1
   = (Ok SQLite_default_connection,
      mkWorld s (Some (Ok SQLite_default_connection)) true (skipn 4 rest))).
Proof.
  intros K. cbv zeta.
  destruct k as [|[|[|[|k]]]]; [| | | |lia]; cbn;
    (repeat split; try reflexivity);
    destruct rest as [|[a1|] [|[a2|] [|[a3|] [|[a4|] rest]]]]; cbn; intros F;
    try discriminate; reflexivity.
Qed.

Lemma failed_schema_is_run_again_witness :
  let w := startup empty_store [None; None; None; Some storage_full;
                                None; None; None; None] in
  fst (openDatabase w) = Throw storage_full /\
  fst (openDatabase (snd (openDatabase w))) = Ok SQLite_default_connection.
Proof.
  cbv zeta.
  destruct (failed_schema_is_run_again empty_store storage_full 2
              [None; None; None; None]) as (A & _ & _ & _ & _ & B); [lia|].
  split; [exact A|]. exact (f_equal fst (B eq_refl)).
Defined.

(* ================================================================== *)
(** * Hikes: saving, changing and deleting *)
(* ================================================================== *)

(** The shape of the functions that open the database and then issue one
    statement that cannot fail on a constraint. *)
Lemma opened_writes_inv (stmt : Connection -> Store -> Store) (w w' : World) :
  (db <- openDatabase ;; writes (stmt db)) w = (Ok tt, w') ->
  exists db, dbPromise w' = Some (Ok db) /\ store w' = stmt db (store w).
Proof.
  intros H.
  destruct (@opened_run_inv unit (fun db s => Ok (tt, stmt db s)) w (Ok tt) w' H)
    as (_ & db & P & E).
  exists db. split; [exact P|]. congruence.
Qed.

Lemma insertHike_seq (hike : Hike.t) (w : World) (id : Z) (w' : World) :
  insertHike hike w = (Ok id, w') ->
  hikes_seq (store w') = id /\
  observations_seq (store w') = observations_seq (store w) /\
  (hikes_seq (store w) < id)%Z.
Proof.
  unfold insertHike. intros H. apply opened_run_inv in H.
  destruct H as (_ & db & _ & H). unfold SQL.insert_hike in H.
  injection H as H1 H2. rewrite <- H2. cbn. rewrite <- H1.
  unfold next_rowid. repeat split; lia.
Qed.

Lemma of_column_str_or_null (x : opt (list N)) :
  truthy_str x = true -> of_column (str_or_null x) = x.
Proof. destruct x as [| |[|c s]]; cbn; congruence. Qed.

Lemma of_column_num_or_null (x : opt number) :
  truthy_num x = true -> of_column (num_or_null x) = x.
Proof.
  destruct x as [| |n]; cbn; try congruence.
  destruct (num_is_zero n); cbn; congruence.
Qed.

(** X4: a hike that is saved and then looked up by the id it was given
    comes back with that id, with its six required fields as they were
    written, with each optional field that was given a text or a number
    other than zero, and with its calendar flag. *)
Theorem insertHike_then_getHikeById
    (hike : Hike.t) (w : World) (id : Z) (w1 : World)
    (r : option Hike.t) (w2 : World) :
  insertHike hike w = (Ok id, w1) ->
  getHikeById id w1 = (Ok r, w2) ->
  exists h, r = Some h /\
    Hike.id h = Some id /\
    Hike.name h = Hike.name hike /\
    Hike.location h = Hike.location hike /\
    Hike.date h = Hike.date hike /\
    Hike.parkingAvailable h = Hike.parkingAvailable hike /\
    Hike.lengthKm h = Hike.lengthKm hike /\
    Hike.difficulty h = Hike.difficulty hike /\
    (truthy_str (Hike.description hike) = true ->
     Hike.description h = Hike.description hike) /\
    (truthy_num (Hike.elevationGainM hike) = true ->
     Hike.elevationGainM h = Hike.elevationGainM hike) /\
    (truthy_num (Hike.rating hike) = true -> Hike.rating h = Hike.rating hike) /\
    (truthy_str (Hike.photoUri hike) = true -> Hike.photoUri h = Hike.photoUri hike) /\
    (truthy_num (Hike.latitude hike) = true -> Hike.latitude h = Hike.latitude hike) /\
    (truthy_num (Hike.longitude hike) = true ->
     Hike.longitude h = Hike.longitude hike) /\
    (forall b, Hike.addedToCalendar hike = Val b -> Hike.addedToCalendar h = Val b).
Proof.
  intros I G. rewrite (getHikeById_after_insert _ _ I G).
  eexists. split; [reflexivity|]. cbn.
  repeat split; try reflexivity;
    try apply of_column_str_or_null; try apply of_column_num_or_null.
  - destruct (Hike.parkingAvailable hike); reflexivity.
  - intros b ->. destruct b; reflexivity.
Qed.

(** A hike with every optional field filled in. *)
Definition scafell_pike : Hike.t :=
  Hike.mk None (lit "Scafell Pike") (lit "Wasdale, UK") (lit "2025-08-02") false
    (Num 93 1) (lit "Hard")
    (Val (lit "Steep path from Wasdale Head")) (Val (Num 912 0)) (Val (Num 45 1))
    (Val (lit "file:///photos/scafell.jpg")) (Val (Num 544542 4))
    (Val (Num (-32115) 4)) (Val true).

Lemma insertHike_then_getHikeById_witness :
  exists h,
    fst (getHikeById 1 (snd (insertHike scafell_pike (startup empty_store []))))
    = Ok (Some h) /\
    Hike.description h = Val (lit "Steep path from Wasdale Head") /\
    Hike.longitude h = Val (Num (-32115) 4) /\
    Hike.addedToCalendar h = Val true.
Proof.
  destruct (insertHike scafell_pike (startup empty_store [])) as [i w1] eqn:I.
  destruct (getHikeById 1 w1) as [g w2] eqn:G.
  assert (Ei : i = Ok 1%Z) by (vm_compute in I; congruence).
  assert (Eg : exists r, g = Ok r).
  { assert (Ew : w1 = snd (insertHike scafell_pike (startup empty_store [])))
      by (rewrite I; reflexivity).
    rewrite Ew in G. vm_compute in G. injection G as <- _. eauto. }
  destruct Eg as (r & ->). subst i.
  destruct (insertHike_then_getHikeById scafell_pike (startup empty_store [])
              1%Z w1 r w2 I G)
    as (h & -> & _ & _ & _ & _ & _ & _ & _ & D & _ & _ & _ & _ & Lo & C).
  exists h. cbn [snd fst]. rewrite G. cbn [fst]. split; [reflexivity|].
  split; [apply D; reflexivity|]. split; [apply Lo; reflexivity|].
  apply C. reflexivity.
Defined.

(** X5: the id given to a new hike is larger than every id the table has
    given out before: the id of a hike that was deleted, and the ids of
    the hikes removed by [deleteAllHikes], are not given again. *)
Theorem insertHike_never_reuses_an_id
    (h1 h2 : Hike.t) (w w1 w2 w3 : World) (id1 id2 : Z) :
  insertHike h1 w = (Ok id1, w1) ->
  deleteHike id1 w1 = (Ok tt, w2) \/ deleteAllHikes w1 = (Ok tt, w2) ->
  insertHike h2 w2 = (Ok id2, w3) ->
  (id1 < id2)%Z.
Proof.
  intros I1 D I2. apply insertHike_seq in I1. destruct I1 as (S1 & _ & _).
  apply insertHike_seq in I2. destruct I2 as (_ & _ & S2).
  assert (S : hikes_seq (store w2) = hikes_seq (store w1)).
  { destruct D as [D | D].
    - unfold deleteHike in D. apply opened_writes_inv in D.
      destruct D as (db & _ & ->). reflexivity.
    - unfold deleteAllHikes in D. apply bind_ok_inv in D.
      destruct D as (db & w' & O & D). apply openDatabase_inv in O.
      destruct O as (O1 & _). apply bind_ok_inv in D.
      destruct D as ([] & w'' & D1 & D2).
      apply writes_inv in D1. destruct D1 as (_ & _ & D1).
      apply writes_inv in D2. destruct D2 as (_ & _ & D2).
      rewrite D2. cbn. rewrite D1. cbn. rewrite O1. reflexivity. }
  lia.
Qed.

Lemma insertHike_never_reuses_an_id_witness :
  let w1 := snd (insertHike snowdon (startup empty_store [])) in
  let w2 := snd (deleteHike 1 w1) in
  hikes (store w2) = [] /\
  exists id2, fst (insertHike scafell_pike w2) = Ok id2 /\ (1 < id2)%Z.
Proof.
  cbv zeta. split; [reflexivity|].
  destruct (insertHike scafell_pike
              (snd (deleteHike 1 (snd (insertHike snowdon (startup empty_store []))))))
    as [[id2|e] w3] eqn:I2; [|vm_compute in I2; discriminate].
  exists id2. split; [reflexivity|].
  exact (insertHike_never_reuses_an_id snowdon scafell_pike
           (startup empty_store [])
           (snd (insertHike snowdon (startup empty_store [])))
           (snd (deleteHike 1 (snd (insertHike snowdon (startup empty_store [])))))
           w3 1%Z id2 eq_refl (or_introl eq_refl) I2).
Defined.

Lemma filter_all (A : Type) (l : list A) : filter (fun _ => true) l = l.
Proof. induction l; cbn; congruence. Qed.

Lemma getAllHikes_perm (w : World) (result : list Hike.t) (w' : World) :
  getAllHikes w = (Ok result, w') -> Permutation result (all_hikes (store w)).
Proof.
  intros G. apply getAllHikes_inv in G. subst result.
  unfold SQL.select_hikes, all_hikes. apply Permutation_map.
  rewrite sort_by_perm, filter_all. reflexivity.
Qed.

(** X6: after [insertHike], [getAllHikes] returns the hikes that were
    stored and the new one, each once, the new one under an id that none
    of the others has. *)
Theorem insertHike_adds_one_hike
    (hike : Hike.t) (w : World) (id : Z) (w1 : World)
    (after : list Hike.t) (w2 : World) :
  insertHike hike w = (Ok id, w1) ->
  getAllHikes w1 = (Ok after, w2) ->
  Permutation after (hike_of_row (row_of_hike id hike) :: all_hikes (store w)) /\
  ~ In (Some id) (map Hike.id (all_hikes (store w))).
Proof.
  intros I G. apply getAllHikes_perm in G. apply insertHike_inv in I.
  destruct I as (I1 & I2 & _). split.
  - rewrite G. unfold all_hikes. rewrite I2, map_app. cbn [map].
    symmetry. apply Permutation_cons_append.
  - unfold all_hikes. rewrite map_map. cbn. intros H.
    apply in_map_iff in H. destruct H as (row & E & H).
    injection E as E. apply (next_rowid_fresh HikeRow.id _ (hikes_seq (store w))) in H.
    rewrite <- I1 in H. apply Z.eqb_neq in H. contradiction.
Qed.

Lemma insertHike_adds_one_hike_witness :
  exists after,
    fst (getAllHikes (snd (insertHike scafell_pike three_hikes))) = Ok after /\
    Permutation after
      (hike_of_row (row_of_hike 4 scafell_pike) :: all_hikes (store three_hikes)).
Proof.
  destruct (getAllHikes (snd (insertHike scafell_pike three_hikes)))
    as [[after|e] w2] eqn:G; [|vm_compute in G; discriminate].
  exists after. split; [reflexivity|].
  apply (insertHike_adds_one_hike scafell_pike three_hikes 4%Z
           (snd (insertHike scafell_pike three_hikes)) after w2 eq_refl G).
Defined.

(** ** [deleteHike] *)

Lemma find_filter_kept (A : Type) (p q : A -> bool) (l : list A) :
  (forall x, p x = true -> q x = true) -> find p (filter q l) = find p l.
Proof.
  intros H. induction l as [|x l IH]; [reflexivity|]. cbn.
  destruct (q x) eqn:Q; cbn.
  - rewrite IH. reflexivity.
  - destruct (p x) eqn:P; [|exact IH]. apply H in P. congruence.
Qed.

Lemma find_filter_gone (A : Type) (p q : A -> bool) (l : list A) :
  (forall x, q x = true -> p x = false) -> find p (filter q l) = None.
Proof.
  intros H. induction l as [|x l IH]; [reflexivity|]. cbn.
  destruct (q x) eqn:Q; cbn; [|exact IH]. rewrite (H x Q). exact IH.
Qed.

(** X7: [deleteHike] removes the hike of that id and no other: looked up
    afterwards, that id gives [null], and every other id gives what it
    gave before. *)
Theorem deleteHike_removes_that_hike_only (id : Z) (w w1 : World) :
  deleteHike id w = (Ok tt, w1) ->
  (forall r w2, getHikeById id w1 = (Ok r, w2) -> r = None) /\
  (forall id' r w2 r' w2', id' <> id ->
     getHikeById id' w = (Ok r, w2) ->
     getHikeById id' w1 = (Ok r', w2') -> r' = r).
Proof.
  unfold deleteHike. intros D. apply opened_writes_inv in D.
  destruct D as (db & _ & D). split.
  - intros r w2 G. apply getHikeById_inv in G. destruct G as (-> & _).
    rewrite D. cbn. rewrite find_filter_gone; [reflexivity|].
    intros x Q. apply negb_true_iff in Q. exact Q.
  - intros id' r w2 r' w2' N G G'.
    apply getHikeById_inv in G. destruct G as (-> & _).
    apply getHikeById_inv in G'. destruct G' as (-> & _).
    rewrite D. cbn. rewrite find_filter_kept; [reflexivity|].
    intros x P. apply Z.eqb_eq in P. apply negb_true_iff, Z.eqb_neq. congruence.
Qed.

Lemma deleteHike_removes_that_hike_only_witness :
  let w1 := snd (deleteHike 2 three_hikes) in
  fst (getHikeById 2 w1) = Ok None /\
  fst (getHikeById 3 w1) = fst (getHikeById 3 three_hikes).
Proof.
  cbv zeta.
  destruct (deleteHike_removes_that_hike_only 2 three_hikes
              (snd (deleteHike 2 three_hikes)) eq_refl) as (A & B).
  split.
  - destruct (getHikeById 2 (snd (deleteHike 2 three_hikes))) as [[r|e] w2] eqn:G;
      [|vm_compute in G; discriminate].
    rewrite (A r w2 eq_refl). reflexivity.
  - destruct (getHikeById 3 (snd (deleteHike 2 three_hikes))) as [[r'|e'] w2'] eqn:G';
      [|vm_compute in G'; discriminate].
    destruct (getHikeById 3 three_hikes) as [[r|e] w2] eqn:G;
      [|vm_compute in G; discriminate].
    cbn [fst]. f_equal. apply (B 3%Z r w2 r' w2'); [lia | exact G | exact G'].
Defined.

(** ** [deleteAllHikes] *)

(** X8: when [deleteAllHikes] succeeds both tables are empty, whether or
    not the connection enforces foreign keys, and the two sequences of
    ids go on from where they were. *)
Theorem deleteAllHikes_empties_both_tables (w w' : World) :
  deleteAllHikes w = (Ok tt, w') ->
  hikes (store w') = [] /\
  observations (store w') = [] /\
  hikes_seq (store w') = hikes_seq (store w) /\
  observations_seq (store w') = observations_seq (store w).
Proof.
  unfold deleteAllHikes. intros D. apply bind_ok_inv in D.
  destruct D as (db & w1 & O & D). apply openDatabase_inv in O.
  destruct O as (O1 & _). apply bind_ok_inv in D.
  destruct D as ([] & w2 & D1 & D2).
  apply writes_inv in D1. destruct D1 as (_ & _ & D1).
  apply writes_inv in D2. destruct D2 as (_ & _ & D2).
  rewrite D2. cbn. rewrite D1. cbn. rewrite O1. auto.
Qed.

Lemma deleteAllHikes_empties_both_tables_witness :
  let w' := snd (deleteAllHikes snowdon_with_observation) in
  hikes (store w') = [] /\ observations (store w') = [] /\
  hikes_seq (store w') = 1%Z /\ observations_seq (store w') = 1%Z.
Proof.
  cbv zeta.
  apply (deleteAllHikes_empties_both_tables snowdon_with_observation
           (snd (deleteAllHikes snowdon_with_observation))).
  reflexivity.
Defined.

(** X9: the two statements of [deleteAllHikes] are not one transaction.
    When the driver fails on the second, the function fails, the hikes
    are gone and the observations are all still there. *)
Theorem deleteAllHikes_is_not_atomic (s : Store) (e : thrown) :
  let w := mkWorld s (Some (Ok SQLite_default_connection)) true [None; Some e] in
  let w' := snd (deleteAllHikes w) in
  fst (deleteAllHikes w) = Throw e /\
  hikes (store w') = [] /\
  observations (store w') = observations s.
Proof.
  cbv zeta. repeat split.
Qed.

(** ** [updateHike] *)

(** X10: [updateHike] on a hike without an id, or with the id 0, writes
    nothing and never succeeds; when the driver answers, what it throws
    is the error that names the missing id. *)
Theorem updateHike_needs_an_id (hike : Hike.t) (w : World) :
  no_id (Hike.id hike) = true ->
  let w' := snd (updateHike hike w) in
  store w' = store w /\
  fst (updateHike hike w) <> Ok tt /\
  (ready w = true ->
   fst (updateHike hike w) = Throw (newError "Hike ID is required for update")).
Proof.
  intros N. cbv zeta. unfold updateHike, bind. rewrite N.
  destruct (openDatabase w) as [[db|e] w1] eqn:O.
  - apply openDatabase_inv in O. destruct O as (O1 & _). cbn.
    repeat split; [exact O1 | discriminate].
  - pose proof O as O'. apply openDatabase_inv in O. destruct O as (O1 & _). cbn.
    repeat split; [exact O1 | discriminate |].
    intros R. destruct (openDatabase_ready w R) as (db & w2 & O2 & _). congruence.
Qed.

Lemma updateHike_needs_an_id_witness :
  let hike := hike_with_zeros in
  let w := snd (insertHike snowdon (startup empty_store [])) in
  store (snd (updateHike hike w)) = store w /\
  fst (updateHike hike w) = Throw (newError "Hike ID is required for update").
Proof.
  cbv zeta.
  destruct (updateHike_needs_an_id hike_with_zeros
              (snd (insertHike snowdon (startup empty_store []))) eq_refl)
    as (A & _ & B).
  split; [exact A | exact (B eq_refl)].
Defined.

Lemma find_map_other (p : HikeRow.t -> bool) (f : HikeRow.t -> HikeRow.t)
    (rows : list HikeRow.t) :
  (forall x, p (f x) = p x) ->
  (forall x, p x = true -> f x = x) ->
  find p (map f rows) = find p rows.
Proof.
  intros H1 H2. induction rows as [|x rows IH]; [reflexivity|]. cbn.
  rewrite H1. destruct (p x) eqn:P; [rewrite (H2 x P); reflexivity | exact IH].
Qed.

Lemma find_map_target (p : HikeRow.t -> bool) (f : HikeRow.t -> HikeRow.t)
    (rows : list HikeRow.t) :
  (forall x, p (f x) = p x) ->
  find p (map f rows) = option_map f (find p rows).
Proof.
  intros H1. induction rows as [|x rows IH]; [reflexivity|]. cbn.
  rewrite H1. destruct (p x); [reflexivity | exact IH].
Qed.

(** X11: [updateHike] rewrites the row of the hike's id and nothing
    else.  The ids of the table and the observations are as they were; a
    hike of another id reads as before; the hike of that id, when there
    is one, reads as the hike that was passed, written through the same
    conversions as by [insertHike]; and when no hike has that id the
    call succeeds and the table is unchanged. *)
Theorem updateHike_rewrites_one_row (hike : Hike.t) (w w' : World) :
  updateHike hike w = (Ok tt, w') ->
  let target := the_id (Hike.id hike) in
  map HikeRow.id (hikes (store w')) = map HikeRow.id (hikes (store w)) /\
  observations (store w') = observations (store w) /\
  (forall id r w2 r' w2', id <> target ->
     getHikeById id w = (Ok r, w2) ->
     getHikeById id w' = (Ok r', w2') -> r' = r) /\
  (forall r w2 r' w2',
     getHikeById target w = (Ok r, w2) ->
     getHikeById target w' = (Ok r', w2') ->
     r' = option_map (fun _ => hike_of_row (row_of_hike target hike)) r) /\
  ((forall row, In row (hikes (store w)) -> HikeRow.id row <> target) ->
   hikes (store w') = hikes (store w)).
Proof.
  intros U. cbv zeta. apply updateHike_inv in U. destruct U as (_ & U & Obs).
  set (target := the_id (Hike.id hike)) in *.
  set (f := fun r => if (HikeRow.id r =? target)%Z
                     then row_of_hike (HikeRow.id r) hike else r) in *.
  assert (Id : forall x, HikeRow.id (f x) = HikeRow.id x).
  { intros x. unfold f. destruct (HikeRow.id x =? target)%Z; reflexivity. }
  repeat split.
  - rewrite U, map_map. apply map_ext. exact Id.
  - exact Obs.
  - intros id r w2 r' w2' N G G'.
    apply getHikeById_inv in G. destruct G as (-> & _).
    apply getHikeById_inv in G'. destruct G' as (-> & _).
    rewrite U, find_map_other; [reflexivity | intros x; rewrite Id; reflexivity |].
    intros x P. apply Z.eqb_eq in P. unfold f.
    destruct (HikeRow.id x =? target)%Z eqn:E; [|reflexivity].
    apply Z.eqb_eq in E. congruence.
  - intros r w2 r' w2' G G'.
    apply getHikeById_inv in G. destruct G as (-> & _).
    apply getHikeById_inv in G'. destruct G' as (-> & _).
    rewrite U, find_map_target by (intros x; rewrite Id; reflexivity).
    destruct (find (fun row => (HikeRow.id row =? target)%Z) (hikes (store w)))
      as [row|] eqn:F; [|reflexivity].
    apply find_some in F. destruct F as (_ & F). cbn. unfold f. rewrite F.
    apply Z.eqb_eq in F. rewrite F. reflexivity.
  - intros Absent. rewrite U. rewrite <- (map_id (hikes (store w))) at 2.
    apply map_ext_in. intros x Hx. unfold f.
    destruct (HikeRow.id x =? target)%Z eqn:E; [|reflexivity].
    apply Z.eqb_eq in E. apply Absent in Hx. contradiction.
Qed.

(** The fields of another hike, sent as an update of the hike [id]. *)
Definition as_scafell_pike (id : Z) : Hike.t :=
  Hike.mk (Some id) (lit "Scafell Pike") (lit "Wasdale, UK") (lit "2025-08-02")
    false (Num 93 1) (lit "Hard")
    Undefined Undefined Undefined Undefined Undefined Undefined Undefined.

(** Hike 2 of three is rewritten; an update for the id 9, which no hike
    has, succeeds and changes nothing. *)
Lemma updateHike_rewrites_one_row_witness :
  let w' := snd (updateHike (as_scafell_pike 2) three_hikes) in
  map HikeRow.id (hikes (store w')) = [1%Z; 2%Z; 3%Z] /\
  fst (getHikeById 2 w')
  = Ok (Some (hike_of_row (row_of_hike 2 (as_scafell_pike 2)))) /\
  fst (updateHike (as_scafell_pike 9) three_hikes) = Ok tt /\
  hikes (store (snd (updateHike (as_scafell_pike 9) three_hikes)))
  = hikes (store three_hikes).
Proof.
  cbv zeta.
  destruct (updateHike_rewrites_one_row (as_scafell_pike 2) three_hikes
              (snd (updateHike (as_scafell_pike 2) three_hikes)) eq_refl)
    as (A & _).
  destruct (updateHike_rewrites_one_row (as_scafell_pike 9) three_hikes
              (snd (updateHike (as_scafell_pike 9) three_hikes)) eq_refl)
    as (_ & _ & _ & _ & E).
  split; [exact A|]. split; [reflexivity|]. split; [reflexivity|].
  apply E. vm_compute. intros row [<- | [<- | [<- | []]]]; discriminate.
Defined.

(* ================================================================== *)
(** * Observations *)
(* ================================================================== *)

(** ** The order of numbers *)

Lemma pow10_pos (k : nat) : (0 < pow10 k)%Z.
Proof. unfold pow10. apply Z.pow_pos_nonneg; lia. Qed.

Lemma num_leb_le (a b : number) :
  num_leb a b = true <->
  (mantissa a * pow10 (scale b) <= mantissa b * pow10 (scale a))%Z.
Proof.
  unfold num_leb, num_compare, Z.le.
  destruct (mantissa a * pow10 (scale b) ?= mantissa b * pow10 (scale a))%Z;
    split; congruence.
Qed.

Lemma num_leb_total (a b : number) : num_leb a b = true \/ num_leb b a = true.
Proof. rewrite !num_leb_le. apply Z.le_ge_cases. Qed.

Lemma num_leb_trans (a b c : number) :
  num_leb a b = true -> num_leb b c = true -> num_leb a c = true.
Proof.
  rewrite !num_leb_le.
  destruct a as [ma sa], b as [mb sb], c as [mc sc]. cbn.
  pose proof (pow10_pos sa) as Pa. pose proof (pow10_pos sb) as Pb.
  pose proof (pow10_pos sc) as Pc.
  generalize dependent (pow10 sa). generalize dependent (pow10 sb).
  generalize dependent (pow10 sc). intros pc Pc pb Pb pa Pa H1 H2.
  apply (Z.mul_le_mono_pos_r _ _ pb Pb).
  apply Z.le_trans with (mb * pa * pc)%Z.
  - replace (ma * pc * pb)%Z with (ma * pb * pc)%Z by ring.
    apply Z.mul_le_mono_pos_r; assumption.
  - replace (mb * pa * pc)%Z with (mb * pc * pa)%Z by ring.
    replace (mc * pa * pb)%Z with (mc * pb * pa)%Z by ring.
    apply Z.mul_le_mono_pos_r; assumption.
Qed.

(** ** [getObservationsByHikeId] *)

(** X12: [getObservationsByHikeId] returns the observations whose hikeId
    is the one asked for, each once and no other, the latest timestamp
    first; it writes nothing. *)
Theorem getObservationsByHikeId_newest_first
    (hikeId : Z) (w : World) (result : list Observation.t) (w' : World) :
  getObservationsByHikeId (Some hikeId) w = (Ok result, w') ->
  Permutation result
    (filter (fun o => (Observation.hikeId o =? hikeId)%Z)
       (map observation_of_row (observations (store w)))) /\
  StronglySorted
    (fun a b => num_leb (Observation.timestamp b) (Observation.timestamp a) = true)
    result /\
  store w' = store w.
Proof.
  unfold getObservationsByHikeId. intros G. apply opened_read_inv in G.
  destruct G as (S & _ & ->). unfold SQL.select_observations.
  split; [|split; [|exact S]].
  - rewrite filter_map_comm. apply Permutation_map. rewrite sort_by_perm.
    reflexivity.
  - apply StronglySorted_map
      with (R := fun a b => SQL.by_timestamp_desc a b = true).
    + intros a b H. exact H.
    + apply sort_by_sorted.
      * intros a b. apply num_leb_total.
      * intros a b c H1 H2. unfold SQL.by_timestamp_desc in *.
        exact (num_leb_trans _ _ _ H2 H1).
Qed.

(** Three observations of two hikes, saved out of order. *)
Definition first_cairn (hikeId : Z) : Observation.t :=
  Observation.mk None hikeId (lit "First cairn") (Num 1752130000000 0)
    Undefined Undefined.

Definition red_kite (hikeId : Z) : Observation.t :=
  Observation.mk None hikeId (lit "Red kite overhead") (Num 1752140000000 0)
    (Val []) (Val (lit "file:///photos/kite.jpg")).

Definition with_three_observations : World :=
  let w := three_hikes in
  let w := snd (insertObservation (summit_view 1) w) in
  let w := snd (insertObservation (red_kite 2) w) in
  snd (insertObservation (first_cairn 1) w).

Lemma getObservationsByHikeId_newest_first_witness :
  exists result,
    fst (getObservationsByHikeId (Some 1%Z) with_three_observations) = Ok result /\
    map Observation.id result = [Some 1%Z; Some 3%Z] /\
    StronglySorted
      (fun a b => num_leb (Observation.timestamp b) (Observation.timestamp a) = true)
      result.
Proof.
  destruct (getObservationsByHikeId (Some 1%Z) with_three_observations)
    as [[result|e] w'] eqn:G; [|vm_compute in G; discriminate].
  exists result. split; [reflexivity|]. split.
  - vm_compute in G. injection G as <- _. reflexivity.
  - apply (getObservationsByHikeId_newest_first 1 with_three_observations result w' G).
Defined.

(** ** [insertObservation] *)

(** The row [insertObservation] writes for an observation. *)
Definition row_of_observation (rowid : Z) (o : Observation.t) : ObservationRow.t :=
  ObservationRow.mk rowid
    (Observation.hikeId o) (Observation.observation o) (Observation.timestamp o)
    (str_or_null (Observation.comments o))
    (str_or_null (Observation.photoUri o)).

Lemma insertObservation_inv (o : Observation.t) (w : World) (id : Z) (w' : World) :
  insertObservation o w = (Ok id, w') ->
  id = next_rowid ObservationRow.id (observations (store w))
         (observations_seq (store w)) /\
  observations (store w') = observations (store w) ++ [row_of_observation id o] /\
  hikes (store w') = hikes (store w).
Proof.
  unfold insertObservation. intros H. apply opened_run_inv in H.
  destruct H as (_ & db & _ & H). unfold SQL.insert_observation in H.
  destruct (foreign_keys db &&
            negb (existsb (fun r => (HikeRow.id r =? Observation.hikeId o)%Z)
                    (hikes (store w)))); [discriminate|].
  injection H as H1 H2. rewrite <- H2. cbn. rewrite <- H1. auto.
Qed.

Lemma getObservationById_inv (id : Z) (w : World) (r : option Observation.t)
    (w' : World) :
  getObservationById id w = (Ok r, w') ->
  r = option_map observation_of_row
        (find (fun o => (ObservationRow.id o =? id)%Z) (observations (store w))) /\
  store w' = store w.
Proof.
  unfold getObservationById. rewrite opened_first_eq. intros H.
  apply opened_read_inv in H. tauto.
Qed.

(** X13: an observation that is saved and then looked up by the id it
    was given comes back with that id and with its hikeId, text and
    timestamp as they were written; comments and photoUri come back as
    they were written when they are texts that are not empty, and as
    [null] otherwise. *)
Theorem insertObservation_then_getObservationById
    (o : Observation.t) (w : World) (id : Z) (w1 : World)
    (r : option Observation.t) (w2 : World) :
  insertObservation o w = (Ok id, w1) ->
  getObservationById id w1 = (Ok r, w2) ->
  exists read, r = Some read /\
    Observation.id read = Some id /\
    Observation.hikeId read = Observation.hikeId o /\
    Observation.observation read = Observation.observation o /\
    Observation.timestamp read = Observation.timestamp o /\
    Observation.comments read
    = (if truthy_str (Observation.comments o) then Observation.comments o else Null) /\
    Observation.photoUri read
    = (if truthy_str (Observation.photoUri o) then Observation.photoUri o else Null).
Proof.
  intros I G. apply insertObservation_inv in I. destruct I as (I1 & I2 & _).
  apply getObservationById_inv in G. destruct G as (-> & _).
  rewrite I2, find_app_fresh.
  - eexists. split; [reflexivity|]. cbn. repeat split.
    + destruct (Observation.comments o) as [| |[|c s]]; reflexivity.
    + destruct (Observation.photoUri o) as [| |[|c s]]; reflexivity.
  - intros row Hr. rewrite I1. apply next_rowid_fresh. exact Hr.
  - cbn. apply Z.eqb_refl.
Qed.

Lemma insertObservation_then_getObservationById_witness :
  exists read,
    fst (getObservationById 1 (snd (insertObservation (red_kite 1) three_hikes)))
    = Ok (Some read) /\
    Observation.comments read = Null /\
    Observation.photoUri read = Val (lit "file:///photos/kite.jpg").
Proof.
  destruct (getObservationById 1 (snd (insertObservation (red_kite 1) three_hikes)))
    as [[r|e] w2] eqn:G; [|vm_compute in G; discriminate].
  destruct (insertObservation_then_getObservationById (red_kite 1) three_hikes 1%Z
              (snd (insertObservation (red_kite 1) three_hikes)) r w2 eq_refl G)
    as (read & -> & _ & _ & _ & _ & C & P).
  exists read. split; [reflexivity|]. split; [exact C | exact P].
Defined.

Lemma insertObservation_ready (o : Observation.t) (w : World) :
  connection_as_opened w ->
  ready w = true ->
  exists id w',
    insertObservation o w = (Ok id, w') /\
    ready w' = true /\ connection_as_opened w'.
Proof.
  intros C R. unfold insertObservation.
  destruct (opened_run_ready
              (fun db => SQL.insert_observation db
                 (Observation.hikeId o) (Observation.observation o)
                 (Observation.timestamp o)
                 (str_or_null (Observation.comments o))
                 (str_or_null (Observation.photoUri o))) w R)
    as (db & w1 & O & S1 & H).
  apply openDatabase_inv in O. destruct O as (_ & O2 & O3).
  rewrite (O2 C db O3) in H.
  destruct (H _ _ eq_refl) as (H1 & H2).
  eexists _, _. split; [exact H1|]. split; [exact H2|].
  apply opened_run_inv in H1. destruct H1 as (H1 & _). apply H1, C.
Qed.

(** X14: on the connection that [openDatabase] makes, [insertObservation]
    does not look for the hike: it saves the observation under whatever
    hikeId it is given, also one that no hike has. *)
Theorem insertObservation_accepts_any_hikeId (o : Observation.t) (w : World) :
  connection_as_opened w ->
  ready w = true ->
  exists id w',
    insertObservation o w = (Ok id, w') /\
    observations (store w') = observations (store w) ++ [row_of_observation id o] /\
    hikes (store w') = hikes (store w).
Proof.
  intros C R. destruct (insertObservation_ready o w C R) as (id & w' & I & _).
  exists id, w'. split; [exact I|].
  apply insertObservation_inv in I. tauto.
Qed.

(** No hike is stored, and the observation of hike 7 is saved. *)
Lemma insertObservation_accepts_any_hikeId_witness :
  hikes (store (startup empty_store [])) = [] /\
  exists id w',
    insertObservation (summit_view 7) (startup empty_store []) = (Ok id, w') /\
    observations (store w') = [row_of_observation id (summit_view 7)].
Proof.
  split; [reflexivity|].
  destruct (insertObservation_accepts_any_hikeId (summit_view 7)
              (startup empty_store [])) as (id & w' & I & Obs & _).
  - intros db [=].
  - reflexivity.
  - exists id, w'. split; [exact I | exact Obs].
Defined.

(** ** [deleteObservation] *)

(** X15: [deleteObservation] removes the observation of that id and no
    other, and leaves the hikes alone: looked up afterwards, that id
    gives [null] and every other id gives what it gave before. *)
Theorem deleteObservation_removes_that_observation_only (id : Z) (w w1 : World) :
  deleteObservation id w = (Ok tt, w1) ->
  hikes (store w1) = hikes (store w) /\
  (forall r w2, getObservationById id w1 = (Ok r, w2) -> r = None) /\
  (forall id' r w2 r' w2', id' <> id ->
     getObservationById id' w = (Ok r, w2) ->
     getObservationById id' w1 = (Ok r', w2') -> r' = r).
Proof.
  unfold deleteObservation. intros D.
  apply (opened_writes_inv (fun _ => SQL.delete_observation id)) in D.
  destruct D as (db & _ & D). split; [rewrite D; reflexivity|]. split.
  - intros r w2 G. apply getObservationById_inv in G. destruct G as (-> & _).
    rewrite D. cbn. rewrite find_filter_gone; [reflexivity|].
    intros x Q. apply negb_true_iff in Q. exact Q.
  - intros id' r w2 r' w2' N G G'.
    apply getObservationById_inv in G. destruct G as (-> & _).
    apply getObservationById_inv in G'. destruct G' as (-> & _).
    rewrite D. cbn. rewrite find_filter_kept; [reflexivity|].
    intros x P. apply Z.eqb_eq in P. apply negb_true_iff, Z.eqb_neq. congruence.
Qed.

Lemma deleteObservation_removes_that_observation_only_witness :
  let w1 := snd (deleteObservation 1 with_three_observations) in
  hikes (store w1) = hikes (store with_three_observations) /\
  map ObservationRow.id (observations (store w1)) = [2%Z; 3%Z].
Proof.
  cbv zeta.
  destruct (deleteObservation_removes_that_observation_only 1
              with_three_observations
              (snd (deleteObservation 1 with_three_observations)) eq_refl)
    as (A & _).
  split; [exact A | reflexivity].
Defined.

(** ** [updateObservation] *)

(** X16: [updateObservation] on an observation without an id, or with
    the id 0, writes nothing and never succeeds; when the driver
    answers, what it throws is the error that names the missing id. *)
Theorem updateObservation_needs_an_id (o : Observation.t) (w : World) :
  no_id (Observation.id o) = true ->
  let w' := snd (updateObservation o w) in
  store w' = store w /\
  fst (updateObservation o w) <> Ok tt /\
  (ready w = true ->
   fst (updateObservation o w)
   = Throw (newError "Observation ID is required for update")).
Proof.
  intros N. cbv zeta. unfold updateObservation, bind. rewrite N.
  destruct (openDatabase w) as [[db|e] w1] eqn:O.
  - apply openDatabase_inv in O. destruct O as (O1 & _). cbn.
    repeat split; [exact O1 | discriminate].
  - pose proof O as O'. apply openDatabase_inv in O. destruct O as (O1 & _). cbn.
    repeat split; [exact O1 | discriminate |].
    intros R. destruct (openDatabase_ready w R) as (db & w2 & O2 & _). congruence.
Qed.

Lemma updateObservation_needs_an_id_witness :
  let o := Observation.mk (Some 0%Z) 1 (lit "Cloud on the ridge")
             (Num 1752139200000 0) Null Undefined in
  store (snd (updateObservation o with_three_observations))
  = store with_three_observations /\
  fst (updateObservation o with_three_observations)
  = Throw (newError "Observation ID is required for update").
Proof.
  cbv zeta.
  destruct (updateObservation_needs_an_id
              (Observation.mk (Some 0%Z) 1 (lit "Cloud on the ridge")
                 (Num 1752139200000 0) Null Undefined)
              with_three_observations eq_refl) as (A & _ & B).
  split; [exact A | exact (B eq_refl)].
Defined.

(* ================================================================== *)
(** * More of [lib/storage.ts] *)
(* ================================================================== *)

(** ** The text around the object *)

Definition close_free (s : list N) : bool := forallb (fun c => negb (c =? 125)) s.

Lemma upto_last_close_none (t : list N) :
  close_free t = true -> upto_last_close t = None.
Proof.
  induction t as [|c t IH]; [reflexivity|]. cbn.
  rewrite andb_true_iff. intros (C & H). rewrite (IH H).
  apply negb_true_iff in C. rewrite C. reflexivity.
Qed.

Lemma upto_last_close_trailer (body trailer : list N) :
  close_free trailer = true ->
  upto_last_close (body ++ 125 :: trailer) = Some (body ++ [125]).
Proof.
  intros H. induction body as [|c body IH].
  - cbn. rewrite (upto_last_close_none trailer H). reflexivity.
  - cbn [app upto_last_close]. rewrite IH. reflexivity.
Qed.

(** X17: [parseImportJson] reads the text from its first opening brace
    to its last closing brace: what stands before the object, when it
    has no opening brace, and what stands after it, when it has no
    closing brace, do not count. *)
Theorem parseImportJson_ignores_the_surroundings (header body trailer : list N) :
  brace_free header = true ->
  close_free trailer = true ->
  parseImportJson (header ++ 123 :: body ++ 125 :: trailer)
  = parseImportJson (123 :: body ++ [125]).
Proof.
  intros H T.
  assert (A : match_braces (header ++ 123 :: body ++ 125 :: trailer)
              = Some (123 :: body ++ [125])).
  { unfold match_braces.
    rewrite (from_first_open_skips header _ H), (upto_last_close_trailer body _ T).
    reflexivity. }
  assert (B : match_braces (123 :: body ++ [125]) = Some (123 :: body ++ [125])).
  { exact (match_braces_object [] body eq_refl). }
  unfold parseImportJson, parseImportJson_body. rewrite A, B. reflexivity.
Qed.

Lemma parseImportJson_ignores_the_surroundings_witness :
  parseImportJson
    (lit "Sent by Alex: " ++ 123 ::
     qlit "'name':'Box Hill','location':'Surrey','date':'2025-08-02','parkingAvailable':true,'lengthKm':3,'difficulty':'Easy'"
     ++ 125 :: lit " -- see you there")
  = Ok (JObj [(lit "name", JStr (lit "Box Hill"));
              (lit "location", JStr (lit "Surrey"));
              (lit "date", JStr (lit "2025-08-02"));
              (lit "parkingAvailable", JBool true);
              (lit "lengthKm", JNum (Num 3 0));
              (lit "difficulty", JStr (lit "Easy"))]).
Proof.
  rewrite (parseImportJson_ignores_the_surroundings (lit "Sent by Alex: ")
             (qlit "'name':'Box Hill','location':'Surrey','date':'2025-08-02','parkingAvailable':true,'lengthKm':3,'difficulty':'Easy'")
             (lit " -- see you there") eq_refl eq_refl).
  vm_compute. reflexivity.
Defined.

(** ** An import that goes through *)

(** What the loop of [importHikeFromJson] writes for one observation of
    the import: its three fields, the id of the new hike, no photo. *)
Definition imported_observation (hikeId : Z) (obs : ObservationExportFormat.t)
    : Observation.t :=
  Observation.mk None hikeId
    (ObservationExportFormat.observation obs)
    (ObservationExportFormat.timestamp obs)
    (ObservationExportFormat.comments obs)
    Undefined.

(** A row but for its id. *)
Definition observation_columns (row : ObservationRow.t)
    : Z * list N * number * option (list N) * option (list N) :=
  (ObservationRow.hikeId row, ObservationRow.observation row,
   ObservationRow.timestamp row, ObservationRow.comments row,
   ObservationRow.photoUri row).

(** The loop, whatever its outcome: the hikes are not touched, and the
    observations are those that were there followed by one row for each
    observation that was reached, in the order of the import. *)
Lemma insertObservations_inv (hikeId : Z) (l : list ObservationExportFormat.t) :
  forall w r w',
    insertObservations hikeId l w = (r, w') ->
    hikes (store w') = hikes (store w) /\
    exists rows,
      observations (store w') = observations (store w) ++ rows /\
      match r with
      | Ok _ =>
          map observation_columns rows
          = map (fun obs => observation_columns
                              (row_of_observation 0 (imported_observation hikeId obs))) l
      | Throw _ => (length rows < length l)%nat
      end.
Proof.
  induction l as [|obs l IH]; intros w r w' H.
  - cbn in H. injection H as <- <-. split; [reflexivity|].
    exists []. rewrite app_nil_r. auto.
  - cbn [insertObservations] in H. apply bind_inv in H.
    destruct H as [(id & w1 & I & H) | (e & I & ->)].
    + apply insertObservation_inv in I. destruct I as (_ & I2 & I3).
      apply IH in H. destruct H as (H1 & rows & H2 & H3).
      split; [congruence|].
      exists (row_of_observation id (imported_observation hikeId obs) :: rows).
      split.
      * rewrite H2, I2, <- app_assoc. reflexivity.
      * destruct r; cbn [map length]; [f_equal; exact H3 | lia].
    + unfold insertObservation in I. apply opened_run_inv in I.
      destruct I as (_ & I). split; [congruence|].
      exists []. rewrite app_nil_r. split; [congruence | cbn; lia].
Qed.


Lemma insertObservations_ready (hikeId : Z) (l : list ObservationExportFormat.t) :
  forall w,
    connection_as_opened w ->
    ready w = true ->
    exists w', insertObservations hikeId l w = (Ok tt, w') /\ ready w' = true.
Proof.
  induction l as [|obs l IH]; intros w C R.
  - exists w. split; [reflexivity | exact R].
  - destruct (insertObservation_ready (imported_observation hikeId obs) w C R)
      as (id & w1 & I & R1 & C1).
    destruct (IH w1 C1 R1) as (w' & H & R').
    exists w'. split; [|exact R'].
    cbn [insertObservations]. unfold bind.
    change (Observation.mk None hikeId (ObservationExportFormat.observation obs)
              (ObservationExportFormat.timestamp obs)
              (ObservationExportFormat.comments obs) Undefined)
      with (imported_observation hikeId obs).
    rewrite I. exact H.
Qed.

Lemma findDuplicateHike_none_ready (hike : Hike.t) (w : World) :
  connection_as_opened w ->
  ready w = true ->
  find (duplicate_where hike) (hikes (store w)) = None ->
  exists w1, findDuplicateHike hike w = (Ok None, w1) /\
             ready w1 = true /\ connection_as_opened w1 /\ store w1 = store w.
Proof.
  intros C R F.
  destruct (findDuplicateHike_ready hike w R) as (r & w1 & D & R1).
  exists w1. pose proof D as D'. apply findDuplicateHike_inv in D'.
  destruct D' as (-> & S). rewrite F in D. cbn in D.
  split; [exact D|]. split; [exact R1|]. split; [|exact S].
  unfold findDuplicateHike in D. rewrite opened_first_eq in D.
  apply opened_read_inv in D. destruct D as (_ & D & _). apply D, C.
Qed.

(** An import of data of the declared shape, with no duplicate stored
    and a driver that answers. *)
Lemma import_goes_through (other_shape : json -> M ImportResult.t)
    (jsonText : list N) (w : World) (data : json) (importData : HikeExportFormat.t) :
  parseImportJson jsonText = Ok data ->
  as_HikeExportFormat data = Some importData ->
  connection_as_opened w ->
  ready w = true ->
  find (duplicate_where (hike_of_import importData Undefined)) (hikes (store w))
  = None ->
  exists hikeId w' rows,
    importHikeFromJson other_shape jsonText w
    = (Ok (ImportResult.mk true (success_message importData) (Some hikeId)), w') /\
    ready w' = true /\
    hikes (store w')
    = hikes (store w) ++ [row_of_hike hikeId (hike_of_import importData (Val false))] /\
    (forall row, In row (hikes (store w)) -> HikeRow.id row <> hikeId) /\
    observations (store w') = observations (store w) ++ rows /\
    map observation_columns rows
    = map (fun obs => observation_columns
                        (row_of_observation 0 (imported_observation hikeId obs)))
        (observations_of importData).
Proof.
  intros P T C R F.
  destruct (findDuplicateHike_none_ready _ w C R F) as (w1 & D & R1 & C1 & S1).
  destruct (insertHike_ready (hike_of_import importData (Val false)) w1 R1)
    as (hikeId & w2 & I & R2).
  pose proof (insertHike_inv _ _ I) as (I1 & I2 & I3 & I4).
  destruct (insertObservations_ready hikeId (observations_of importData) w2
              (I4 C1) R2) as (w3 & O & R3).
  pose proof (insertObservations_inv hikeId _ _ _ _ O) as (O1 & rows & O2 & O3).
  exists hikeId, w3, rows.
  rewrite importHikeFromJson_eq, importHikeFromJson_body_eq, P, T, D, I, O.
  split; [reflexivity|]. split; [exact R3|].
  split; [rewrite O1, I2, S1; reflexivity|].
  split.
  - intros row Hr. rewrite <- S1 in Hr.
    apply (next_rowid_fresh HikeRow.id _ (hikes_seq (store w1))) in Hr.
    rewrite <- I1 in Hr. apply Z.eqb_neq in Hr. exact Hr.
  - split; [rewrite O2, I3, S1; reflexivity | exact O3].
Qed.

(** X18: an import of data of the declared shape, when no stored hike
    has its natural key and the driver answers, returns
    [success = true] with the id of the new hike.  The hikes are those
    that were there and the imported one, written without a photo and
    with the calendar flag off, under an id no other hike has; the
    observations are those that were there followed by those of the
    import, in their order, each under the id of the new hike and
    without a photo. *)
Theorem import_saves_the_hike_and_its_observations
    (other_shape : json -> M ImportResult.t)
    (jsonText : list N) (w : World) (data : json) (importData : HikeExportFormat.t) :
  parseImportJson jsonText = Ok data ->
  as_HikeExportFormat data = Some importData ->
  connection_as_opened w ->
  ready w = true ->
  find (duplicate_where (hike_of_import importData Undefined)) (hikes (store w))
  = None ->
  exists hikeId w' rows,
    importHikeFromJson other_shape jsonText w
    = (Ok (ImportResult.mk true (success_message importData) (Some hikeId)), w') /\
    hikes (store w')
    = hikes (store w) ++ [row_of_hike hikeId (hike_of_import importData (Val false))] /\
    HikeRow.photoUri (row_of_hike hikeId (hike_of_import importData (Val false)))
    = None /\
    HikeRow.addedToCalendar (row_of_hike hikeId (hike_of_import importData (Val false)))
    = 0%Z /\
    (forall row, In row (hikes (store w)) -> HikeRow.id row <> hikeId) /\
    observations (store w') = observations (store w) ++ rows /\
    map observation_columns rows
    = map (fun obs =>
             (hikeId, ObservationExportFormat.observation obs,
              ObservationExportFormat.timestamp obs,
              str_or_null (ObservationExportFormat.comments obs), None))
        (observations_of importData).
Proof.
  intros P T C R F.
  destruct (import_goes_through other_shape jsonText w data importData P T C R F)
    as (hikeId & w' & rows & E & _ & H & Fresh & O & Rows).
  exists hikeId, w', rows. repeat split; assumption.
Qed.

(** Hike 1 of three is deleted and the export of a fourth hike is
    imported: it is given the id 4. *)
Lemma import_saves_the_hike_and_its_observations_witness :
  let w := snd (deleteHike 1 three_hikes) in
  exists hikeId w' rows,
    importHikeFromJson refuses_other_shapes snowdon_text w
    = (Ok (ImportResult.mk true (success_message snowdon_import) (Some hikeId)), w') /\
    hikes (store w')
    = hikes (store w) ++ [row_of_hike hikeId (hike_of_import snowdon_import (Val false))] /\
    HikeRow.photoUri (row_of_hike hikeId (hike_of_import snowdon_import (Val false)))
    = None /\
    HikeRow.addedToCalendar (row_of_hike hikeId (hike_of_import snowdon_import (Val false)))
    = 0%Z /\
    (forall row, In row (hikes (store w)) -> HikeRow.id row <> hikeId) /\
    observations (store w') = observations (store w) ++ rows /\
    map observation_columns rows
    = [(hikeId, lit "Beautiful views at summit", Num 1752135600000 0,
        Some (lit "Weather was perfect"), None)].
Proof.
  cbv zeta.
  apply (import_saves_the_hike_and_its_observations refuses_other_shapes snowdon_text
           (snd (deleteHike 1 three_hikes))
           (match parseImportJson snowdon_text with Ok d => d | Throw _ => JNull end)
           snowdon_import).
  - vm_compute. reflexivity.
  - vm_compute. reflexivity.
  - intros db. vm_compute. congruence.
  - reflexivity.
  - vm_compute. reflexivity.
Defined.

(** ** The same text imported twice *)

Lemma find_some_in (A : Type) (p : A -> bool) (l : list A) (x : A) :
  In x l -> p x = true -> exists y, find p l = Some y.
Proof.
  intros H P. destruct (find p l) as [y|] eqn:F; [eauto|].
  rewrite (find_none p l F x H) in P. discriminate.
Qed.

Lemma num_compare_refl (a : number) : num_compare a a = Eq.
Proof. unfold num_compare. apply Z.compare_refl. Qed.

(** The hike that an import writes is a duplicate of the hike that the
    import looks for. *)
Lemma imported_row_is_a_duplicate (importData : HikeExportFormat.t) (rowid : Z)
    (flag : opt bool) :
  duplicate_where (hike_of_import importData Undefined)
    (row_of_hike rowid (hike_of_import importData flag)) = true.
Proof.
  apply duplicate_where_row_of_hike. unfold natural_key_agree. cbn.
  rewrite num_compare_refl. repeat split.
Qed.

(** The steps of an import of data of the declared shape that reports
    success. *)
Lemma import_success_inv (other_shape : json -> M ImportResult.t)
    (jsonText : list N) (data : json) (importData : HikeExportFormat.t)
    (w w' : World) (res : ImportResult.t) :
  parseImportJson jsonText = Ok data ->
  as_HikeExportFormat data = Some importData ->
  importHikeFromJson other_shape jsonText w = (Ok res, w') ->
  ImportResult.success res = true ->
  exists w1 hikeId w2,
    findDuplicateHike (hike_of_import importData Undefined) w = (Ok None, w1) /\
    insertHike (hike_of_import importData (Val false)) w1 = (Ok hikeId, w2) /\
    insertObservations hikeId (observations_of importData) w2 = (Ok tt, w') /\
    res = ImportResult.mk true (success_message importData) (Some hikeId).
Proof.
  intros P T.
  rewrite importHikeFromJson_eq, importHikeFromJson_body_eq, P, T.
  destruct (findDuplicateHike _ w) as [[[d|]|e] w1] eqn:D;
    [intros [= <- _]; discriminate | | intros [= <- _]; discriminate].
  destruct (insertHike _ w1) as [[hikeId|e] w2] eqn:I;
    [|intros [= <- _]; discriminate].
  destruct (insertObservations _ _ w2) as [[[]|e] w3] eqn:O;
    [|intros [= <- _]; discriminate].
  intros [= <- <-] _. exists w1, hikeId, w2.
  repeat split; assumption.
Qed.

(** X19: a text that holds data of the declared shape and whose import
    has succeeded is refused when it is imported again: the second call
    reports the duplicate and writes nothing, and the hike that the
    first call wrote is in the table, under the id that call returned,
    after the hikes that were there. *)
Theorem import_twice_is_refused
    (other_shape : json -> M ImportResult.t)
    (jsonText : list N) (data : json) (importData : HikeExportFormat.t)
    (w w1 : World) (res : ImportResult.t) :
  parseImportJson jsonText = Ok data ->
  as_HikeExportFormat data = Some importData ->
  importHikeFromJson other_shape jsonText w = (Ok res, w1) ->
  ImportResult.success res = true ->
  ready w1 = true ->
  (exists hikeId,
      ImportResult.hikeId res = Some hikeId /\
      hikes (store w1)
      = hikes (store w)
        ++ [row_of_hike hikeId (hike_of_import importData (Val false))]) /\
  exists w2,
    importHikeFromJson other_shape jsonText w1
    = (Ok (ImportResult.mk false (lit duplicate_message) None), w2) /\
    store w2 = store w1.
Proof.
  intros P T E S R.
  destruct (import_success_inv other_shape jsonText data importData w w1 res P T E S)
    as (wa & hikeId & wb & D & I & O & Res).
  apply findDuplicateHike_inv in D. destruct D as (_ & D).
  apply insertHike_inv in I. destruct I as (_ & I & _).
  apply insertObservations_inv in O. destruct O as (O & _).
  assert (H : hikes (store w1)
              = hikes (store w)
                ++ [row_of_hike hikeId (hike_of_import importData (Val false))])
    by congruence.
  split.
  { exists hikeId. split; [rewrite Res; reflexivity | exact H]. }
  destruct (find_some_in _ (duplicate_where (hike_of_import importData Undefined))
              (hikes (store w1))
              (row_of_hike hikeId (hike_of_import importData (Val false))))
    as (row & F).
  { rewrite H. apply in_or_app. right. left. reflexivity. }
  { apply imported_row_is_a_duplicate. }
  destruct (findDuplicateHike_ready (hike_of_import importData Undefined) w1 R)
    as (r & w2 & D2 & _).
  pose proof (findDuplicateHike_inv _ _ D2) as (Er & S2).
  rewrite F in Er. cbn in Er. subst r.
  exists w2. split; [|exact S2].
  rewrite importHikeFromJson_eq, importHikeFromJson_body_eq, P, T, D2. reflexivity.
Qed.

(** The text of Snowdon imported into a database with one hike, and
    imported again. *)
Lemma import_twice_is_refused_witness :
  let w := snd (insertHike tryfan (startup empty_store [])) in
  let w1 := snd (importHikeFromJson refuses_other_shapes snowdon_text w) in
  map HikeRow.name (hikes (store w1)) = [lit "Tryfan"; lit "Snowdon"] /\
  (exists hikeId,
      ImportResult.hikeId
        (match fst (importHikeFromJson refuses_other_shapes snowdon_text w) with
         | Ok res => res
         | Throw _ => ImportResult.mk false [] None
         end) = Some hikeId /\
      hikes (store w1)
      = hikes (store w)
        ++ [row_of_hike hikeId (hike_of_import snowdon_import (Val false))]) /\
  exists w2,
    importHikeFromJson refuses_other_shapes snowdon_text w1
    = (Ok (ImportResult.mk false (lit duplicate_message) None), w2) /\
    store w2 = store w1.
Proof.
  cbv zeta. split; [vm_compute; reflexivity|].
  apply (import_twice_is_refused refuses_other_shapes snowdon_text
           (match parseImportJson snowdon_text with Ok d => d | Throw _ => JNull end)
           snowdon_import
           (snd (insertHike tryfan (startup empty_store [])))
           (snd (importHikeFromJson refuses_other_shapes snowdon_text
                   (snd (insertHike tryfan (startup empty_store [])))))
           (match fst (importHikeFromJson refuses_other_shapes snowdon_text
                         (snd (insertHike tryfan (startup empty_store [])))) with
            | Ok res => res
            | Throw _ => ImportResult.mk false [] None
            end)).
  - vm_compute. reflexivity.
  - vm_compute. reflexivity.
  - vm_compute. reflexivity.
  - vm_compute. reflexivity.
  - reflexivity.
Defined.

(** ** An import that fails half-way *)





(** ** From one database to another *)

(** X21: a hike that can be exported, exported from one database and
    imported into another that holds no hike of its natural key.  The
    import succeeds; the hike read back from the second database has the
    six required fields of the first, the optional fields as
    [insertHike] writes them, no photo and the calendar flag off; and
    the observations that the export listed are added in that order
    under the new id, without their photos. *)
Theorem exported_hike_is_imported_elsewhere
    (other_shape : json -> M ImportResult.t)
    (hike : Hike.t) (w : World) (text : list N) (w' : World) (w0 : World) :
  exportable hike = true ->
  forallb (fun row => num_canonical (ObservationRow.timestamp row))
    (observations (store w)) = true ->
  exportHikeToJson hike w = (Ok text, w') ->
  connection_as_opened w0 ->
  ready w0 = true ->
  find (duplicate_where hike) (hikes (store w0)) = None ->
  let exported :=
    map observation_of_row (SQL.select_observations (Hike.id hike) (store w)) in
  exists hikeId w1 message w2 rows,
    importHikeFromJson other_shape text w0
    = (Ok (ImportResult.mk true message (Some hikeId)), w1) /\
    getHikeById hikeId w1
    = (Ok (Some (Hike.mk (Some hikeId)
                   (Hike.name hike) (Hike.location hike) (Hike.date hike)
                   (Hike.parkingAvailable hike) (Hike.lengthKm hike)
                   (Hike.difficulty hike)
                   (of_column (str_or_null (Hike.description hike)))
                   (of_column (num_or_null (Hike.elevationGainM hike)))
                   (of_column (num_or_null (Hike.rating hike)))
                   Null
                   (of_column (num_or_null (Hike.latitude hike)))
                   (of_column (num_or_null (Hike.longitude hike)))
                   (Val false))), w2) /\
    observations (store w1) = observations (store w0) ++ rows /\
    map observation_columns rows
    = map (fun o => (hikeId, Observation.observation o, Observation.timestamp o,
                     str_or_null (Observation.comments o), None)) exported.
Proof.
  intros X Ts E C R F. cbv zeta.
  destruct (export_without_brace_is_imported_back hike w text w' X Ts E) as (P & T).
  set (exported := map observation_of_row
                     (SQL.select_observations (Hike.id hike) (store w))) in *.
  destruct (import_goes_through other_shape text w0 _ _ P T C R F)
    as (hikeId & w1 & rows & I & R1 & H & Fresh & O & Rows).
  destruct (getHikeById_ready hikeId w1 R1) as (r & w2 & G & _).
  exists hikeId, w1, (success_message (exportData hike exported)), w2, rows.
  split; [exact I|]. split; [|split; [exact O|]].
  - pose proof (getHikeById_inv _ _ G) as (Er & _).
    rewrite H, find_app_fresh in Er.
    + rewrite G, Er. cbn. unfold hike_of_row. cbn.
      destruct (Hike.parkingAvailable hike); reflexivity.
    + intros row Hr. apply Z.eqb_neq, Fresh, Hr.
    + cbn. apply Z.eqb_refl.
  - rewrite Rows. unfold observations_of, exportData. cbn.
    rewrite map_map. reflexivity.
Qed.

(** The hike of [snowdon_with_observation], exported and imported into
    the database of [three_hikes] once its own Snowdon is deleted. *)
Lemma exported_hike_is_imported_elsewhere_witness :
  let hike := hike_of_row (row_of_hike 1 snowdon) in
  let w := snowdon_with_observation in
  let text := match fst (exportHikeToJson hike w) with Ok t => t | Throw _ => [] end in
  let w0 := snd (deleteHike 1 three_hikes) in
  exists hikeId w1 message w2 rows,
    importHikeFromJson refuses_other_shapes text w0
    = (Ok (ImportResult.mk true message (Some hikeId)), w1) /\
    getHikeById hikeId w1
    = (Ok (Some (Hike.mk (Some hikeId)
                   (lit "Snowdon") (lit "Llanberis, UK") (lit "2025-07-10") true
                   (Num 145 1) (lit "Hard") Null Null Null Null Null Null
                   (Val false))), w2) /\
    observations (store w1) = observations (store w0) ++ rows /\
    map observation_columns rows
    = [(hikeId, lit "Beautiful views at summit", Num 1752135600000 0,
        Some (lit "Weather was perfect"), None)].
Proof.
  cbv zeta.
  apply (exported_hike_is_imported_elsewhere refuses_other_shapes
           (hike_of_row (row_of_hike 1 snowdon)) snowdon_with_observation
           (match fst (exportHikeToJson (hike_of_row (row_of_hike 1 snowdon))
                         snowdon_with_observation) with
            | Ok t => t
            | Throw _ => []
            end)
           (snd (exportHikeToJson (hike_of_row (row_of_hike 1 snowdon))
                   snowdon_with_observation))
           (snd (deleteHike 1 three_hikes))).
  - reflexivity.
  - reflexivity.
  - vm_compute. reflexivity.
  - intros db. vm_compute. congruence.
  - reflexivity.
  - vm_compute. reflexivity.
Defined.

(* ================================================================== *)
(** * Searching: the edges *)
(* ================================================================== *)

Lemma like_percents (pattern s : list N) :
  pattern <> [] -> Forall (fun c => c = 37) pattern -> like pattern s = true.
Proof.
  intros N0 H. induction H as [|c pattern -> H IH]; [contradiction|].
  destruct pattern as [|c' pattern'].
  - apply like_only_percent.
  - rewrite like_percent, IH by discriminate. reflexivity.
Qed.

Lemma code_points_of_percents (n : nat) :
  code_points (repeat 37 n) = repeat 37 n.
Proof.
  induction n as [|n IH]; [reflexivity|].
  cbn [repeat]. rewrite code_points_plain by reflexivity. rewrite IH. reflexivity.
Qed.

(** X22: a query made of [%] only, the empty query among them, matches
    every name: on texts without an unpaired surrogate or U+0000,
    [searchHikes]
    returns all the hikes, in ascending order of name, which is the
    order of the UTF-8 bytes of the names. *)
Theorem searchHikes_percent_finds_everything
    (n : nat) (w : World) (result : list Hike.t) (w' : World) :
  texts_well_formed (store w) = true ->
  searchHikes (repeat 37 n) w = (Ok result, w') ->
  Permutation result (all_hikes (store w)) /\
  StronglySorted name_asc result.
Proof.
  intros _ H. apply searchHikes_inv in H. subst result.
  destruct (select_hikes_spec
              (fun r => SQL.like_text (37 :: repeat 37 n ++ [37]) (HikeRow.name r))
              (fun _ => true) SQL.by_name_asc name_asc (store w)) as (P & S).
  - intros r _. unfold SQL.like_text.
    rewrite code_points_pattern, code_points_of_percents.
    apply like_percents; [discriminate|].
    constructor; [reflexivity|]. apply Forall_app. split.
    + apply Forall_forall. intros c Hc. apply repeat_spec in Hc. exact Hc.
    + repeat constructor.
  - apply by_name_asc_total.
  - apply by_name_asc_trans.
  - intros a b H. exact H.
  - split; [|exact S]. rewrite P, filter_all. reflexivity.
Qed.

(** The query [%] on three hikes, and on the two peaks, where the
    fullwidth letter comes first, as its bytes do. *)
Lemma searchHikes_percent_finds_everything_witness :
  map Hike.name
    (match fst (searchHikes (lit "%") three_hikes) with Ok l => l | Throw _ => [] end)
  = [lit "Ben Nevis"; lit "Box Hill"; lit "Snowdon"] /\
  map Hike.id
    (match fst (searchHikes (lit "%") two_peaks) with Ok l => l | Throw _ => [] end)
  = [Some 2%Z; Some 1%Z] /\
  exists result,
    fst (searchHikes (lit "%") two_peaks) = Ok result /\
    Permutation result (all_hikes (store two_peaks)) /\
    StronglySorted name_asc result.
Proof.
  split; [vm_compute; reflexivity|]. split; [vm_compute; reflexivity|].
  destruct (searchHikes (lit "%") two_peaks) as [[result|e] w'] eqn:E;
    [|vm_compute in E; discriminate].
  exists result. split; [reflexivity|].
  apply (searchHikes_percent_finds_everything 1 two_peaks result w' eq_refl E).
Defined.

Lemma sort_by_nil_filter (A : Type) (leb : A -> A -> bool) (p : A -> bool)
    (l : list A) :
  (forall x, In x l -> p x = false) -> sort_by leb (filter p l) = [].
Proof.
  intros H. induction l as [|x l IH]; [reflexivity|]. cbn.
  rewrite (H x (or_introl eq_refl)). apply IH. intros y Hy. apply H. now right.
Qed.

(** X23: a length range whose minimum is above its maximum matches no
    hike: [advancedSearchHikes] returns the empty list, whatever the
    other criteria. *)
Theorem advancedSearchHikes_empty_range
    (name location : option (list N)) (minLen maxLen : number)
    (date difficulty : option (list N)) (parking : option bool)
    (w : World) (result : list Hike.t) (w' : World) :
  num_leb minLen maxLen = false ->
  advancedSearchHikes name location (Some minLen) (Some maxLen) date difficulty
    parking w = (Ok result, w') ->
  result = [].
Proof.
  intros Range H. apply advancedSearchHikes_inv in H. subst result.
  unfold SQL.select_hikes. rewrite sort_by_nil_filter; [reflexivity|].
  intros r _. unfold advanced_where.
  destruct (num_leb minLen (HikeRow.lengthKm r)) eqn:A;
    [|rewrite !andb_false_r; reflexivity].
  destruct (num_leb (HikeRow.lengthKm r) maxLen) eqn:B;
    [|rewrite !andb_false_r; reflexivity].
  rewrite (num_leb_trans _ _ _ A B) in Range. discriminate.
Qed.

Lemma advancedSearchHikes_empty_range_witness :
  fst (advancedSearchHikes None None (Some (Num 15 0)) (Some (Num 145 1)) None None
         None three_hikes) = Ok [].
Proof.
  destruct (advancedSearchHikes None None (Some (Num 15 0)) (Some (Num 145 1))
              None None None three_hikes) as [[result|e] w'] eqn:E;
    [|vm_compute in E; discriminate].
  rewrite (advancedSearchHikes_empty_range None None (Num 15 0) (Num 145 1)
             None None None three_hikes result w' eq_refl E).
  reflexivity.
Defined.

(* ================================================================== *)
(** * [lib/validation.ts] *)
(* ================================================================== *)

(** ** The values the forms hand over *)

(** A number as a form produces it: [parseFloat] and [parseInt] of what
    was typed give NaN for a text that is no number, and an infinity
    for a text that is too large. *)
Inductive jsnumber : Type :=
| Finite (n : number)
| NaN
| PlusInfinity
| MinusInfinity.

(** [x <= k], [x > k] and [x < k] for a finite [k]; every comparison
    with NaN is false. *)
Definition js_le (x : jsnumber) (k : number) : bool :=
  match x with
  | Finite n => num_leb n k
  | MinusInfinity => true
  | NaN | PlusInfinity => false
  end.

Definition js_gt (x : jsnumber) (k : number) : bool :=
  match x with
  | Finite n => negb (num_leb n k)
  | PlusInfinity => true
  | NaN | MinusInfinity => false
  end.

Definition js_lt (x : jsnumber) (k : number) : bool :=
  match x with
  | Finite n => negb (num_leb k n)
  | MinusInfinity => true
  | NaN | PlusInfinity => false
  end.

(** [!x] for an optional number: absent, zero or NaN. *)
Definition falsy_jsnumber (x : opt jsnumber) : bool :=
  match x with
  | Val (Finite n) => num_is_zero n
  | Val NaN => true
  | Val _ => false
  | _ => true
  end.

(** [x === undefined || x === null]. *)
Definition absent {A : Type} (x : opt A) : bool :=
  match x with
  | Val _ => false
  | _ => true
  end.

(** The text of an optional property that has been found truthy. *)
Definition text_of (x : opt str) : str :=
  match x with Val s => s | _ => [] end.

(** [String.prototype.trim]: the white space and the line terminators of
    ECMAScript are taken off both ends. *)
Definition is_white_space (c : char) : bool :=
  (c =? 9) || (c =? 10) || (c =? 11) || (c =? 12) || (c =? 13) || (c =? 32)
  || (c =? 160) || (c =? 5760) || ((8192 <=? c) && (c <=? 8202))
  || (c =? 8232) || (c =? 8233) || (c =? 8239) || (c =? 8287)
  || (c =? 12288) || (c =? 65279).

Fixpoint trimStart (s : str) : str :=
  match s with
  | [] => []
  | c :: t => if is_white_space c then trimStart t else s
  end.

Definition trim (s : str) : str := rev (trimStart (rev (trimStart s))).

(** [!x || x.trim().length === 0] *)
Definition missing_text (x : opt str) : bool :=
  negb (truthy_str x) || (length (trim (text_of x)) =? 0)%nat.

Module PartialHike.
Record t : Type := mk {
  name : opt str;
  location : opt str;
  date : opt str;
  parkingAvailable : opt bool;
  lengthKm : opt jsnumber;
  difficulty : opt str;
  description : opt str;
  elevationGainM : opt jsnumber;
  rating : opt jsnumber
}.
End PartialHike.

Module PartialObservation.
Record t : Type := mk {
  hikeId : opt jsnumber;
  observation : opt str;
  timestamp : opt jsnumber;
  comments : opt str
}.
End PartialObservation.

Module ValidationError.
Record t : Type := mk {
  field : str;
  message : str
}.
End ValidationError.

Definition error (field message : String.string) : ValidationError.t :=
  ValidationError.mk (lit field) (lit message).
Arguments error (field message)%_string.

(** ** [isValidDate] *)

(** [/^\d{4}-\d{2}-\d{2}$/.test(dateString)] *)
Definition date_pattern (dateString : str) : bool :=
  match dateString with
  | [y1; y2; y3; y4; h1; m1; m2; h2; d1; d2] =>
      is_digit y1 && is_digit y2 && is_digit y3 && is_digit y4 && (h1 =? 45)
      && is_digit m1 && is_digit m2 && (h2 =? 45) && is_digit d1 && is_digit d2
  | _ => false
  end.

Section Validation.

(** [!isNaN(new Date(dateString).getTime())]: whether the platform makes
    a date of the text.  The engines differ on a day that the month
    does not have, so the answer is left to the platform. *)
Variable Date_is_valid : str -> bool.

Definition isValidDate (dateString : str) : bool :=
  if negb (date_pattern dateString) then false
  else Date_is_valid dateString.

(** ** [validateHike] *)

(** The checks, in the order of the function; each pushes at most one
    error. *)
Definition name_errors (hike : PartialHike.t) : list ValidationError.t :=
  if missing_text (PartialHike.name hike)
  then [error "name" "Name is required"]
  else if (100 <? length (text_of (PartialHike.name hike)))%nat
  then [error "name" "Name must be less than 100 characters"]
  else [].

Definition location_errors (hike : PartialHike.t) : list ValidationError.t :=
  if missing_text (PartialHike.location hike)
  then [error "location" "Location is required"]
  else if (200 <? length (text_of (PartialHike.location hike)))%nat
  then [error "location" "Location must be less than 200 characters"]
  else [].

Definition date_errors (hike : PartialHike.t) : list ValidationError.t :=
  if missing_text (PartialHike.date hike)
  then [error "date" "Date is required"]
  else if negb (isValidDate (text_of (PartialHike.date hike)))
  then [error "date" "Invalid date format (use YYYY-MM-DD)"]
  else [].

Definition lengthKm_errors (hike : PartialHike.t) : list ValidationError.t :=
  match PartialHike.lengthKm hike with
  | Val x =>
      if js_le x (Num 0 0)
      then [error "lengthKm" "Length must be greater than 0"]
      else if js_gt x (Num 1000 0)
      then [error "lengthKm" "Length must be less than 1000 km"]
      else []
  | _ => [error "lengthKm" "Length is required"]
  end.

Definition difficulty_errors (hike : PartialHike.t) : list ValidationError.t :=
  if negb (truthy_str (PartialHike.difficulty hike))
  then [error "difficulty" "Difficulty is required"]
  else if negb (existsb (str_eqb (text_of (PartialHike.difficulty hike)))
                  [lit "Easy"; lit "Moderate"; lit "Hard"])
  then [error "difficulty" "Difficulty must be Easy, Moderate, or Hard"]
  else [].

Definition parkingAvailable_errors (hike : PartialHike.t) : list ValidationError.t :=
  if absent (PartialHike.parkingAvailable hike)
  then [error "parkingAvailable" "Parking availability is required"]
  else [].

Definition elevationGainM_errors (hike : PartialHike.t) : list ValidationError.t :=
  match PartialHike.elevationGainM hike with
  | Val x =>
      if js_lt x (Num 0 0) || js_gt x (Num 9000 0)
      then [error "elevationGainM" "Elevation must be between 0 and 9000 m"]
      else []
  | _ => []
  end.

Definition rating_errors (hike : PartialHike.t) : list ValidationError.t :=
  match PartialHike.rating hike with
  | Val x =>
      if js_lt x (Num 0 0) || js_gt x (Num 5 0)
      then [error "rating" "Rating must be between 0 and 5"]
      else []
  | _ => []
  end.

Definition description_errors (hike : PartialHike.t) : list ValidationError.t :=
  if truthy_str (PartialHike.description hike)
     && (1000 <? length (text_of (PartialHike.description hike)))%nat
  then [error "description" "Description must be less than 1000 characters"]
  else [].

Definition validateHike (hike : PartialHike.t) : list ValidationError.t :=
  name_errors hike ++ location_errors hike ++ date_errors hike
  ++ lengthKm_errors hike ++ difficulty_errors hike
  ++ parkingAvailable_errors hike ++ elevationGainM_errors hike
  ++ rating_errors hike ++ description_errors hike.

End Validation.

(** ** [validateObservation] *)

Definition validateObservation (observation : PartialObservation.t)
    : list ValidationError.t :=
  (if missing_text (PartialObservation.observation observation)
   then [error "observation" "Observation is required"]
   else if (500 <? length (text_of (PartialObservation.observation observation)))%nat
   then [error "observation" "Observation must be less than 500 characters"]
   else [])
  ++ (if falsy_jsnumber (PartialObservation.timestamp observation)
      then [error "timestamp" "Date and time are required"]
      else [])
  ++ (if truthy_str (PartialObservation.comments observation)
         && (1000 <? length (text_of (PartialObservation.comments observation)))%nat
      then [error "comments" "Comments must be less than 1000 characters"]
      else [])
  ++ (if falsy_jsnumber (PartialObservation.hikeId observation)
      then [error "hikeId" "Hike ID is required"]
      else []).

(** [!!(draft.observation?.trim())] *)
Definition isObservationFormComplete (observation : opt str) : bool :=
  match observation with
  | Val s => match trim s with [] => false | _ :: _ => true end
  | _ => false
  end.

(** ** What the validation accepts *)

Lemma missing_text_false (x : opt str) :
  missing_text x = false <-> exists s, x = Val s /\ trim s <> [].
Proof.
  unfold missing_text. rewrite orb_false_iff, negb_false_iff. split.
  - intros (T & L). destruct x as [| |s]; try discriminate.
    exists s. split; [reflexivity|]. cbn [text_of] in L.
    destruct (trim s); [cbn in L; discriminate L | discriminate].
  - intros (s & -> & L). destruct s as [|c s]; [contradiction L; reflexivity|].
    cbn [truthy_str text_of]. split; [reflexivity|].
    destruct (trim (c :: s)); [contradiction | reflexivity].
Qed.

(** A required text: it is there, it is more than white space, and it
    has [limit] UTF-16 code units at most. *)
Definition filled (x : opt str) (limit : nat) : Prop :=
  exists s, x = Val s /\ trim s <> [] /\ (length s <= limit)%nat.

Lemma text_check (x : opt str) (limit : nat) (e1 e2 : ValidationError.t) :
  (if missing_text x then [e1]
   else if (limit <? length (text_of x))%nat then [e2] else []) = []
  <-> filled x limit.
Proof.
  unfold filled. destruct (missing_text x) eqn:M.
  - split; [discriminate|]. intros (s & E & T & _).
    assert (M' : missing_text x = false) by (apply missing_text_false; eauto).
    congruence.
  - apply missing_text_false in M. destruct M as (s & -> & T). cbn [text_of].
    destruct (limit <? length s)%nat eqn:L.
    + split; [discriminate|]. intros (s' & [= <-] & _ & L').
      apply Nat.ltb_lt in L. lia.
    + split; [|reflexivity]. intros _. apply Nat.ltb_ge in L. eauto.
Qed.

(** An optional number between 0 and [high]; NaN passes, since every
    comparison with it is false. *)
Definition in_range (x : opt jsnumber) (high : number) : Prop :=
  match x with
  | Val (Finite n) => num_leb (Num 0 0) n = true /\ num_leb n high = true
  | Val NaN => True
  | Val _ => False
  | _ => True
  end.

Lemma range_check (x : opt jsnumber) (high : number) (e : ValidationError.t) :
  match x with
  | Val v => if js_lt v (Num 0 0) || js_gt v high then [e] else []
  | _ => []
  end = [] <-> in_range x high.
Proof.
  destruct x as [| |[n| | |]]; cbn; try tauto; try (split; [discriminate | tauto]).
  destruct (num_leb (Num 0 0) n), (num_leb n high); cbn;
    split; try discriminate; try tauto; intros (A & B); discriminate.
Qed.

(** The hikes [validateHike] has nothing to say against. *)
Definition acceptable (Date_is_valid : list N -> bool) (hike : PartialHike.t) : Prop :=
  filled (PartialHike.name hike) 100 /\
  filled (PartialHike.location hike) 200 /\
  (exists s, PartialHike.date hike = Val s /\ trim s <> [] /\
             date_pattern s = true /\ Date_is_valid s = true) /\
  match PartialHike.lengthKm hike with
  | Val (Finite n) => num_leb n (Num 0 0) = false /\ num_leb n (Num 1000 0) = true
  | Val NaN => True
  | _ => False
  end /\
  (PartialHike.difficulty hike = Val (lit "Easy") \/
   PartialHike.difficulty hike = Val (lit "Moderate") \/
   PartialHike.difficulty hike = Val (lit "Hard")) /\
  (exists b, PartialHike.parkingAvailable hike = Val b) /\
  in_range (PartialHike.elevationGainM hike) (Num 9000 0) /\
  in_range (PartialHike.rating hike) (Num 5 0) /\
  match PartialHike.description hike with
  | Val s => (length s <= 1000)%nat
  | _ => True
  end.

Lemma date_check (Date_is_valid : list N -> bool) (hike : PartialHike.t) :
  date_errors Date_is_valid hike = [] <->
  exists s, PartialHike.date hike = Val s /\ trim s <> [] /\
            date_pattern s = true /\ Date_is_valid s = true.
Proof.
  unfold date_errors, isValidDate.
  destruct (missing_text (PartialHike.date hike)) eqn:M.
  - split; [discriminate|]. intros (s & E & T & _).
    assert (M' : missing_text (PartialHike.date hike) = false)
      by (apply missing_text_false; eauto).
    congruence.
  - apply missing_text_false in M. destruct M as (s & -> & T). cbn [text_of].
    destruct (date_pattern s) eqn:P; cbn.
    + destruct (Date_is_valid s) eqn:V; cbn.
      * split; [eauto|reflexivity].
      * split; [discriminate|]. intros (s' & [= <-] & _ & _ & V'). congruence.
    + split; [discriminate|]. intros (s' & [= <-] & _ & P' & _). congruence.
Qed.

Lemma lengthKm_check (hike : PartialHike.t) :
  lengthKm_errors hike = [] <->
  match PartialHike.lengthKm hike with
  | Val (Finite n) => num_leb n (Num 0 0) = false /\ num_leb n (Num 1000 0) = true
  | Val NaN => True
  | _ => False
  end.
Proof.
  unfold lengthKm_errors.
  destruct (PartialHike.lengthKm hike) as [| |[n| | |]]; cbn;
    try (split; [discriminate | tauto]); try tauto.
  destruct (num_leb n (Num 0 0)), (num_leb n (Num 1000 0)); cbn;
    split; try discriminate; try tauto; intros (A & B); discriminate.
Qed.

Lemma member_check (x : opt str) (a b c : str) (e1 e2 : ValidationError.t) :
  a <> [] -> b <> [] -> c <> [] ->
  (if negb (truthy_str x) then [e1]
   else if negb (existsb (str_eqb (text_of x)) [a; b; c]) then [e2] else []) = []
  <-> (x = Val a \/ x = Val b \/ x = Val c).
Proof.
  intros Na Nb Nc.
  destruct x as [| |s]; cbn [truthy_str negb text_of];
    try (split; [discriminate | intros [H | [H | H]]; discriminate]).
  destruct s as [|k s].
  { split; [discriminate | intros [H | [H | H]]; congruence]. }
  cbn [negb existsb].
  destruct (str_eqb (k :: s) a) eqn:E1.
  { apply str_eqb_eq in E1. rewrite E1. cbn. split; auto. }
  destruct (str_eqb (k :: s) b) eqn:E2.
  { apply str_eqb_eq in E2. rewrite E2. cbn. split; auto. }
  destruct (str_eqb (k :: s) c) eqn:E3.
  { apply str_eqb_eq in E3. rewrite E3. cbn. split; auto. }
  cbn. split; [discriminate|].
  assert (N1 : k :: s <> a) by (intros N; apply str_eqb_eq in N; congruence).
  assert (N2 : k :: s <> b) by (intros N; apply str_eqb_eq in N; congruence).
  assert (N3 : k :: s <> c) by (intros N; apply str_eqb_eq in N; congruence).
  intros [H | [H | H]]; congruence.
Qed.

Lemma difficulty_check (hike : PartialHike.t) :
  difficulty_errors hike = [] <->
  (PartialHike.difficulty hike = Val (lit "Easy") \/
   PartialHike.difficulty hike = Val (lit "Moderate") \/
   PartialHike.difficulty hike = Val (lit "Hard")).
Proof.
  apply member_check; discriminate.
Qed.

Lemma description_check (hike : PartialHike.t) :
  description_errors hike = [] <->
  match PartialHike.description hike with
  | Val s => (length s <= 1000)%nat
  | _ => True
  end.
Proof.
  unfold description_errors.
  destruct (PartialHike.description hike) as [| |[|c s]]; cbn [truthy_str andb text_of];
    try tauto; [cbn; split; [lia | reflexivity]|].
  destruct (1000 <? length (c :: s))%nat eqn:L.
  - apply Nat.ltb_lt in L. split; [discriminate | lia].
  - apply Nat.ltb_ge in L. tauto.
Qed.

(** X24: [validateHike] returns no error exactly for the hikes that are
    [acceptable]: name and location given, more than white space and of
    at most 100 and 200 code units; a date of the shape dddd-dd-dd that
    the platform makes a date of; a length above 0 and at most 1000, or
    NaN; a difficulty among Easy, Moderate and Hard; a parking flag; an
    elevation gain and a rating that are absent, NaN, or between 0 and
    9000 and between 0 and 5; and a description of at most 1000 code
    units. *)
Theorem validateHike_accepts
    (Date_is_valid : list N -> bool) (hike : PartialHike.t) :
  validateHike Date_is_valid hike = [] <-> acceptable Date_is_valid hike.
Proof.
  unfold validateHike, acceptable.
  rewrite <- (text_check (PartialHike.name hike) 100
                (error "name" "Name is required")
                (error "name" "Name must be less than 100 characters")).
  rewrite <- (text_check (PartialHike.location hike) 200
                (error "location" "Location is required")
                (error "location" "Location must be less than 200 characters")).
  rewrite <- (date_check Date_is_valid hike), <- lengthKm_check, <- difficulty_check.
  rewrite <- (range_check (PartialHike.elevationGainM hike) (Num 9000 0)
                (error "elevationGainM" "Elevation must be between 0 and 9000 m")).
  rewrite <- (range_check (PartialHike.rating hike) (Num 5 0)
                (error "rating" "Rating must be between 0 and 5")).
  rewrite <- description_check.
  fold (name_errors hike) (location_errors hike) (elevationGainM_errors hike)
    (rating_errors hike).
  assert (Parking : parkingAvailable_errors hike = [] <->
                    exists b, PartialHike.parkingAvailable hike = Val b).
  { unfold parkingAvailable_errors.
    destruct (PartialHike.parkingAvailable hike) as [| |b]; cbn;
      split; try discriminate; eauto; intros (b' & H); discriminate. }
  rewrite <- Parking.
  split.
  - intros H. repeat (apply app_eq_nil in H; destruct H as (? & H)).
    repeat split; assumption.
  - intros (A & B & C & D & E & F & G & H & I).
    rewrite A, B, C, D, E, F, G, H, I. reflexivity.
Qed.

(** A platform that makes a date of every text of the shape. *)
Definition any_date (s : list N) : bool := true.

(** A length that is not a number passes: [parseFloat] of a text such as
    [abc] is NaN, and the hike is accepted. *)
Lemma validateHike_accepts_witness :
  validateHike any_date
    (PartialHike.mk (Val (lit "Snowdon")) (Val (lit "Llanberis, UK"))
       (Val (lit "2025-07-10")) (Val true) (Val NaN) (Val (lit "Hard"))
       Undefined Undefined (Val (Finite (Num 45 1)))) = [].
Proof.
  apply (proj2 (validateHike_accepts any_date _)).
  unfold acceptable, filled, in_range. cbn.
  repeat split; try discriminate; try reflexivity; eauto 10.
  - exists (lit "Snowdon"). repeat split; [discriminate | cbn; lia].
  - exists (lit "Llanberis, UK"). repeat split; [discriminate | cbn; lia].
  - exists (lit "2025-07-10"). repeat split. discriminate.
Defined.

(** ** One error for a field, in the order of the form *)

(** [subsequence a b]: the texts of [a] are texts of [b], in the order
    of [b] and each taken once. *)
Fixpoint subsequence (a b : list str) : bool :=
  match a, b with
  | [], _ => true
  | _ :: _, [] => false
  | x :: a', y :: b' =>
      if str_eqb x y then subsequence a' b' else subsequence a b'
  end.

Definition hike_fields : list str :=
  [lit "name"; lit "location"; lit "date"; lit "lengthKm"; lit "difficulty";
   lit "parkingAvailable"; lit "elevationGainM"; lit "rating"; lit "description"].

(** No error, or one error on the field [f]. *)
Definition at_most_one (f : str) (l : list ValidationError.t) : Prop :=
  l = [] \/ exists m, l = [ValidationError.mk f m].

Ltac one_check :=
  unfold at_most_one, error;
  repeat match goal with
         | |- context [match ?c with _ => _ end] => destruct c
         end; eauto.

Lemma name_at_most_one hike : at_most_one (lit "name") (name_errors hike).
Proof. unfold name_errors. one_check. Qed.

Lemma location_at_most_one hike :
  at_most_one (lit "location") (location_errors hike).
Proof. unfold location_errors. one_check. Qed.

Lemma date_at_most_one D hike : at_most_one (lit "date") (date_errors D hike).
Proof.
  unfold date_errors. generalize (isValidDate D (text_of (PartialHike.date hike))).
  intros v. one_check.
Qed.

Lemma lengthKm_at_most_one hike :
  at_most_one (lit "lengthKm") (lengthKm_errors hike).
Proof.
  unfold lengthKm_errors.
  destruct (PartialHike.lengthKm hike) as [| |x];
    [right; eexists; reflexivity | right; eexists; reflexivity |].
  generalize (js_le x (Num 0 0)) (js_gt x (Num 1000 0)). intros a b. one_check.
Qed.

Lemma difficulty_at_most_one hike :
  at_most_one (lit "difficulty") (difficulty_errors hike).
Proof.
  unfold difficulty_errors.
  generalize (existsb (str_eqb (text_of (PartialHike.difficulty hike)))
                [lit "Easy"; lit "Moderate"; lit "Hard"]).
  generalize (truthy_str (PartialHike.difficulty hike)).
  intros a b. one_check.
Qed.

Lemma parkingAvailable_at_most_one hike :
  at_most_one (lit "parkingAvailable") (parkingAvailable_errors hike).
Proof. unfold parkingAvailable_errors. one_check. Qed.

Lemma elevationGainM_at_most_one hike :
  at_most_one (lit "elevationGainM") (elevationGainM_errors hike).
Proof.
  unfold elevationGainM_errors.
  destruct (PartialHike.elevationGainM hike) as [| |x]; [left; reflexivity..|].
  generalize (js_lt x (Num 0 0) || js_gt x (Num 9000 0)). intros a. one_check.
Qed.

Lemma rating_at_most_one hike : at_most_one (lit "rating") (rating_errors hike).
Proof.
  unfold rating_errors.
  destruct (PartialHike.rating hike) as [| |x]; [left; reflexivity..|].
  generalize (js_lt x (Num 0 0) || js_gt x (Num 5 0)). intros a. one_check.
Qed.

Lemma description_at_most_one hike :
  at_most_one (lit "description") (description_errors hike).
Proof.
  unfold description_errors.
  generalize (truthy_str (PartialHike.description hike)
              && (1000 <? length (text_of (PartialHike.description hike)))%nat).
  intros a. one_check.
Qed.

(** X25: [validateHike] reports a field once at most, and the errors
    come in the order of the form: name, location, date, lengthKm,
    difficulty, parkingAvailable, elevationGainM, rating, description. *)
Theorem validateHike_one_error_per_field
    (Date_is_valid : list N -> bool) (hike : PartialHike.t) :
  subsequence (map ValidationError.field (validateHike Date_is_valid hike))
    hike_fields = true.
Proof.
  unfold validateHike.
  destruct (name_at_most_one hike) as [-> | (m1 & ->)];
  destruct (location_at_most_one hike) as [-> | (m2 & ->)];
  destruct (date_at_most_one Date_is_valid hike) as [-> | (m3 & ->)];
  destruct (lengthKm_at_most_one hike) as [-> | (m4 & ->)];
  destruct (difficulty_at_most_one hike) as [-> | (m5 & ->)];
  destruct (parkingAvailable_at_most_one hike) as [-> | (m6 & ->)];
  destruct (elevationGainM_at_most_one hike) as [-> | (m7 & ->)];
  destruct (rating_at_most_one hike) as [-> | (m8 & ->)];
  destruct (description_at_most_one hike) as [-> | (m9 & ->)];
  reflexivity.
Qed.

(** ** Observations *)

(** [x] is a number other than zero and NaN. *)
Definition given_number (x : opt jsnumber) : Prop :=
  match x with
  | Val (Finite n) => num_is_zero n = false
  | Val NaN => False
  | Val _ => True
  | _ => False
  end.

Lemma falsy_jsnumber_false (x : opt jsnumber) :
  falsy_jsnumber x = false <-> given_number x.
Proof.
  destruct x as [| |[n| | |]]; cbn; try tauto; split; try discriminate; tauto.
Qed.

Lemma number_check (x : opt jsnumber) (e : ValidationError.t) :
  (if falsy_jsnumber x then [e] else []) = [] <-> given_number x.
Proof.
  rewrite <- falsy_jsnumber_false. destruct (falsy_jsnumber x);
    split; try discriminate; reflexivity.
Qed.

Lemma optional_text_check (x : opt str) (limit : nat) (e : ValidationError.t) :
  (if truthy_str x && (limit <? length (text_of x))%nat then [e] else []) = []
  <-> match x with Val s => (length s <= limit)%nat | _ => True end.
Proof.
  destruct x as [| |[|c s]]; cbn [truthy_str andb text_of]; try tauto;
    [cbn; split; [lia | reflexivity]|].
  destruct (limit <? length (c :: s))%nat eqn:L.
  - apply Nat.ltb_lt in L. split; [discriminate | lia].
  - apply Nat.ltb_ge in L. tauto.
Qed.

(** X26: [validateObservation] returns no error exactly when the text
    is given, is more than white space and has at most 500 code units,
    the timestamp and the hikeId are numbers other than zero and NaN,
    and the comments have at most 1000 code units; and then the form
    counts as complete for [isObservationFormComplete]. *)
Theorem validateObservation_accepts (o : PartialObservation.t) :
  (validateObservation o = [] <->
   filled (PartialObservation.observation o) 500 /\
   given_number (PartialObservation.timestamp o) /\
   match PartialObservation.comments o with
   | Val s => (length s <= 1000)%nat
   | _ => True
   end /\
   given_number (PartialObservation.hikeId o)) /\
  (validateObservation o = [] ->
   isObservationFormComplete (PartialObservation.observation o) = true).
Proof.
  assert (Iff : validateObservation o = [] <->
                filled (PartialObservation.observation o) 500 /\
                given_number (PartialObservation.timestamp o) /\
                match PartialObservation.comments o with
                | Val s => (length s <= 1000)%nat
                | _ => True
                end /\
                given_number (PartialObservation.hikeId o)).
  { unfold validateObservation.
    rewrite <- (text_check (PartialObservation.observation o) 500
                  (error "observation" "Observation is required")
                  (error "observation"
                     "Observation must be less than 500 characters")).
    rewrite <- (number_check (PartialObservation.timestamp o)
                  (error "timestamp" "Date and time are required")).
    rewrite <- (number_check (PartialObservation.hikeId o)
                  (error "hikeId" "Hike ID is required")).
    rewrite <- (optional_text_check (PartialObservation.comments o) 1000
                  (error "comments" "Comments must be less than 1000 characters")).
    split.
    - intros H. repeat (apply app_eq_nil in H; destruct H as (? & H)).
      repeat split; assumption.
    - intros (A & B & C & D). rewrite A, B, C, D. reflexivity. }
  split; [exact Iff|].
  intros H. apply Iff in H. destruct H as ((s & E & T & _) & _).
  rewrite E. cbn. destruct (trim s); [contradiction | reflexivity].
Qed.

(** An observation of the hike 0 is turned down: the id reads as
    missing. *)
Lemma validateObservation_accepts_witness :
  validateObservation
    (PartialObservation.mk (Val (Finite (Num 3 0))) (Val (lit " Red kite "))
       (Val (Finite (Num 1752140000000 0))) Null) = [] /\
  validateObservation
    (PartialObservation.mk (Val (Finite (Num 0 0))) (Val (lit " Red kite "))
       (Val (Finite (Num 1752140000000 0))) Null)
  = [error "hikeId" "Hike ID is required"].
Proof.
  split; [|reflexivity].
  apply (proj2 (proj1 (validateObservation_accepts _))). cbn.
  repeat split. exists (lit " Red kite ").
  repeat split; [discriminate | cbn; lia].
Defined.

(* ================================================================== *)
(** * [lib/events.ts] *)
(* ================================================================== *)

(** The one event of [AppEvents] and what it carries. *)
Inductive AppEvent : Type := map_locationSelected.

Module LocationSelected.
Record t : Type := mk {
  address : str;
  latitude : number;
  longitude : number
}.
End LocationSelected.

(** A [Set<Function>]: the functions in the order they were added, each
    once.  A function is known by its identity, a number here. *)
Definition set_add (listener : nat) (set : list nat) : list nat :=
  if existsb (Nat.eqb listener) set then set else set ++ [listener].

Definition set_delete (listener : nat) (set : list nat) : list nat :=
  filter (fun l => negb (l =? listener)%nat) set.

(** [listeners]: the map from an event to its set, [None] for an event
    that has no entry. *)
Definition TypedEventBus : Type := AppEvent -> option (list nat).

(** [new TypedEventBus()] *)
Definition new_bus : TypedEventBus := fun _ => None.

Definition map_set (event : AppEvent) (set : list nat) (bus : TypedEventBus)
    : TypedEventBus :=
  fun e => match e, event with
           | map_locationSelected, map_locationSelected => Some set
           end.

(** [on(event, listener)]: the bus after the call ... *)
Definition on (event : AppEvent) (listener : nat) (bus : TypedEventBus)
    : TypedEventBus :=
  let set := match bus event with Some s => s | None => [] end in
  map_set event (set_add listener set) bus.

(** ... and the function it returns, applied to the bus as it is when
    the function is called. *)
Definition off (event : AppEvent) (listener : nat) (bus : TypedEventBus)
    : TypedEventBus :=
  match bus event with
  | Some s => map_set event (set_delete listener s) bus
  | None => bus
  end.

Section Emit.

(** What the listeners act upon, and what each does with a payload: the
    state it leaves, and whether it ended by throwing.  A listener that
    subscribes or unsubscribes while it runs is outside the model; the
    listeners of the repository write form fields. *)
Variable State : Type.
Variable run : nat -> LocationSelected.t -> State -> State * bool.

(** [emit(event, payload)]: the state the listeners leave, and the
    listeners whose failure was caught and logged. *)
Definition emit (event : AppEvent) (payload : LocationSelected.t)
    (bus : TypedEventBus) (st : State) : State * list nat :=
  match bus event with
  | None => (st, [])
  | Some set =>
      fold_left
        (fun acc l =>
           let (st', threw) := run l payload (fst acc) in
           (st', if threw then snd acc ++ [l] else snd acc))
        set (st, [])
  end.

End Emit.

(** The listeners of an event, in the order [emit] calls them. *)
Definition subscribers (bus : TypedEventBus) (event : AppEvent) : list nat :=
  match bus event with Some s => s | None => [] end.

(** ** Subscribing and unsubscribing *)

Lemma set_delete_add (listener : nat) (set : list nat) :
  set_delete listener (set_add listener set) = set_delete listener set.
Proof.
  unfold set_add, set_delete.
  destruct (existsb (Nat.eqb listener) set); [reflexivity|].
  rewrite filter_app. cbn. rewrite Nat.eqb_refl. cbn. apply app_nil_r.
Qed.

Lemma set_delete_absent (listener : nat) (set : list nat) :
  ~ In listener set -> set_delete listener set = set.
Proof.
  intros H. unfold set_delete. induction set as [|x set IH]; [reflexivity|].
  cbn. destruct (x =? listener)%nat eqn:E.
  - apply Nat.eqb_eq in E. subst x. contradiction H. left. reflexivity.
  - cbn. rewrite IH; [reflexivity|]. intros I. apply H. right. exact I.
Qed.

Lemma set_add_NoDup (listener : nat) (set : list nat) :
  NoDup set -> NoDup (set_add listener set).
Proof.
  intros H. unfold set_add.
  destruct (existsb (Nat.eqb listener) set) eqn:E; [exact H|].
  apply NoDup_app; [exact H | repeat constructor; intros [] |].
  intros x Hx [<- | []].
  assert (E' : existsb (Nat.eqb listener) set = true).
  { apply existsb_exists. exists listener. split; [exact Hx | apply Nat.eqb_refl]. }
  congruence.
Qed.

(** X27: a listener is subscribed once however often [on] is called
    with it, and one call of a function that [on] returned ends the
    subscription: after [on], [on] again and one [off], the listeners
    of the event are those that were there but this one, in their
    order. *)
Theorem one_off_ends_every_on
    (event : AppEvent) (listener : nat) (bus : TypedEventBus) :
  NoDup (subscribers bus event) ->
  let twice := on event listener (on event listener bus) in
  subscribers twice event = subscribers (on event listener bus) event /\
  NoDup (subscribers twice event) /\
  In listener (subscribers twice event) /\
  subscribers (off event listener twice) event
  = set_delete listener (subscribers bus event) /\
  ~ In listener (subscribers (off event listener twice) event).
Proof.
  intros D. cbv zeta. destruct event. unfold subscribers, on, off, map_set.
  set (s := match bus map_locationSelected with Some s => s | None => [] end).
  fold s in D.
  assert (I : In listener (set_add listener s)).
  { unfold set_add. destruct (existsb (Nat.eqb listener) s) eqn:E.
    - apply existsb_exists in E. destruct E as (x & Hx & E).
      apply Nat.eqb_eq in E. subst x. exact Hx.
    - apply in_or_app. right. left. reflexivity. }
  assert (Again : set_add listener (set_add listener s) = set_add listener s).
  { unfold set_add at 1.
    replace (existsb (Nat.eqb listener) (set_add listener s)) with true;
      [reflexivity|].
    symmetry. apply existsb_exists. exists listener.
    split; [exact I | apply Nat.eqb_refl]. }
  rewrite Again. split; [reflexivity|].
  split; [apply set_add_NoDup, D|]. split; [exact I|].
  rewrite set_delete_add. split; [reflexivity|].
  unfold set_delete. rewrite filter_In. intros (_ & H).
  rewrite Nat.eqb_refl in H. discriminate.
Qed.

Lemma one_off_ends_every_on_witness :
  let bus := on map_locationSelected 2 (on map_locationSelected 1 new_bus) in
  let twice := on map_locationSelected 1 (on map_locationSelected 1 bus) in
  subscribers twice map_locationSelected = [1; 2]%nat /\
  subscribers (off map_locationSelected 1 twice) map_locationSelected = [2]%nat.
Proof.
  cbv zeta.
  destruct (one_off_ends_every_on map_locationSelected 1
              (on map_locationSelected 2 (on map_locationSelected 1 new_bus)))
    as (A & _ & _ & B & _).
  - repeat constructor; cbn; intuition discriminate.
  - split; [rewrite A; reflexivity | rewrite B; reflexivity].
Defined.

(** ** Emitting *)

(** X28: a listener that throws does not keep the later ones from
    running.  A listener subscribed to an event after the others is
    called by [emit] after them, on the state they left, whether or not
    one of them threw; its own failure is caught and logged after
    theirs. *)
Theorem emit_reaches_the_last_listener
    (State : Type) (run : nat -> LocationSelected.t -> State -> State * bool)
    (event : AppEvent) (payload : LocationSelected.t)
    (listener : nat) (bus : TypedEventBus) (st : State) :
  ~ In listener (subscribers bus event) ->
  let before := emit State run event payload bus st in
  emit State run event payload (on event listener bus) st
  = (fst (run listener payload (fst before)),
     snd before ++ (if snd (run listener payload (fst before)) then [listener] else [])).
Proof.
  intros Fresh. cbv zeta. destruct event.
  unfold emit, on, map_set, subscribers in *.
  set (s := match bus map_locationSelected with Some s => s | None => [] end) in *.
  assert (A : set_add listener s = s ++ [listener]).
  { unfold set_add. destruct (existsb (Nat.eqb listener) s) eqn:E; [|reflexivity].
    apply existsb_exists in E. destruct E as (x & Hx & E).
    apply Nat.eqb_eq in E. subst x. contradiction. }
  rewrite A, fold_left_app.
  assert (B : match bus map_locationSelected with
              | Some set =>
                  fold_left
                    (fun acc l =>
                       let (st', threw) := run l payload (fst acc) in
                       (st', if threw then snd acc ++ [l] else snd acc))
                    set (st, [])
              | None => (st, [])
              end
              = fold_left
                  (fun acc l =>
                     let (st', threw) := run l payload (fst acc) in
                     (st', if threw then snd acc ++ [l] else snd acc))
                  s (st, [])).
  { unfold s. destruct (bus map_locationSelected); reflexivity. }
  rewrite B. cbn [fold_left].
  destruct (fold_left _ s (st, [])) as [st1 log1]. cbn [fst snd].
  destruct (run listener payload st1) as [st2 [|]]; cbn [fst snd];
    rewrite ?app_nil_r; reflexivity.
Qed.

(** Three listeners add 1, 10 and 100 to a counter; the second throws
    once it has done so. *)
Definition adds (l : nat) (payload : LocationSelected.t) (st : nat) : nat * bool :=
  match l with
  | 1%nat => ((st + 1)%nat, false)
  | 2%nat => ((st + 10)%nat, true)
  | _ => ((st + 100)%nat, false)
  end.

Lemma emit_reaches_the_last_listener_witness :
  let bus := on map_locationSelected 2 (on map_locationSelected 1 new_bus) in
  emit nat adds map_locationSelected
    (LocationSelected.mk (lit "Llanberis") (Num 530685 4) (Num (-40763) 4))
    (on map_locationSelected 3 bus) 0%nat
  = (111%nat, [2%nat]).
Proof.
  cbv zeta.
  rewrite (emit_reaches_the_last_listener nat adds map_locationSelected
             (LocationSelected.mk (lit "Llanberis") (Num 530685 4) (Num (-40763) 4))
             3 (on map_locationSelected 2 (on map_locationSelected 1 new_bus)) 0%nat).
  - reflexivity.
  - cbn. intuition discriminate.
Defined.

(* ================================================================== *)
(** * [contexts/DataContext.tsx] *)
(* ================================================================== *)

(** [getObservations] of the provider. *)
Definition getObservations (hikeId : Z) : M (list Observation.t) :=
  tryCatch (getObservationsByHikeId (Some hikeId)) (fun error => ret []).

(** X29: [getObservations] never throws and writes nothing.  It returns
    what [getObservationsByHikeId] returns, and the empty list when that
    fails: to its caller a database that cannot be read looks like a
    hike without observations. *)
Theorem getObservations_hides_failures (hikeId : Z) (w : World) :
  exists l w',
    getObservations hikeId w = (Ok l, w') /\
    store w' = store w /\
    (forall r w1, getObservationsByHikeId (Some hikeId) w = (Ok r, w1) ->
                  l = r /\ w' = w1) /\
    (forall e w1, getObservationsByHikeId (Some hikeId) w = (Throw e, w1) ->
                  l = [] /\ w' = w1).
Proof.
  unfold getObservations, tryCatch.
  destruct (getObservationsByHikeId (Some hikeId) w) as [[r|e] w1] eqn:G;
    eexists _, _; (split; [reflexivity|]);
    (split; [unfold getObservationsByHikeId in G; apply opened_read_inv in G; tauto|]);
    split; intros x w2 E; try discriminate; injection E as <- <-; auto.
Qed.
